(** * SPINE driver and overlap matcher: a shallow embedding

    The development follows three source files:
    - [src/spine/post/evaluation/match.py] ([MatchProcessor]: its
      construction and [generate_matches]),
    - [src/mlreco/manager.py] ([SPICEManager]: configuration processing,
      weight freezing and loading, the run loop, the batch step, checkpoint
      saving and the distributed gather of [write]),
    - [src/spine/main.py] (the launcher: [process_world], [run],
      [run_single] and [inference_single]).

    Python values are modelled with explicit tags, exceptions with a
    [result] type, in-place mutation with explicit state passing, and
    dictionaries with their insertion-ordered entry table.  A number is the
    rational it denotes ([Q]); what numpy computes from numbers ([np.mean],
    [np.sum], [np.argsort]) is a parameter of the functions that call it. *)

From Stdlib Require Import String Ascii DecimalString.
From Stdlib Require DecimalPos DecimalZ.
From Stdlib Require Import List Bool Arith ZArith QArith Qround.
From Stdlib Require Import Lia Lqa Permutation Sorted.
Import ListNotations.

(** ** Python runtime: exceptions and results

    [Unmodelled] is not a Python exception: it marks an input on which the
    behaviour of an external library (numpy, torch) is left out of the
    model. *)

Inductive exn : Type :=
| NameError (name : string)
| AttributeError (msg : string)
| IndexError
| TypeError (msg : string)
| ValueError (msg : string)
| AssertionError (msg : string)
| RuntimeError (msg : string)
| ZeroDivisionError
| KeyError (key : string)
| Unmodelled (what : string).

Inductive result (A : Type) : Type :=
| Ok (a : A)
| Raise (e : exn).

Arguments Ok {A} a.
Arguments Raise {A} e.

Definition bind {A B : Type} (r : result A) (k : A -> result B) : result B :=
  match r with
  | Ok a => k a
  | Raise e => Raise e
  end.

Notation "x <- r ;; k" := (bind r (fun x => k))
  (at level 61, r at next level, right associativity).

Fixpoint mapM {A B : Type} (f : A -> result B) (l : list A) : result (list B) :=
  match l with
  | [] => Ok []
  | a :: t => b <- f a ;; bs <- mapM f t ;; Ok (b :: bs)
  end.

Definition is_ok {A : Type} (r : result A) : bool :=
  match r with Ok _ => true | Raise _ => false end.

(** ** Python strings *)

Module Str.

Fixpoint to_list (s : string) : list ascii :=
  match s with
  | EmptyString => []
  | String c t => c :: to_list t
  end.

Fixpoint of_list (l : list ascii) : string :=
  match l with
  | [] => EmptyString
  | c :: t => String c (of_list t)
  end.

(** [s.startswith(p)]. *)
Fixpoint starts_with (p s : list ascii) : bool :=
  match p, s with
  | [], _ => true
  | _ :: _, [] => false
  | a :: p', b :: s' => Ascii.eqb a b && starts_with p' s'
  end.

(** [sub in s] on characters. *)
Fixpoint contains_chars (sub s : list ascii) : bool :=
  starts_with sub s ||
  match s with
  | [] => false
  | _ :: t => contains_chars sub t
  end.

(** [s.replace(old, new)] for a non-empty [old]: every non-overlapping
    occurrence, scanning from the left.  [skip] counts the characters of an
    occurrence that was just replaced and that are still to be dropped. *)
Fixpoint replace_chars (old new : list ascii) (skip : nat) (s : list ascii)
    : list ascii :=
  match s with
  | [] => []
  | c :: t =>
    match skip with
    | S k => replace_chars old new k t
    | O => if starts_with old s
           then new ++ replace_chars old new (Nat.pred (length old)) t
           else c :: replace_chars old new 0 t
    end
  end.

Definition contains (sub s : string) : bool :=
  contains_chars (to_list sub) (to_list s).

Definition replace (old new s : string) : string :=
  of_list (replace_chars (to_list old) (to_list new) 0 (to_list s)).

(** [f'{z:d}']. *)
Definition of_int (z : Z) : string :=
  DecimalString.NilZero.string_of_int (Z.to_int z).

(** [sep.join(l)]. *)
Fixpoint join (sep : string) (l : list string) : string :=
  match l with
  | [] => EmptyString
  | [x] => x
  | x :: t => String.append x (String.append sep (join sep t))
  end.

(** [key in keys] for a list of strings. *)
Definition mem (k : string) (l : list string) : bool :=
  existsb (String.eqb k) l.

End Str.

(** ** Python dictionaries

    A dictionary is its entry table: the entries in insertion order, where
    a deleted entry leaves an empty slot ([None]) behind, as in CPython.
    The empty slots matter only to an iterator that is alive while the
    dictionary is mutated (see [step]).  CPython compacts the table when an
    insertion finds it full; the model leaves compaction out, which is exact
    as long as nothing is inserted during an iteration or the table has room
    for what is inserted. *)

Module Dict.

Definition t (V : Type) : Type := list (option (string * V)).

Definition empty {V : Type} : t V := [].

Fixpoint items {V : Type} (d : t V) : list (string * V) :=
  match d with
  | [] => []
  | Some kv :: r => kv :: items r
  | None :: r => items r
  end.

Definition keys {V : Type} (d : t V) : list string := map fst (items d).

Definition len {V : Type} (d : t V) : nat := length (items d).

Fixpoint get {V : Type} (k : string) (d : t V) : option V :=
  match d with
  | [] => None
  | Some (k', v) :: r => if String.eqb k k' then Some v else get k r
  | None :: r => get k r
  end.

Definition mem {V : Type} (k : string) (d : t V) : bool :=
  match get k d with Some _ => true | None => false end.

(** [d[k] = v]: in place when [k] is present, a new entry at the end of the
    table otherwise. *)
Fixpoint set {V : Type} (k : string) (v : V) (d : t V) : t V :=
  match d with
  | [] => [Some (k, v)]
  | Some (k', v') :: r =>
    if String.eqb k k' then Some (k, v) :: r else Some (k', v') :: set k v r
  | None :: r => None :: set k v r
  end.

(** The table after [d.pop(k)] (unchanged when [k] is absent; the caller
    decides whether that is a [KeyError]). *)
Fixpoint remove {V : Type} (k : string) (d : t V) : t V :=
  match d with
  | [] => []
  | Some (k', v') :: r =>
    if String.eqb k k' then None :: r else Some (k', v') :: remove k r
  | None :: r => None :: remove k r
  end.

(** [d.update(other)] and [dict(items)]: assignments in order. *)
Definition update {V : Type} (d : t V) (other : list (string * V)) : t V :=
  fold_left (fun acc kv => set (fst kv) (snd kv) acc) other d.

Definition of_items {V : Type} (l : list (string * V)) : t V :=
  update empty l.

(** The first live entry at table position [pos] or later, with the
    position that follows it. *)
Fixpoint next_from {V : Type} (pos : nat) (d : t V) : option (nat * (string * V)) :=
  match d with
  | [] => None
  | e :: r =>
    match pos with
    | S p =>
      match next_from p r with
      | Some (n, kv) => Some (S n, kv)
      | None => None
      end
    | O =>
      match e with
      | Some kv => Some (1%nat, kv)
      | None =>
        match next_from 0 r with
        | Some (n, kv) => Some (S n, kv)
        | None => None
        end
      end
    end
  end.

End Dict.
(** ** Overlap matcher: [MatchProcessor.generate_matches] *)

Module Match.

(** The matching bookkeeping of a matchable object ([s.is_matched],
    [s.match], [s.match_overlap]).  The Python attribute [match] is a
    keyword here, so the field is [obj_match]. *)
Record obj : Type := {
  is_matched : bool;
  obj_match : list nat;
  match_overlap : list Q
}.

(** [np.where(row)[0]]: the positions of the true entries, increasing. *)
Fixpoint where_from (j : nat) (row : list bool) : list nat :=
  match row with
  | [] => []
  | b :: t => if b then j :: where_from (S j) t else where_from (S j) t
  end.

Definition where_true (row : list bool) : list nat := where_from 0 row.

(** [row[idxs]]: integer-array indexing, [IndexError] when out of bounds. *)
Definition fancy_index (row : list Q) (idxs : list nat) : result (list Q) :=
  mapM (fun j => match nth_error row j with
                 | Some v => Ok v
                 | None => Raise IndexError
                 end) idxs.

(** [np.argsort(vals)] is numpy's: it returns the positions of [vals], each
    once, in an order in which the values ascend.  Its default sorting kind is
    not stable, so the order it gives to the positions of equal values is not
    fixed.  The functions that call it take it as the parameter [argsort], and
    [sorts] is what numpy promises of it. *)
Definition sorts (argsort : list Q -> list nat) : Prop :=
  forall vals,
    Permutation (argsort vals) (seq 0 (length vals)) /\
    StronglySorted (fun p q => (nth p vals 0 <= nth q vals 0)%Q) (argsort vals).

(** One function that [sorts]: an insertion sort, which leaves equal values
    in their original relative order. *)
Fixpoint insert_asc (x : nat * Q) (l : list (nat * Q)) : list (nat * Q) :=
  match l with
  | [] => [x]
  | y :: t => if Qle_bool (snd x) (snd y) then x :: y :: t
              else y :: insert_asc x t
  end.

Fixpoint isort (l : list (nat * Q)) : list (nat * Q) :=
  match l with
  | [] => []
  | x :: t => insert_asc x (isort t)
  end.

Definition enumerate {A : Type} (l : list A) : list (nat * A) :=
  combine (seq 0 (length l)) l.

Definition stable_argsort (vals : list Q) : list nat :=
  map fst (isort (enumerate vals)).

(** [a[perm]] for a permutation [perm] produced by [argsort]. *)
Definition take_at {A : Type} (d : A) (a : list A) (perm : list nat) : list A :=
  map (fun p => nth p a d) perm.

(** The local variable [overlaps] starts as a Python list and is rebound to
    a numpy array by the matched branch ([overlaps = ovl_matrix[i, match_idxs]]). *)
Inductive overlaps_var : Type :=
| OvList (l : list Q)
| OvArray (a : list Q).

(** A pair [(s, t)] holds references: the position of the source object and
    the position of the target object, [None] for Python's [None]. *)
Definition pair_ref : Type := (nat * option nat)%type.

Record locals : Type := {
  pairs : list pair_ref;
  overlaps : overlaps_var
}.

(** The fields assigned by the unmatched branch: [is_matched = False] and
    the two empty arrays [np.empty(0, ...)]. *)
Definition unmatched : obj :=
  {| is_matched := false; obj_match := []; match_overlap := [] |}.

(** The body of [for i, s in enumerate(source_objs)].  It returns the
    source object as the body left it, and the locals or the exception.

    In the matched branch the fields of [s] are assigned first; the next
    statement evaluates [truth_objs[best_idx]], and [truth_objs] is neither a
    parameter ([source_objs, target_objs, prefix, suffix, ovl_matrix,
    ovl_valid]), nor a local, nor a global of the module, so Python raises
    [NameError] there. *)
Definition loop_body (argsort : list Q -> list nat)
    (ovl_matrix : list (list Q)) (ovl_valid : list (list bool))
    (i : nat) (s : obj) (st : locals) : obj * result locals :=
  match nth_error ovl_valid i with
  | None => (s, Raise IndexError)
  | Some vrow =>
    let match_idxs := where_true vrow in
    match match_idxs with
    | [] =>
      let s' := unmatched in
      match overlaps st with
      | OvList l =>
        (s', Ok {| pairs := pairs st ++ [(i, None)];
                   overlaps := OvList (l ++ [(-1)%Q]) |})
      | OvArray _ =>
        (s', Raise (AttributeError "'numpy.ndarray' object has no attribute 'append'"))
      end
    | _ :: _ =>
      match nth_error ovl_matrix i with
      | None => (s, Raise IndexError)
      | Some mrow =>
        match fancy_index mrow match_idxs with
        | Raise e => (s, Raise e)
        | Ok ovl =>
          let perm := rev (argsort ovl) in
          let s' := {| is_matched := true;
                       obj_match := take_at 0%nat match_idxs perm;
                       match_overlap := take_at 0%Q ovl perm |} in
          (s', Raise (NameError "truth_objs"))
        end
      end
    end
  end.

Fixpoint loop (argsort : list Q -> list nat)
    (ovl_matrix : list (list Q)) (ovl_valid : list (list bool))
    (i : nat) (todo : list obj) (st : locals) : list obj * result locals :=
  match todo with
  | [] => ([], Ok st)
  | s :: rest =>
    match loop_body argsort ovl_matrix ovl_valid i s st with
    | (s', Ok st') =>
      let (rest', r) := loop argsort ovl_matrix ovl_valid (S i) rest st' in
      (s' :: rest', r)
    | (s', Raise e) => (s' :: rest, Raise e)
    end
  end.

(** [generate_matches(source_objs, target_objs, prefix, suffix, ovl_matrix,
    ovl_valid)]: the source objects after the call, and the returned
    [(pairs, overlaps)] or the exception. *)
Definition generate_matches (argsort : list Q -> list nat)
    (source_objs target_objs : list obj)
    (prefix suffix : string)
    (ovl_matrix : list (list Q)) (ovl_valid : list (list bool))
    : list obj * result (list pair_ref * overlaps_var) :=
  let (objs, r) := loop argsort ovl_matrix ovl_valid 0 source_objs
                        {| pairs := []; overlaps := OvList [] |} in
  (objs, st <- r ;; Ok (pairs st, overlaps st)).

(** The ranking the matched branch leaves on the source object, as
    (target index, overlap) pairs. *)
Definition ranked (s : obj) : list (nat * Q) :=
  combine (obj_match s) (match_overlap s).

(** Higher or equal overlap first. *)
Definition overlap_descends (a b : nat * Q) : Prop := (snd b <= snd a)%Q.

(** Ascending by value, and by position among equal values. *)
Definition lex_lt (a b : nat * Q) : Prop :=
  (snd a < snd b)%Q \/ ((snd a == snd b)%Q /\ (fst a < fst b)%nat).

(** The order the specification words: higher overlap first; among equal
    overlaps, the original (increasing) target index order. *)
Definition stable_ranks_before (a b : nat * Q) : Prop :=
  (snd b < snd a)%Q \/ ((snd b == snd a)%Q /\ (fst a < fst b)%nat).

(** An object before matching. *)
Definition fresh : obj :=
  {| is_matched := false; obj_match := []; match_overlap := [] |}.

End Match.

(** ** The driver: [SPICEManager] *)

Module Manager.

Local Open Scope string_scope.

(** *** Values that flow through the driver *)

(** Python numbers keep their type: [int] or [float]. *)
Inductive pynum : Type :=
| PInt (z : Z)
| PFloat (q : Q).

Definition to_Q (n : pynum) : Q :=
  match n with
  | PInt z => inject_Z z
  | PFloat q => q
  end.

(** A [np.ndarray]: its shape and its entries in row-major order. *)
Record ndarray : Type := {
  shape : list nat;
  data : list Q
}.

Inductive batch_kind : Type := TensorBatch | IndexBatch | EdgeIndexBatch.

(** Modelled from the spec: the batch containers [TensorBatch],
    [IndexBatch] and [EdgeIndexBatch], which [manager.py] imports from
    [mlreco.data], are "a value plus a per-entry count list"; [to_numpy]
    turns the stored value into its plain array form.  The three classes are
    siblings: an [IndexBatch] is not an instance of [TensorBatch]. *)
Record batch : Type := {
  kind : batch_kind;
  on_numpy : bool;
  payload : list Q;
  counts : list nat
}.

Definition to_numpy_batch (b : batch) : batch :=
  {| kind := kind b; on_numpy := true; payload := payload b; counts := counts b |}.

(** The values found in a batch, in the output of the model and in the
    dictionaries handed to the writer: a scalar ([np.isscalar]), a
    [torch.Tensor], a batch container, a [np.ndarray], a list, [None]. *)
#[warnings="-register-all"]
Inductive value : Type :=
| VScalar (q : Q)
| VTensor (elements : list Q)
| VBatch (b : batch)
| VArray (a : ndarray)
| VList (l : list value)
| VNone.

(** A parameter tensor as stored in a checkpoint: its size ([torch.Size])
    and its entries in row-major order. *)
Record tensor : Type := {
  size : list nat;
  entries : list Q
}.

(** A one-dimensional tensor. *)
Definition flat (qs : list Q) : tensor :=
  {| size := [length qs]; entries := qs |}.

(** [param.shape == input_param.shape]. *)
Definition same_size (a b : tensor) : bool :=
  if list_eq_dec Nat.eq_dec (size a) (size b) then true else false.

(** An optimizer state, as stored in a checkpoint. *)
Definition opt_state : Type := list Q.

(** The record written by [torch.save] in [save_state]. *)
Record checkpoint : Type := {
  global_step : Z;
  state_dict : Dict.t tensor;
  optimizer : opt_state
}.

(** *** The file system seen by [load_weights] and [save_state] *)

Record filesystem : Type := {
  files : list (string * checkpoint);
  directories : list string;
  glob_magic : string -> list string
}.

Fixpoint read_file (path : string) (fl : list (string * checkpoint))
    : option checkpoint :=
  match fl with
  | [] => None
  | (p, c) :: r => if String.eqb path p then Some c else read_file path r
  end.

(** [os.path.isfile]. *)
Definition isfile (fs : filesystem) (path : string) : bool :=
  match read_file path (files fs) with Some _ => true | None => false end.

(** [glob.has_magic]: the pattern holds one of the characters asterisk,
    question mark, opening bracket. *)
Definition has_magic (path : string) : bool :=
  Str.contains "*" path || Str.contains "?" path || Str.contains "[" path.

(** [glob.glob]: a pattern without magic characters expands to itself when
    the path exists and to nothing otherwise; the expansion of a pattern
    with magic characters is given by the file system. *)
Definition glob (fs : filesystem) (path : string) : list string :=
  if has_magic path then glob_magic fs path
  else if isfile fs path || Str.mem path (directories fs) then [path]
  else [].

Definition write_file (path : string) (c : checkpoint) (fs : filesystem)
    : filesystem :=
  {| files := (path, c) :: files fs;
     directories := directories fs;
     glob_magic := glob_magic fs |}.

(** *** Configuration and state of the manager *)

(** The attributes set by [process_main], [process_model] and
    [process_io]. *)
Record config : Type := {
  main_process : bool;
  distributed : bool;
  world_size : nat;
  train : bool;
  iterations : option pynum;
  epochs : option pynum;
  checkpoint_step : Z;
  weight_prefix : string;
  restore_optimizer : bool;
  to_numpy : bool;
  unwrap : bool;
  model_name : string;
  has_loss : bool;
  output_keys : option (list string);
  ignore_keys : option (list string);
  loader_len : nat;
  has_writer : bool
}.

(** The mutable part: the live model's state dictionary
    ([self.model.state_dict()]), the optimizer state and
    [self.start_iteration]. *)
Record mstate : Type := {
  model_state : Dict.t tensor;
  optimizer_state : opt_state;
  start_iteration : Z
}.

Inductive level : Type := Info | Warning | Critical.

Definition logrec : Type := (level * string)%type.

(** Truth value of an optional list: [None] and the empty list are false. *)
Definition truthy (l : option (list string)) : bool :=
  match l with
  | Some (_ :: _) => true
  | _ => false
  end.

(** *** [process_main], [process_model], [process_io] *)

(** The assertion of [process_main] on the iteration and epoch budgets. *)
Definition check_budget (its eps : option pynum) : result unit :=
  match its, eps with
  | Some _, None | None, Some _ => Ok tt
  | _, _ => Raise (AssertionError
                     "Must either specify `iterations` or `epochs` in `trainval`")
  end.

(** The assertion of [process_model] on the output filters. *)
Definition process_model (keep_output ignore : option (list string))
    : result (option (list string) * option (list string)) :=
  if truthy keep_output && truthy ignore
  then Raise (AssertionError
                "Should not specify `keep_output` and `ignore_keys` together.")
  else Ok (keep_output, ignore).

(** [len(self.loader) / self.world_size], a float; [process_main] sets
    [world_size] to [max(1, len(self.gpus))]. *)
Definition iter_per_epoch (len world : nat) : result Q :=
  if Nat.eqb world 0 then Raise ZeroDivisionError
  else Ok (inject_Z (Z.of_nat len) / inject_Z (Z.of_nat world))%Q.

Definition is_zero (q : Q) : bool := Qeq_bool q 0.

(** The budget inference of [process_io]: the pair
    [(self.iterations, self.epochs)] after the call. *)
Definition process_io (len world : nat) (its eps : option pynum)
    : result (pynum * pynum) :=
  ipe <- iter_per_epoch len world ;;
  match its with
  | Some n =>
    if Qlt_le_dec (to_Q n) 0 then Ok (n, PInt 1)
    else if is_zero ipe then Raise ZeroDivisionError
    else Ok (n, PFloat (to_Q n / ipe)%Q)
  | None =>
    match eps with
    | Some e => Ok (PFloat (to_Q e * ipe)%Q, e)
    | None => Raise (TypeError
                "unsupported operand type(s) for *: 'NoneType' and 'float'")
    end
  end.

(** *** [load_weights] *)

(** The names of the live model for which [sd] holds a tensor of another
    size. *)
Definition mismatched (live sd : Dict.t tensor) : list string :=
  map fst (filter (fun kv => match Dict.get (fst kv) sd with
                             | Some new => negb (same_size new (snd kv))
                             | None => false
                             end) (Dict.items live)).

(** What torch raises once it has gone through all the parameters and some
    had another size; of its message, the names are kept. *)
Definition size_mismatch (names : list string) : exn :=
  RuntimeError ("Error(s) in loading state_dict: size mismatch for "
                ++ Str.join ", " names).

(** [self.model.load_state_dict(sd, strict=False)] of torch: every
    parameter of the live model that [sd] provides with the same size is
    overwritten, the others are kept.  When all of them had the same size the
    call returns the keys of [sd] the model does not have (the unexpected
    keys); otherwise it raises, the parameters of the same size having been
    overwritten all the same. *)
Definition load_state_dict (live : Dict.t tensor) (sd : Dict.t tensor)
    : Dict.t tensor * result (list string) :=
  (map (fun e => match e with
                 | Some (name, old) =>
                   match Dict.get name sd with
                   | Some new => if same_size new old then Some (name, new)
                                 else Some (name, old)
                   | None => Some (name, old)
                   end
                 | None => None
                 end) live,
   match mismatched live sd with
   | [] => Ok (filter (fun k => negb (Dict.mem k live)) (Dict.keys sd))
   | _ :: _ => Raise (size_mismatch (mismatched live sd))
   end).

(** The dictionary comprehension
    [{k.replace('module.', ''): v for k, v in state_dict.items()}]. *)
Definition strip_module (sd : Dict.t tensor) : Dict.t tensor :=
  Dict.of_items (map (fun kv => (Str.replace "module." "" (fst kv), snd kv))
                     (Dict.items sd)).

(** The names of the live model missing from the checkpoint, top-level
    case: the pairs [(name, name)]. *)
Definition missing_top (live sd : Dict.t tensor) : list (string * string) :=
  map (fun name => (name, name))
      (filter (fun name => negb (Dict.mem name sd)) (Dict.keys live)).

(** The sub-module case: the rebuilt [state_dict] and the missing pairs
    [(name, key)], looked up in the keys of [checkpoint['state_dict']] as
    stored. *)
Fixpoint remap_submodule (module model_name : string) (stored : Dict.t tensor)
    (names : list string) (sd : Dict.t tensor) (missing : list (string * string))
    : Dict.t tensor * list (string * string) :=
  match names with
  | [] => (sd, missing)
  | name :: rest =>
    if Str.contains module name then
      let key := Str.replace ("." ++ module ++ ".") ("." ++ model_name ++ ".") name in
      match Dict.get key stored with
      | Some v => remap_submodule module model_name stored rest
                                  (Dict.set name v sd) missing
      | None => remap_submodule module model_name stored rest
                                sd (missing ++ [(name, key)])%list
      end
    else remap_submodule module model_name stored rest sd missing
  end.

Definition missing_message (nk : string * string) : logrec :=
  (Critical, "Parameter " ++ snd nk ++ " is missing for " ++ fst nk ++ ".").

(** The printed form of a list of keys. *)
Definition show_keys (l : list string) : string :=
  "[" ++ Str.join ", " (map (fun k => "'" ++ k ++ "'") l) ++ "]".

(** The vocabulary of the specification for a checkpoint that does not
    cover the live model: the dictionary the names are looked up in
    ([stored_keys]), the key a name is looked up under ([stored_name]), the
    names the load requires ([required]) and the required names that are not
    found ([not_covered]). *)
Definition stored_keys (c : config) (top : bool) (ckpt : checkpoint)
    : Dict.t tensor :=
  if top && negb (distributed c) then strip_module (state_dict ckpt)
  else state_dict ckpt.

Definition stored_name (module model_name' : string) (top : bool)
    (name : string) : string :=
  if top then name
  else Str.replace ("." ++ module ++ ".") ("." ++ model_name' ++ ".") name.

Definition required (module : string) (top : bool) (name : string) : bool :=
  top || Str.contains module name.

Definition not_covered (c : config) (module model_name' : string)
    (ckpt : checkpoint) (name : string) : bool :=
  let top := String.eqb module (model_name c) in
  required module top name &&
  negb (Dict.mem (stored_name module model_name' top name)
                 (stored_keys c top ckpt)).

Definition not_found (module model_path : string) : exn :=
  ValueError ("Weight file not found for module " ++ module ++ ": " ++ model_path).

Definition incomplete_weights : exn :=
  ValueError "To be loaded, a set of weights must provide all necessary parameters.".

(** What the body of [for module, model_path, model_name in model_paths]
    leaves: the manager state, the records logged, and whether it went
    through ([Ok]) or raised. *)
Definition load_one (c : config) (fs : filesystem)
    (entry : string * string * string) (m : mstate)
    : mstate * list logrec * result unit :=
  let '(module, model_path, model_name') := entry in
  match read_file model_path (files fs) with
  | None =>
    if negb (train c) && negb (Nat.eqb (length (glob fs model_path)) 0)
    then (m, [], Ok tt)
    else (m, [], Raise (not_found module model_path))
  | Some ckpt =>
    let log0 := [(Info, "Restoring weights for module " ++ module
                        ++ " from " ++ model_path ++ "...")] in
    let sd0 := if distributed c then state_dict ckpt
               else strip_module (state_dict ckpt) in
    let top := String.eqb module (model_name c) in
    let '(sd, missing) :=
      if top then (sd0, missing_top (model_state m) sd0)
      else remap_submodule module model_name' (state_dict ckpt)
                           (Dict.keys (model_state m)) Dict.empty [] in
    match missing with
    | _ :: _ =>
      (m,
       (log0 ++ [(Critical, "These necessary parameters could not be found:")]
             ++ map missing_message missing)%list,
       Raise incomplete_weights)
    | [] =>
      match load_state_dict (model_state m) sd with
      | (live', Raise e) =>
        ({| model_state := live'; optimizer_state := optimizer_state m;
            start_iteration := start_iteration m |},
         log0, Raise e)
      | (live', Ok unexpected) =>
      let log1 :=
        match unexpected with
        | [] => []
        | _ :: _ =>
          [(Warning, "This weight file contains parameters that could not be loaded, indicating that the weight file contains more than needed. This might be ok.");
           (Warning, "Unexpected keys: " ++ show_keys unexpected)]
        end in
      let opt' := if train c && top && restore_optimizer c
                  then optimizer ckpt else optimizer_state m in
      let start' := if top then (global_step ckpt + 1)%Z
                    else start_iteration m in
      ({| model_state := live'; optimizer_state := opt';
          start_iteration := start' |},
       (log0 ++ log1 ++ [(Info, "Done.")])%list,
       Ok tt)
      end
    end
  end.

Fixpoint load_loop (c : config) (fs : filesystem)
    (model_paths : list (string * string * string)) (m : mstate)
    : mstate * list logrec * result unit :=
  match model_paths with
  | [] => (m, [], Ok tt)
  | entry :: rest =>
    match load_one c fs entry m with
    | (m', lg, Ok _) =>
      let '(m'', lg', r) := load_loop c fs rest m' in
      (m'', (lg ++ lg')%list, r)
    | (m', lg, Raise e) => (m', lg, Raise e)
    end
  end.

(** [load_weights], from the list [model_paths] on: the list is the
    full-model entry [(self.model_name, full_model_path, '')] followed by the
    entries found in the module configuration. *)
Definition load_weights (c : config) (fs : filesystem)
    (model_paths : list (string * string * string)) (m : mstate)
    : mstate * list logrec * result unit :=
  let m0 := {| model_state := model_state m;
               optimizer_state := optimizer_state m;
               start_iteration := 0 |} in
  load_loop c fs model_paths m0.

(** *** [save_state] *)

Definition checkpoint_name (prefix : string) (iteration : Z) : string :=
  prefix ++ "-" ++ Str.of_int iteration ++ ".ckpt".

Definition save_state (c : config) (iteration : Z) (m : mstate)
    (fs : filesystem) : result filesystem :=
  if String.eqb (weight_prefix c) ""
  then Raise (AssertionError "Must provide a weight prefix to store them")
  else if negb (train c)
  then Raise (AttributeError "'SPICEManager' object has no attribute 'optimizer'")
  else Ok (write_file (checkpoint_name (weight_prefix c) iteration)
                      {| global_step := iteration;
                         state_dict := model_state m;
                         optimizer := optimizer_state m |} fs).

(** *** [step]: output filtering and casting *)

(** The test that guards [result.pop(key)]. *)
Definition filtered (c : config) (key : string) : bool :=
  (truthy (output_keys c) &&
   negb (Str.mem key (match output_keys c with Some l => l | None => [] end)))
  || (truthy (ignore_keys c) &&
      Str.mem key (match ignore_keys c with Some l => l | None => [] end)).

(** [v.to_numpy()] on an element of a list. *)
Definition element_to_numpy (v : value) : result value :=
  match v with
  | VBatch b => Ok (VBatch (to_numpy_batch b))
  | _ => Raise (AttributeError "object has no attribute 'to_numpy'")
  end.

Definition cannot_cast (key : string) : exn :=
  ValueError ("Cannot cast output " ++ key ++ " to numpy").

(** The [if]/[elif] chain under [if self.to_numpy]: the value stored back
    under [key]. *)
Definition cast_output (key : string) (v : value) : result value :=
  match v with
  | VScalar q => Ok (VScalar q)
  | VTensor [x] => Ok (VScalar x)
  | VBatch b => Ok (VBatch (to_numpy_batch b))
  | VList (VBatch b :: rest) =>
    match kind b with
    | TensorBatch => l <- mapM element_to_numpy (VBatch b :: rest) ;; Ok (VList l)
    | _ => Raise (cannot_cast key)
    end
  | _ => Raise (cannot_cast key)
  end.

(** The body of [for key, value in result.items()]: the dictionary as the
    body left it, and whether it raised.  There is no [continue] after
    [result.pop(key)]: the cast runs on every key and stores its value back
    under [key]. *)
Definition step_body (c : config) (key : string) (v : value) (d : Dict.t value)
    : Dict.t value * result unit :=
  let d1 := if filtered c key then Dict.remove key d else d in
  if to_numpy c then
    match cast_output key v with
    | Ok v' => (Dict.set key v' d1, Ok tt)
    | Raise e => (d1, Raise e)
    end
  else (d1, Ok tt).

(** The [for] loop over the live view [result.items()].  The iterator
    remembers the size [used] of the dictionary when it was created, its
    position [pos] in the entry table and the number [remaining] of entries it
    still expects; each [next] first compares the size, then looks for the
    next live entry. *)
Fixpoint step_loop (c : config) (remaining used pos : nat) (d : Dict.t value)
    : Dict.t value * result unit :=
  if negb (Nat.eqb (Dict.len d) used)
  then (d, Raise (RuntimeError "dictionary changed size during iteration"))
  else
    match Dict.next_from pos d with
    | None => (d, Ok tt)
    | Some (pos', (key, v)) =>
      match remaining with
      | O => (d, Raise (RuntimeError "dictionary keys changed during iteration"))
      | S rem =>
        match step_body c key v d with
        | (d', Ok _) => step_loop c rem used pos' d'
        | (d', Raise e) => (d', Raise e)
        end
      end
    end.

(** [step], given what the model forward and the loss function return:
    the [result] dictionary as the call left it, and the returned dictionary
    or the exception. *)
Definition step (c : config) (forward_out loss_out : Dict.t value)
    : Dict.t value * result (Dict.t value) :=
  let d0 := if has_loss c then Dict.update forward_out (Dict.items loss_out)
            else forward_out in
  if has_loss c && train c && negb (Dict.mem "loss" d0)
  then (d0, Raise (KeyError "loss"))
  else
    match step_loop c (Dict.len d0) (Dict.len d0) 0 d0 with
    | (d, Ok _) => (d, Ok d)
    | (d, Raise e) => (d, Raise e)
    end.

(** *** [write]: the gather of a distributed run *)

(** [np.mean] and [np.sum] of a list of scalars are numpy's: they compute
    in machine arithmetic (a float is rounded, an integer wraps), which is not
    reproduced here.  The functions that call them take them as a parameter. *)
Record numpy : Type := {
  np_mean : list Q -> Q;
  np_sum : list Q -> Q
}.

Definition q_sum (qs : list Q) : Q := fold_right Qplus 0%Q qs.

(** The two functions on inputs where machine arithmetic is exact: the sum
    and the mean as rationals. *)
Definition exact : numpy :=
  {| np_mean := fun qs => Qred (q_sum qs / inject_Z (Z.of_nat (length qs)));
     np_sum := fun qs => Qred (q_sum qs) |}.

Definition first_dim (a : ndarray) : nat := hd 0%nat (shape a).

(** [np.concatenate]: along the first axis; the other dimensions must
    agree. *)
Definition np_concatenate (arrs : list ndarray) : result ndarray :=
  match arrs with
  | [] => Raise (ValueError "need at least one array to concatenate")
  | a0 :: _ =>
    match shape a0 with
    | [] => Raise (ValueError "zero-dimensional arrays cannot be concatenated")
    | _ :: trailing =>
      if forallb (fun a => match shape a with
                           | [] => false
                           | _ :: tl =>
                             if list_eq_dec Nat.eq_dec tl trailing
                             then true else false
                           end) arrs
      then Ok {| shape := fold_right Nat.add 0%nat (map first_dim arrs) :: trailing;
                 data := concat (map data arrs) |}
      else Raise (ValueError "all the input array dimensions except for the concatenation axis must match exactly")
    end
  end.

(** The list filled by [torch.distributed.gather_object]: the values of all
    ranks, in rank order, on the main process; the initial [None]s
    elsewhere. *)
Definition gather_object (main : bool) (per_rank : list value) : list value :=
  if main then per_rank else map (fun _ => VNone) per_rank.

Definition as_scalars (vs : list value) : result (list Q) :=
  mapM (fun v => match v with
                 | VScalar q => Ok q
                 | _ => Raise (Unmodelled "np.mean or np.sum of mixed values")
                 end) vs.

Definition as_arrays (vs : list value) : result (list ndarray) :=
  mapM (fun v => match v with
                 | VArray a => Ok a
                 | _ => Raise (Unmodelled "np.concatenate of mixed values")
                 end) vs.

(** [for d in data_v: data_dict[k].extend(d)] on a [defaultdict(list)]. *)
Fixpoint extend_all (acc : list value) (vs : list value) : result (list value) :=
  match vs with
  | [] => Ok acc
  | VList l :: rest => extend_all (acc ++ l)%list rest
  | _ :: _ => Raise (Unmodelled "list.extend with a value that is not a list")
  end.

(** The merge of the values gathered for key [k] into the aggregated
    dictionary [d]; the branch is chosen by the first gathered value. *)
Definition merge_key (np : numpy) (k : string) (gathered : list value)
    (d : Dict.t value) : result (Dict.t value) :=
  match gathered with
  | [] => Raise IndexError
  | VScalar _ :: _ =>
    qs <- as_scalars gathered ;;
    Ok (Dict.set k (VScalar (if negb (Str.contains "count" k)
                             then np_mean np qs else np_sum np qs)) d)
  | VArray _ :: _ =>
    arrs <- as_arrays gathered ;;
    a <- np_concatenate arrs ;;
    Ok (Dict.set k (VArray a) d)
  | VList _ :: _ =>
    match Dict.get k d with
    | None => l <- extend_all [] gathered ;; Ok (Dict.set k (VList l) d)
    | Some (VList l0) => l <- extend_all l0 gathered ;; Ok (Dict.set k (VList l) d)
    | Some _ => Raise (AttributeError "object has no attribute 'extend'")
    end
  | _ :: _ => Ok d
  end.

(** One of the two loops [for k in data_keys] / [for k in result_keys]:
    [ranks] holds the dictionary of every process, in rank order. *)
Fixpoint aggregate (np : numpy) (main : bool) (ranks : list (Dict.t value))
    (keys : list string) (d : Dict.t value) : result (Dict.t value) :=
  match keys with
  | [] => Ok d
  | k :: rest =>
    per_rank <- mapM (fun r => match Dict.get k r with
                               | Some v => Ok v
                               | None => Raise (KeyError k)
                               end) ranks ;;
    d' <- merge_key np k (gather_object main per_rank) d ;;
    aggregate np main ranks rest d'
  end.

(** [write]: the two dictionaries handed to [self.writer.append].  [rank]
    is the position of this process in [ranks_data] and [ranks_result]. *)
Definition write (np : numpy) (c : config) (rank : nat)
    (ranks_data ranks_result : list (Dict.t value))
    (data_keys result_keys : list string)
    : result (Dict.t value * Dict.t value) :=
  if negb (distributed c)
  then Ok (nth rank ranks_data Dict.empty, nth rank ranks_result Dict.empty)
  else
    data_dict <- aggregate np (main_process c) ranks_data data_keys Dict.empty ;;
    result_dict <- aggregate np (main_process c) ranks_result result_keys
                             Dict.empty ;;
    Ok (data_dict, result_dict).

(** *** [run]: the iteration loop *)

Inductive event : Type :=
| SetEpoch (e : nat)
| TrainStep (iteration : Z)
| SaveState (iteration : Z)
| WriteOut (iteration : Z)
| LogRecord (iteration : Z) (epoch : Q).

(** [((iteration + 1) % self.checkpoint_step) == 0]; Python's [%] takes the
    sign of the divisor, as [Z.modulo] does, and raises on a zero divisor. *)
Definition save_step (iteration cadence : Z) : result bool :=
  if Z.eqb cadence 0 then Raise ZeroDivisionError
  else Ok (Z.eqb ((iteration + 1) mod cadence) 0).

(** The state threaded through the loop: the manager state, the file
    system, the events so far and the iteration counter. *)
Record runstate : Type := {
  rs_state : mstate;
  rs_files : filesystem;
  rs_trace : list event;
  rs_iteration : Z
}.

(** One pass through the body of [for _ in range(n_iterations)].
    [train_step] stands for the forward and backward passes on the manager
    state. *)
Definition iteration_body (c : config) (train_step : Z -> mstate -> mstate)
    (ipe : Q) (st : runstate) : runstate * result unit :=
  let it := rs_iteration st in
  let epoch := (inject_Z it / ipe)%Q in
  let m1 := train_step it (rs_state st) in
  let tr1 := (rs_trace st ++ [TrainStep it])%list in
  let raised e := ({| rs_state := m1; rs_files := rs_files st;
                      rs_trace := tr1; rs_iteration := it |}, Raise e) in
  match save_step it (checkpoint_step c) with
  | Raise e => raised e
  | Ok due =>
    match (if train c && due && main_process c
           then fs' <- save_state c it m1 (rs_files st) ;;
                Ok (fs', [SaveState it])
           else Ok (rs_files st, [])) with
    | Raise e => raised e
    | Ok (fs', saved) =>
      let written := if has_writer c then [WriteOut it] else [] in
      ({| rs_state := m1; rs_files := fs';
          rs_trace := (tr1 ++ saved ++ written ++ [LogRecord it epoch])%list;
          rs_iteration := (it + 1)%Z |}, Ok tt)
    end
  end.

Fixpoint iterate (c : config) (train_step : Z -> mstate -> mstate) (ipe : Q)
    (n : nat) (st : runstate) : runstate * result unit :=
  match n with
  | O => (st, Ok tt)
  | S n' =>
    match iteration_body c train_step ipe st with
    | (st', Ok _) => iterate c train_step ipe n' st'
    | (st', Raise e) => (st', Raise e)
    end
  end.

(** Subtraction of an [int] from a number, and Python's two-argument
    [min(a, b)]: [b] when [b < a], otherwise [a]. *)
Definition sub_int (a : pynum) (z : Z) : pynum :=
  match a with
  | PInt x => PInt (x - z)
  | PFloat q => PFloat (q - inject_Z z)
  end.

Definition py_min (a b : pynum) : pynum :=
  if Qlt_le_dec (to_Q b) (to_Q a) then b else a.

(** [range(n)]: the number of values, or [TypeError] for a float. *)
Definition range_len (n : pynum) : result nat :=
  match n with
  | PInt z => Ok (Z.to_nat z)
  | PFloat _ => Raise (TypeError "'float' object cannot be interpreted as an integer")
  end.

(** [min(self.iterations - e*len(self.loader), len(self.loader))]. *)
Definition n_iterations (its : pynum) (e len : nat) : pynum :=
  py_min (sub_int its (Z.of_nat e * Z.of_nat len)) (PInt (Z.of_nat len)).

Fixpoint epoch_loop (c : config) (train_step : Z -> mstate -> mstate)
    (ipe : Q) (its : pynum) (es : list nat) (st : runstate)
    : runstate * result unit :=
  match es with
  | [] => (st, Ok tt)
  | e :: rest =>
    let st1 := if distributed c
               then {| rs_state := rs_state st; rs_files := rs_files st;
                       rs_trace := (rs_trace st ++ [SetEpoch e])%list;
                       rs_iteration := rs_iteration st |}
               else st in
    match range_len (n_iterations its e (loader_len c)) with
    | Raise ex => (st1, Raise ex)
    | Ok n =>
      match iterate c train_step ipe n st1 with
      | (st2, Ok _) => epoch_loop c train_step ipe its rest st2
      | (st2, Raise ex) => (st2, Raise ex)
      end
    end
  end.

(** [int(np.ceil(self.epochs - iteration / iter_per_epoch))]. *)
Definition num_epochs (eps : pynum) (iteration : Z) (ipe : Q) : Z :=
  Qceiling (to_Q eps - inject_Z iteration / ipe).

(** [run]: the final state with the trace of the calls made, and whether
    the loop completed. *)
Definition run (c : config) (train_step : Z -> mstate -> mstate)
    (m : mstate) (fs : filesystem) : runstate * result unit :=
  let iteration := if train c then start_iteration m else 0%Z in
  let st0 := {| rs_state := m; rs_files := fs; rs_trace := [];
                rs_iteration := iteration |} in
  match iter_per_epoch (loader_len c) (world_size c) with
  | Raise e => (st0, Raise e)
  | Ok ipe =>
    match iterations c, epochs c with
    | Some its, Some eps =>
      if is_zero ipe then (st0, Raise ZeroDivisionError)
      else epoch_loop c train_step ipe its
                      (seq 0 (Z.to_nat (num_epochs eps iteration ipe))) st0
    | _, _ => (st0, Raise (TypeError "unsupported operand type(s): 'NoneType'"))
    end
  end.

(** The iterations the run loop went through. *)
Definition executed (tr : list event) : list Z :=
  flat_map (fun ev => match ev with TrainStep it => [it] | _ => [] end) tr.

Definition saved (tr : list event) : list Z :=
  flat_map (fun ev => match ev with SaveState it => [it] | _ => [] end) tr.

(** Every iteration executed so far was followed by a [save_state], and
    its checkpoint file exists. *)
Definition all_saved (c : config) (st : runstate) : Prop :=
  saved (rs_trace st) = executed (rs_trace st) /\
  Forall (fun it => isfile (rs_files st)
                           (checkpoint_name (weight_prefix c) it) = true)
         (executed (rs_trace st)).

(** [process_io] followed by [run] on the resulting budgets. *)
Definition configure_and_run (c : config) (train_step : Z -> mstate -> mstate)
    (m : mstate) (fs : filesystem) : runstate * result unit :=
  let st0 := {| rs_state := m; rs_files := fs; rs_trace := [];
                rs_iteration := 0 |} in
  match check_budget (iterations c) (epochs c) with
  | Raise e => (st0, Raise e)
  | Ok _ =>
    match process_io (loader_len c) (world_size c) (iterations c) (epochs c) with
    | Raise e => (st0, Raise e)
    | Ok (its, eps) =>
      run {| main_process := main_process c; distributed := distributed c;
             world_size := world_size c; train := train c;
             iterations := Some its; epochs := Some eps;
             checkpoint_step := checkpoint_step c;
             weight_prefix := weight_prefix c;
             restore_optimizer := restore_optimizer c;
             to_numpy := to_numpy c; unwrap := unwrap c;
             model_name := model_name c; has_loss := has_loss c;
             output_keys := output_keys c; ignore_keys := ignore_keys c;
             loader_len := loader_len c; has_writer := has_writer c |}
          train_step m fs
    end
  end.

End Manager.

(** ** Construction of the matching post-processor: [MatchProcessor.__init__]
    and [Matcher.__post_init__] *)

Module MatchSetup.

Local Open Scope string_scope.

(** The fields of the [Matcher] data class. *)
Record matcher : Type := {
  fn : option string;
  match_mode : string;
  overlap_mode : string;
  min_overlap : Q;
  weight_overlap : bool
}.

(** The keyword arguments of a matching configuration block; a field left
    out takes the default of the data class. *)
Record matcher_cfg : Type := {
  cfg_match_mode : option string;
  cfg_overlap_mode : option string;
  cfg_min_overlap : option Q;
  cfg_weight_overlap : option bool
}.

Definition match_modes : list string :=
  ["reco_to_truth"; "truth_to_reco"; "both"; "all"].

Definition overlap_modes : list string := ["count"; "iou"; "dice"; "chamfer"].

Definition default {A : Type} (d : A) (o : option A) : A :=
  match o with Some a => a | None => d end.

(** The fields set by the generated [__init__] of the data class. *)
Definition fields_of (k : matcher_cfg) : matcher :=
  {| fn := None;
     match_mode := default "both" (cfg_match_mode k);
     overlap_mode := default "iou" (cfg_overlap_mode k);
     min_overlap := default 0%Q (cfg_min_overlap k);
     weight_overlap := default false (cfg_weight_overlap k) |}.

Definition invalid_match_mode (m : matcher) : exn :=
  AssertionError ("Invalid matching mode: " ++ match_mode m ++ ". Must be one of "
                  ++ Manager.show_keys match_modes ++ ".").

Definition invalid_overlap_mode (m : matcher) : exn :=
  AssertionError ("Invalid overlap computation mode: " ++ overlap_mode m
                  ++ ". Must be one of " ++ Manager.show_keys overlap_modes ++ ".").

(** [__post_init__]: the two membership assertions, then the assertion
    [not weighted or overlap in ['iou', 'dice']].  Its first operand is the
    name [weighted], which is neither a local nor a global nor an attribute
    access, so evaluating it raises [NameError]; the statements after it are
    never reached. *)
Definition post_init (m : matcher) : result matcher :=
  if negb (Str.mem (match_mode m) match_modes)
  then Raise (invalid_match_mode m)
  else if negb (Str.mem (overlap_mode m) overlap_modes)
  then Raise (invalid_overlap_mode m)
  else Raise (NameError "weighted").

(** The call of [self.Matcher] on the keyword arguments of a block. *)
Definition make_matcher (k : matcher_cfg) : result matcher :=
  post_init (fields_of k).

(** [if block is not None: self.matchers[name] = ...]. *)
Definition add_matcher (name : string) (block : option matcher_cfg)
    (matchers : Dict.t matcher) : result (Dict.t matcher) :=
  match block with
  | None => Ok matchers
  | Some k => m <- make_matcher k ;; Ok (Dict.set name m matchers)
  end.

Definition no_matcher : exn :=
  AssertionError "Must specify one of 'fragments', 'particles' or 'interactions'.".

(** [MatchProcessor.__init__]: the dictionary [self.matchers]. *)
Definition init (fragments particles interactions : option matcher_cfg)
    : result (Dict.t matcher) :=
  m1 <- add_matcher "fragments" fragments Dict.empty ;;
  m2 <- add_matcher "particles" particles m1 ;;
  m3 <- add_matcher "interactions" interactions m2 ;;
  if Nat.eqb (Dict.len m3) 0 then Raise no_matcher else Ok m3.

End MatchSetup.

(** ** The driver: configuration parsing and batch preparation *)

Module Setup.

Import Manager.

Local Open Scope string_scope.

(** What [process_main] derives: [self.world_size], [self.distributed]
    and [self.to_numpy]. *)
Record main_settings : Type := {
  s_world_size : nat;
  s_distributed : bool;
  s_to_numpy : bool
}.

(** [process_main], for the arguments its logic depends on: [gpus] ([None]
    by default), [distributed], the two budgets, [train], whether an
    [optimizer] block is given, [to_numpy] and [unwrap]. *)
Definition process_main (gpus : option (list nat)) (distributed' : bool)
    (its eps : option pynum) (train' : bool) (optimizer_given : bool)
    (to_numpy' unwrap' : bool) : result main_settings :=
  match gpus with
  | None => Raise (TypeError "object of type 'NoneType' has no len()")
  | Some g =>
    let world := Nat.max 1 (length g) in
    let dist := if Nat.ltb 1 world then true else distributed' in
    let numpy := if unwrap' then true else to_numpy' in
    _ <- check_budget its eps ;;
    if train' && negb optimizer_given
    then Raise (AssertionError
                  "Must provide an optimizer configuration block to train")
    else Ok {| s_world_size := world; s_distributed := dist;
               s_to_numpy := numpy |}
  end.

(** [network_input] and [loss_input]: a dictionary from argument name to
    data product name, or (deprecated) a list of data product names. *)
Inductive io_spec : Type :=
| AsDict (d : Dict.t string)
| AsList (l : list string).

(** [{keys[i]: inputs[i] for i in range(len(inputs))}], where [keys] are
    the parameter names of the forward function after [self]. *)
Fixpoint bind_positional (keys inputs : list string) (d : Dict.t string)
    {struct inputs} : result (Dict.t string) :=
  match inputs with
  | [] => Ok d
  | name :: rest =>
    match keys with
    | [] => Raise IndexError
    | k :: keys' => bind_positional keys' rest (Dict.set k name d)
    end
  end.

(** The [self.input_dict] (or [self.loss_dict]) built by [process_model]. *)
Definition input_mapping (keys : list string) (spec : io_spec)
    : result (Dict.t string) :=
  match spec with
  | AsDict d => Ok d
  | AsList l => bind_positional keys l Dict.empty
  end.

(** The writer check of [process_io]: a writer needs [unwrap]. *)
Definition check_writer (writer_given unwrap' : bool) : result bool :=
  if writer_given && negb unwrap'
  then Raise (ValueError "Must set `unwrap` to True when writing to file")
  else Ok writer_given.

(** Modelled from the spec: [TensorBatch.to_tensor] of [mlreco.data], the
    counterpart of [to_numpy]: the stored value in its tensor form. *)
Definition to_tensor_batch (b : batch) : batch :=
  {| kind := kind b; on_numpy := false; payload := payload b; counts := counts b |}.

(** [value = data[name]], converted when it is a [TensorBatch]. *)
Definition fetch (v : value) : value :=
  match v with
  | VBatch b =>
    match kind b with
    | TensorBatch => VBatch (to_tensor_batch b)
    | _ => v
    end
  | _ => v
  end.

(** One of the two loops of [get_data_minibatch]: [what] is the end of the
    assertion message. *)
Fixpoint fetch_all (what : string) (data : Dict.t value)
    (mapping : list (string * string)) (out : Dict.t value)
    : result (Dict.t value) :=
  match mapping with
  | [] => Ok out
  | (param, name) :: rest =>
    match Dict.get name data with
    | None => Raise (AssertionError ("Must provide " ++ name
                       ++ " in the dataloader schema to input into the " ++ what))
    | Some v => fetch_all what data rest (Dict.set param (fetch v) out)
    end
  end.

(** [get_data_minibatch]: the inputs of the forward function and of the
    loss function; [loss_dict] is [None] when no loss input is configured. *)
Definition get_data_minibatch (input_dict : Dict.t string)
    (loss_dict : option (Dict.t string)) (data : Dict.t value)
    : result (Dict.t value * Dict.t value) :=
  inputs <- fetch_all "model forward" data (Dict.items input_dict) Dict.empty ;;
  labels <- match loss_dict with
            | None => Ok Dict.empty
            | Some ld => fetch_all "loss function" data (Dict.items ld) Dict.empty
            end ;;
  Ok (inputs, labels).

End Setup.

(** ** The batch step: vocabulary for its results *)

Module StepSpec.

Import Manager.

(** The dictionary [result] of [step] when the loop over its items starts:
    the output of the model, updated with the output of the loss function when
    a loss is configured. *)
Definition merged_output (c : config) (forward_out loss_out : Dict.t value)
    : Dict.t value :=
  if has_loss c then Dict.update forward_out (Dict.items loss_out)
  else forward_out.

(** The entry table with every live value replaced by its cast. *)
Fixpoint cast_table (d : Dict.t value) : result (Dict.t value) :=
  match d with
  | [] => Ok []
  | None :: r => r' <- cast_table r ;; Ok (None :: r')
  | Some (k, v) :: r =>
    v' <- cast_output k v ;; r' <- cast_table r ;; Ok (Some (k, v') :: r')
  end.

(** No key of the dictionary is to be filtered out. *)
Definition all_kept (c : config) (d : Dict.t value) : Prop :=
  forall k, In k (Dict.keys d) -> filtered c k = false.

End StepSpec.

(** ** The run loop: vocabulary for its traces *)

Module RunSpec.

Import Manager.

(** The iteration numbers [start], [start + 1], ..., [start + n - 1]. *)
Definition consecutive (start : Z) (n : nat) : list Z :=
  map (fun k => (start + Z.of_nat k)%Z) (seq 0 n).

(** The iterations of epoch [e] under an integer budget:
    [min(total - e*len, len)], none when this is negative. *)
Definition epoch_size (total : Z) (len e : nat) : nat :=
  Z.to_nat (Z.min (total - Z.of_nat e * Z.of_nat len) (Z.of_nat len)).

(** The run loop can go through an iteration: the cadence of the
    checkpoints is not zero and there is a prefix to store them under. *)
Definition can_iterate (c : config) : Prop :=
  checkpoint_step c <> 0%Z /\ weight_prefix c <> EmptyString.

(** What [range] raises on a float. *)
Definition float_range : exn :=
  TypeError "'float' object cannot be interpreted as an integer".

(** The run starts at iteration zero: it is an inference run, or no
    checkpoint has set [start_iteration]. *)
Definition fresh_start (c : config) (m : mstate) : Prop :=
  train c = true -> start_iteration m = 0%Z.

End RunSpec.

(** ** The module blocks of the model configuration

    [freeze_weights] and [load_weights] walk the nested dictionaries of
    [self.model_cfg] with the same loop over a list used as a stack. *)

Module Blocks.

Import Manager.

Local Open Scope string_scope.

(** A value of the configuration.  A dictionary is the list of its items in
    insertion order; its keys are distinct, as in any Python dictionary. *)
#[local] Set Warnings "-register-all".

Inductive cfgval : Type :=
| CNone
| CBool (b : bool)
| CNum (n : pynum)
| CStr (s : string)
| CList (l : list cfgval)
| CDict (d : list (string * cfgval)).

Definition cfgdict : Type := list (string * cfgval).

Definition block : Type := (string * cfgval)%type.

(** [d[k]], if present. *)
Fixpoint lookup (k : string) (d : cfgdict) : option cfgval :=
  match d with
  | [] => None
  | (k', v) :: r => if String.eqb k k' then Some v else lookup k r
  end.

(** [d.get(k, default)]. *)
Definition get_default (k : string) (default : cfgval) (d : cfgdict) : cfgval :=
  match lookup k d with
  | Some v => v
  | None => default
  end.

(** [isinstance(v, dict)]. *)
Definition is_dict (v : cfgval) : bool :=
  match v with
  | CDict _ => true
  | _ => false
  end.

(** [bool(v)]. *)
Definition cfg_truthy (v : cfgval) : bool :=
  match v with
  | CNone => false
  | CBool b => b
  | CNum n => negb (is_zero (to_Q n))
  | CStr s => negb (String.eqb s "")
  | CList l => negb (Nat.eqb (length l) 0)
  | CDict d => negb (Nat.eqb (length d) 0)
  end.

(** [v != '']. *)
Definition not_empty_string (v : cfgval) : bool :=
  match v with
  | CStr s => negb (String.eqb s "")
  | _ => true
  end.

(** [type(v).__name__]. *)
Definition type_name (v : cfgval) : string :=
  match v with
  | CNone => "NoneType"
  | CBool _ => "bool"
  | CNum (PInt _) => "int"
  | CNum (PFloat _) => "float"
  | CStr _ => "str"
  | CList _ => "list"
  | CDict _ => "dict"
  end.

(** [f'{v}'] for the values whose printed form is modelled. *)
Definition format_value (v : cfgval) : option string :=
  match v with
  | CNone => Some "None"
  | CBool true => Some "True"
  | CBool false => Some "False"
  | CNum (PInt z) => Some (Str.of_int z)
  | CStr s => Some s
  | _ => None
  end.

(** [l.pop()]: the list without its last element, and that element. *)
Definition pop {A : Type} (l : list A) : option (list A * A) :=
  match rev l with
  | [] => None
  | x :: r => Some (rev r, x)
  end.

(** The items appended by
    [for key in config: if isinstance(config[key], dict): ...]. *)
Definition nested (d : cfgdict) : list block :=
  filter (fun kv => is_dict (snd kv)) d.

(** What [config.get] raises on a value that is not a dictionary. *)
Definition no_get (v : cfgval) : exn :=
  AttributeError ("'" ++ type_name v ++ "' object has no attribute 'get'").

(** The loop [while len(module_items) > 0] shared by the two functions:
    [visit] is what the body does with the block before it appends the nested
    blocks.  [fuel] bounds the number of iterations; [None] is a loop that
    was cut short. *)
Fixpoint walk {St : Type}
    (visit : string -> cfgdict -> St -> St * result unit)
    (fuel : nat) (module_items : list block) (s : St)
    : option (St * result unit) :=
  match fuel with
  | O => None
  | S fuel' =>
    match pop module_items with
    | None => Some (s, Ok tt)
    | Some (rest, (module, config)) =>
      match config with
      | CDict d =>
        match visit module d s with
        | (s', Ok _) => walk visit fuel' (rest ++ nested d)%list s'
        | (s', Raise e) => Some (s', Raise e)
        end
      | _ => Some (s, Raise (no_get config))
      end
    end
  end.

(** *** The weight files to load *)

(** An element of [model_paths]: the module, the path and the name the
    module was stored under. *)
Definition path_entry : Type := (string * cfgval * cfgval)%type.

(** The entries a block contributes: one when it has a [model_path] other
    than the empty string. *)
Definition path_of (module : string) (d : cfgdict) : list path_entry :=
  match lookup "model_path" d with
  | Some p =>
    if not_empty_string p
    then [(module, p, get_default "model_name" (CStr module) d)]
    else []
  | None => []
  end.

Definition note_path (module : string) (d : cfgdict)
    (model_paths : list path_entry) : list path_entry * result unit :=
  ((model_paths ++ path_of module d)%list, Ok tt).

(** The list [model_paths] of [load_weights] when the loop over it
    starts. *)
Definition find_model_paths (c : config) (full_model_path : option string)
    (model_cfg : cfgdict) (fuel : nat)
    : option (list path_entry * result unit) :=
  let model_paths :=
    match full_model_path with
    | Some p => if String.eqb p "" then []
                else [(model_name c, CStr p, CStr "")]
    | None => []
    end in
  walk note_path fuel model_cfg model_paths.

(** *** [freeze_weights] *)

(** What [freeze_weights] reads and writes of [self.model]: the name of its
    class, the sub-modules it has as attributes, the ones that were put in
    evaluation mode (latest last), the named parameters with their
    [requires_grad] flag, and the keys of its state dictionary. *)
Record network : Type := {
  class_name : string;
  attributes : list string;
  evaluating : list string;
  parameters : list (string * bool);
  state_keys : list string
}.

(** The test of the inner loop of [freeze_weights] on a parameter name. *)
Definition to_freeze (module model_name' : string) (keys : list string)
    (name : string) : bool :=
  Str.contains module name &&
  Str.mem (Str.replace ("." ++ module ++ ".") ("." ++ model_name' ++ ".") name)
          keys.

Definition no_attribute (net : network) (module : string) : exn :=
  AttributeError ("'" ++ class_name net ++ "' object has no attribute '"
                  ++ module ++ "'").

Definition nothing_to_freeze (module : string) : exn :=
  AssertionError ("Could not find any weights to freeze for " ++ module).

(** The body of the loop of [freeze_weights] before the nested blocks are
    appended, on the model and the log. *)
Definition freeze_block (module : string) (d : cfgdict)
    (s : network * list logrec) : (network * list logrec) * result unit :=
  let '(net, lg) := s in
  if cfg_truthy (get_default "freeze_weights" (CBool false) d) then
    let model_name' := get_default "model_name" (CStr module) d in
    if Str.mem module (attributes net) then
      let net1 := {| class_name := class_name net;
                     attributes := attributes net;
                     evaluating := (evaluating net ++ [module])%list;
                     parameters := parameters net;
                     state_keys := state_keys net |} in
      match format_value model_name' with
      | Some stored =>
        let hit := to_freeze module stored (state_keys net) in
        let count := length (filter hit (map fst (parameters net))) in
        let net2 := {| class_name := class_name net;
                       attributes := attributes net;
                       evaluating := (evaluating net ++ [module])%list;
                       parameters :=
                         map (fun p => (fst p, if hit (fst p) then false
                                               else snd p))
                             (parameters net);
                       state_keys := state_keys net |} in
        if Nat.eqb count 0
        then ((net2, lg), Raise (nothing_to_freeze module))
        else ((net2,
               (lg ++ [(Info, ("Froze " ++ Str.of_int (Z.of_nat count)
                               ++ " weights in module " ++ module)%string)])%list),
              Ok tt)
      | None =>
        if existsb (Str.contains module) (map fst (parameters net))
        then ((net1, lg), Raise (Unmodelled "printed form of model_name"))
        else ((net1, lg), Raise (nothing_to_freeze module))
      end
    else ((net, lg), Raise (no_attribute net module))
  else ((net, lg), Ok tt).

Definition freeze_weights (model_cfg : cfgdict) (fuel : nat)
    (net : network) : option ((network * list logrec) * result unit) :=
  walk freeze_block fuel model_cfg (net, []).

(** The model [net'] is [net] with more parameters frozen and more
    sub-modules in evaluation mode, and nothing else changed. *)
Definition more_frozen (net net' : network) : Prop :=
  class_name net' = class_name net /\
  attributes net' = attributes net /\
  state_keys net' = state_keys net /\
  incl (evaluating net) (evaluating net') /\
  exists keep : string -> bool,
    parameters net'
    = map (fun p => (fst p, snd p && keep (fst p))) (parameters net).

(** The block asks for its weights to be frozen. *)
Definition frozen (d : cfgdict) : bool :=
  cfg_truthy (get_default "freeze_weights" (CBool false) d).

(** What a block that asks for it gets when its visit goes through. *)
Definition block_frozen (module : string) (d : cfgdict) (net net' : network)
    : Prop :=
  In module (attributes net) /\
  In module (evaluating net') /\
  (exists n, In (n, false) (parameters net') /\ Str.contains module n = true) /\
  (lookup "model_name" d = None ->
   forall n g, In (n, g) (parameters net) ->
               Str.contains module n = true ->
               In n (state_keys net) ->
               In (n, false) (parameters net')).

(** *** The order of the walk *)

(** The blocks below a block, in the order the loop reaches them: the block
    itself, then what is below its nested blocks, the last nested block
    first. *)
Fixpoint below (module : string) (v : cfgval) : list (string * cfgdict) :=
  match v with
  | CDict d =>
    (module, d) ::
    (fix inner (l : cfgdict) : list (string * cfgdict) :=
       match l with
       | [] => []
       | (k, v') :: r => (inner r ++ below k v')%list
       end) d
  | _ => []
  end.

(** The blocks of a configuration in the order the loop reaches them. *)
Fixpoint reached (cfg : cfgdict) : list (string * cfgdict) :=
  match cfg with
  | [] => []
  | (k, v) :: r => (reached r ++ below k v)%list
  end.

(** The visits in a row, up to the first one that raises. *)
Fixpoint visit_all {St : Type}
    (visit : string -> cfgdict -> St -> St * result unit)
    (blocks : list (string * cfgdict)) (s : St) : St * result unit :=
  match blocks with
  | [] => (s, Ok tt)
  | (module, d) :: rest =>
    match visit module d s with
    | (s', Ok _) => visit_all visit rest s'
    | (s', Raise e) => (s', Raise e)
    end
  end.

(** Every value at the top of the configuration is a dictionary. *)
Definition all_blocks (cfg : cfgdict) : Prop :=
  Forall (fun kv => is_dict (snd kv) = true) cfg.

End Blocks.

(** ** The launcher ([spine/main.py])

    The driver and the logger live outside of these files: a driver is seen
    through the calls made on it, and the logger through the function
    [set_level] that stands for [logger.setLevel]. *)

Module Main.

Import Manager.

Local Open Scope string_scope.

(** What the launcher reads of [cfg['base']]. *)
Record base_cfg : Type := {
  verbosity : option string;
  base_world_size : option Z;
  base_distributed : option bool;
  base_train : bool
}.

(** A call made by the launcher: [train_single] with its arguments, or a
    call on the driver of [inference_single]. *)
Inductive launch : Type :=
| TrainSingle (rank : option nat) (distributed : bool) (world_size : option Z)
| LogInfo (msg : string)
| LoadWeights (weight : string)
| InitializeLog
| DriverRun.

(** [s.upper()] on ASCII letters. *)
Definition upper_char (ch : ascii) : ascii :=
  let n := nat_of_ascii ch in
  if Nat.leb 97 n && Nat.leb n 122 then ascii_of_nat (n - 32) else ch.

Definition upper (s : string) : string :=
  Str.of_list (map upper_char (Str.to_list s)).

Definition undistributed : exn :=
  AssertionError "Cannot run process on multiple GPUs without distributing it.".

Definition process_world (set_level : string -> result unit) (base : base_cfg)
    : result (bool * Z) :=
  _ <- set_level (upper (match verbosity base with
                         | Some v => v
                         | None => "info"
                         end)) ;;
  let world_size := match base_world_size base with
                    | Some w => w
                    | None => 0%Z
                    end in
  let distributed := match base_distributed base with
                     | Some d => d
                     | None => Z.ltb 1 world_size
                     end in
  if Z.ltb world_size 2 || distributed
  then Ok (distributed, world_size)
  else Raise undistributed.

Definition newline : string := String (ascii_of_nat 10) "".

(** [sorted] on strings. *)
Fixpoint insert_sorted (x : string) (l : list string) : list string :=
  match l with
  | [] => [x]
  | y :: r => if String.leb x y then x :: y :: r else y :: insert_sorted x r
  end.

Definition sorted (l : list string) : list string :=
  fold_right insert_sorted [] l.

(** [inference_single], from the driver on: [weight_path] is
    [driver.model.weight_path], [None] when there is no model or no path. *)
Definition inference_single (fs : filesystem) (weight_path : option string)
    : list launch :=
  let '(preloaded, weights, lg) :=
    match weight_path with
    | Some p =>
      let preloaded := isfile fs p in
      let weights := sorted (glob fs p) in
      (preloaded, weights,
       if negb preloaded && negb (Nat.eqb (length weights) 0)
       then [LogInfo ("Looping over " ++ Str.of_int (Z.of_nat (length weights))
                      ++ " set of weights:" ++ newline
                      ++ Str.join newline weights)]
       else [])
    | None => (false, [], [])
    end in
  let weights' := match weights with
                  | [] => [None]
                  | _ :: _ => map Some weights
                  end in
  (lg ++ flat_map (fun weight =>
                     match weight with
                     | Some w =>
                       if negb preloaded
                       then [LoadWeights w; InitializeLog; DriverRun]
                       else [DriverRun]
                     | None => [DriverRun]
                     end) weights')%list.

Definition run_single (fs : filesystem) (base : base_cfg)
    (weight_path : option string) : list launch :=
  if base_train base then [TrainSingle None false None]
  else inference_single fs weight_path.

Definition untrained : exn :=
  AssertionError "Must only used distributed execution for training processes.".

Definition too_few_devices (world_size visible_devices : Z) : exn :=
  AssertionError ("The number of GPUs requested for distributed execution ("
                  ++ Str.of_int world_size
                  ++ ") is smaller than the number of visible devices ("
                  ++ Str.of_int visible_devices ++ ").").

(** [run]: the calls it makes, the processes of
    [torch.multiprocessing.spawn] in rank order.  The assertion on
    [torch.cuda.is_available] tests a function object, which is true. *)
Definition run (set_level : string -> result unit) (fs : filesystem)
    (base : base_cfg) (weight_path : option string) (visible_devices : Z)
    : result (list launch) :=
  dw <- process_world set_level base ;;
  let '(distributed, world_size) := dw in
  if negb distributed then Ok (run_single fs base weight_path)
  else if negb (base_train base) then Raise untrained
  else if Z.leb world_size visible_devices
  then Ok (map (fun rank => TrainSingle (Some rank) distributed (Some world_size))
               (seq 0 (Z.to_nat world_size)))
  else Raise (too_few_devices world_size visible_devices).

(** The number of runs of the driver in a list of calls. *)
Definition runs (l : list launch) : nat :=
  length (filter (fun e => match e with DriverRun => true | _ => false end) l).

(** The weights loaded, in order. *)
Definition loaded (l : list launch) : list string :=
  flat_map (fun e => match e with LoadWeights w => [w] | _ => [] end) l.

End Main.

(** ** Sample configurations and inputs *)

Module Samples.

Import Manager.

Local Open Scope string_scope.

(** The configuration of the coordinating process of a four-process run. *)
Definition coordinator : config :=
  {| main_process := true; distributed := true; world_size := 4;
     train := false; iterations := Some (PInt 8); epochs := Some (PFloat 1);
     checkpoint_step := 1; weight_prefix := "weights/snapshot";
     restore_optimizer := false; to_numpy := true; unwrap := true;
     model_name := "full_chain"; has_loss := true;
     output_keys := None; ignore_keys := None;
     loader_len := 32; has_writer := true |}.


(** A single-process training run with the given budgets and checkpoint
    cadence. *)
Definition trainer (its : option pynum) (eps : option pynum) (cadence : Z)
    : config :=
  {| main_process := true; distributed := false; world_size := 1;
     train := true; iterations := its; epochs := eps;
     checkpoint_step := cadence; weight_prefix := "weights/snapshot";
     restore_optimizer := false; to_numpy := true; unwrap := false;
     model_name := "full_chain"; has_loss := true;
     output_keys := None; ignore_keys := None;
     loader_len := 4; has_writer := false |}.

(** An inference run of a single process. *)
Definition inference : config :=
  {| main_process := true; distributed := false; world_size := 1;
     train := false; iterations := Some (PInt (-1)); epochs := Some (PInt 1);
     checkpoint_step := (-1); weight_prefix := "weights/snapshot";
     restore_optimizer := false; to_numpy := true; unwrap := false;
     model_name := "full_chain"; has_loss := false;
     output_keys := None; ignore_keys := None;
     loader_len := 4; has_writer := false |}.

(** An inference step with an allow-list or a deny-list. *)
Definition filtering (numpy : bool) (keep_output ignore : option (list string))
    : config :=
  {| main_process := true; distributed := false; world_size := 1;
     train := false; iterations := Some (PInt 8); epochs := Some (PFloat 2);
     checkpoint_step := (-1); weight_prefix := "weights/snapshot";
     restore_optimizer := false; to_numpy := numpy; unwrap := false;
     model_name := "full_chain"; has_loss := false;
     output_keys := keep_output; ignore_keys := ignore;
     loader_len := 4; has_writer := false |}.

(** A file system with the weight directory and no checkpoint. *)
Definition no_files : filesystem :=
  {| files := []; directories := ["weights"]; glob_magic := fun _ => [] |}.

(** A manager state with a single parameter. *)
Definition blank : mstate :=
  {| model_state := Dict.of_items [("encoder.weight", flat [1 # 2; 3 # 4])];
     optimizer_state := [1 # 100]; start_iteration := 0 |}.

(** A file system with one checkpoint, matched by the pattern
    [weights/snapshot-*.ckpt]. *)
Definition two_snapshots : filesystem :=
  {| files := [("weights/snapshot-9.ckpt",
                {| global_step := 9; state_dict := model_state blank;
                   optimizer := [] |})];
     directories := ["weights"];
     glob_magic := fun p =>
       if String.eqb p "weights/snapshot-*.ckpt"
       then ["weights/snapshot-9.ckpt"] else [] |}.

(** A live model whose state dictionary requires the names a, b and c. *)
Definition abc_model : mstate :=
  {| model_state := Dict.of_items [("a", flat [1 # 1]); ("b", flat [2 # 1]);
                                   ("c", flat [3 # 1])];
     optimizer_state := []; start_iteration := 0 |}.

(** A checkpoint file that provides a and b only. *)
Definition ab_checkpoint : filesystem :=
  {| files := [("weights/ab.ckpt",
                {| global_step := 41;
                   state_dict := Dict.of_items [("a", flat [7 # 1]); ("b", flat [8 # 1])];
                   optimizer := [] |})];
     directories := ["weights"];
     glob_magic := fun _ => [] |}.

(** A model with a parameter whose name contains [module.]. *)
Definition named_model (w1 w2 : tensor) : mstate :=
  {| model_state := Dict.of_items [("encoder.weight", w1);
                                   ("attention_module.weight", w2)];
     optimizer_state := []; start_iteration := 0 |}.

(** A forward result with two scalar outputs. *)
Definition two_outputs : Dict.t value :=
  Dict.of_items [("embeddings", VScalar (1 # 1)); ("segmentation", VScalar (2 # 1))].

End Samples.

(** ** Further sample configurations *)

Module MoreSamples.

Import Manager.

Local Open Scope string_scope.

(** A single-process training run that keeps its outputs as tensors. *)
Definition plain_trainer : config :=
  {| main_process := true; distributed := false; world_size := 1;
     train := true; iterations := Some (PInt 8); epochs := None;
     checkpoint_step := 1; weight_prefix := "weights/snapshot";
     restore_optimizer := false; to_numpy := false; unwrap := false;
     model_name := "full_chain"; has_loss := true;
     output_keys := None; ignore_keys := None;
     loader_len := 4; has_writer := false |}.

(** A model configuration with a block nested in another. *)
Definition chain_cfg : Blocks.cfgdict :=
  [("uresnet",
    Blocks.CDict [("depth", Blocks.CNum (PInt 5));
                  ("model_path", Blocks.CStr "")]);
   ("grappa_shower",
    Blocks.CDict [("freeze_weights", Blocks.CBool true);
                  ("model_path", Blocks.CStr "weights/shower.ckpt");
                  ("gnn_model",
                   Blocks.CDict [("model_path", Blocks.CStr "weights/gnn.ckpt");
                                 ("model_name", Blocks.CStr "gnn")])])].

(** A model whose parameters mention the blocks of [chain_cfg]. *)
Definition chain_net : Blocks.network :=
  {| Blocks.class_name := "FullChain";
     Blocks.attributes := ["uresnet"; "grappa_shower"];
     Blocks.evaluating := [];
     Blocks.parameters := [("uresnet.conv.weight", true);
                           ("grappa_shower.gnn_model.weight", true);
                           ("grappa_shower_extra.bias", true)];
     Blocks.state_keys := ["uresnet.conv.weight";
                           "grappa_shower.gnn_model.weight";
                           "grappa_shower_extra.bias"] |}.

(** A model with a parameter that is frozen from the start. *)
Definition half_frozen_net : Blocks.network :=
  {| Blocks.class_name := "FullChain";
     Blocks.attributes := ["grappa_shower"];
     Blocks.evaluating := [];
     Blocks.parameters := [("uresnet.conv.weight", false);
                           ("grappa_shower.gnn_model.weight", true)];
     Blocks.state_keys := ["uresnet.conv.weight";
                           "grappa_shower.gnn_model.weight"] |}.

(** A model with the parameters of its encoder only. *)
Definition encoder_only_net : Blocks.network :=
  {| Blocks.class_name := "FullChain";
     Blocks.attributes := ["uresnet"; "grappa_shower"];
     Blocks.evaluating := [];
     Blocks.parameters := [("uresnet.conv.weight", true)];
     Blocks.state_keys := ["uresnet.conv.weight"] |}.

(** A process of the four-process run that does not coordinate it. *)
Definition worker : config :=
  {| main_process := false; distributed := true; world_size := 4;
     train := false; iterations := Some (PInt 8); epochs := Some (PFloat 1);
     checkpoint_step := 1; weight_prefix := "weights/snapshot";
     restore_optimizer := false; to_numpy := true; unwrap := true;
     model_name := "full_chain"; has_loss := true;
     output_keys := None; ignore_keys := None;
     loader_len := 32; has_writer := true |}.

(** A file system where the pattern of the snapshots expands to two
    files. *)
Definition two_matches : filesystem :=
  {| files := [("weights/snapshot-9.ckpt",
                {| global_step := 9; state_dict := Dict.empty;
                   optimizer := [] |});
               ("weights/snapshot-19.ckpt",
                {| global_step := 19; state_dict := Dict.empty;
                   optimizer := [] |})];
     directories := ["weights"];
     glob_magic := fun p =>
       if String.eqb p "weights/snapshot-*.ckpt"
       then ["weights/snapshot-9.ckpt"; "weights/snapshot-19.ckpt"] else [] |}.

(** The model of [abc_model] after more training: the same parameters with
    other values. *)
Definition retrained_abc : mstate :=
  {| model_state := Dict.of_items [("a", flat [4 # 1]); ("b", flat [5 # 1]);
                                   ("c", flat [6 # 1])];
     optimizer_state := []; start_iteration := 0 |}.


End MoreSamples.

(** * Properties of the overlap matcher *)

Import Match.

(** *** Facts about [where_true], [fancy_index] and the insertion sort *)

Lemma where_from_bounds (row : list bool) : forall j x,
  In x (where_from j row) -> (j <= x < j + length row)%nat.
Proof.
  induction row as [|b t IH]; intros j x Hin; simpl in *.
  - contradiction.
  - destruct b; simpl in Hin.
    + destruct Hin as [<- | Hin]; [lia | apply IH in Hin; lia].
    + apply IH in Hin; lia.
Qed.

Lemma where_from_increasing (row : list bool) : forall j,
  StronglySorted lt (where_from j row).
Proof.
  induction row as [|b t IH]; intros j; simpl.
  - constructor.
  - destruct b; [|apply IH].
    constructor; [apply IH|].
    apply Forall_forall. intros x Hin. apply where_from_bounds in Hin. lia.
Qed.

Lemma fancy_index_in_range (row : list Q) (idxs : list nat) :
  Forall (fun j => (j < length row)%nat) idxs ->
  fancy_index row idxs = Ok (map (fun j => nth j row 0%Q) idxs).
Proof.
  unfold fancy_index.
  induction 1 as [|j t Hj _ IH]; simpl; [reflexivity|].
  destruct (nth_error row j) as [v|] eqn:E.
  - simpl. rewrite IH. simpl.
    now rewrite (nth_error_nth _ _ _ E).
  - apply nth_error_None in E. lia.
Qed.

Lemma insert_asc_In (x : nat * Q) (l : list (nat * Q)) (w : nat * Q) :
  In w (insert_asc x l) <-> w = x \/ In w l.
Proof.
  induction l as [|y t IH]; simpl.
  - intuition.
  - destruct (Qle_bool (snd x) (snd y)); simpl; [intuition|].
    rewrite IH. intuition.
Qed.

Lemma insert_asc_perm (x : nat * Q) (l : list (nat * Q)) :
  Permutation (insert_asc x l) (x :: l).
Proof.
  induction l as [|y t IH]; simpl; [reflexivity|].
  destruct (Qle_bool (snd x) (snd y)); [reflexivity|].
  rewrite IH. apply perm_swap.
Qed.

Lemma isort_perm (l : list (nat * Q)) : Permutation (isort l) l.
Proof.
  induction l as [|x t IH]; simpl; [reflexivity|].
  rewrite insert_asc_perm. now constructor.
Qed.

Lemma lex_lt_le (a b : nat * Q) : lex_lt a b -> (snd a <= snd b)%Q.
Proof.
  intros [H | [H _]]; [now apply Qlt_le_weak | rewrite H; apply Qle_refl].
Qed.

Lemma insert_asc_sorted (x : nat * Q) (l : list (nat * Q)) :
  StronglySorted lex_lt l ->
  Forall (fun y => (fst x < fst y)%nat) l ->
  StronglySorted lex_lt (insert_asc x l).
Proof.
  induction 1 as [|y t Hs IH Hy]; intros Hpos; simpl.
  - repeat constructor.
  - inversion Hpos as [|? ? Hxy Hxt]; subst.
    destruct (Qle_bool (snd x) (snd y)) eqn:E.
    + apply Qle_bool_iff in E.
      constructor; [now constructor|].
      assert (Hall : forall z, In z (y :: t) -> (snd y <= snd z)%Q).
      { intros z [<- | Hz]; [apply Qle_refl|].
        apply lex_lt_le. rewrite Forall_forall in Hy. now apply Hy. }
      apply Forall_forall. intros z Hz.
      assert (Hle : (snd x <= snd z)%Q)
        by (eapply Qle_trans; [exact E | now apply Hall]).
      assert (Hp : (fst x < fst z)%nat)
        by (rewrite Forall_forall in Hpos; now apply Hpos).
      destruct (Qle_lt_or_eq _ _ Hle) as [Hlt | Heq]; [now left | now right].
    + constructor; [now apply IH|].
      apply Forall_forall. intros z Hz. apply insert_asc_In in Hz.
      destruct Hz as [-> | Hz].
      * left. apply Qnot_le_lt. intros Hle.
        apply Qle_bool_iff in Hle. congruence.
      * rewrite Forall_forall in Hy. now apply Hy.
Qed.

Lemma isort_sorted (l : list (nat * Q)) :
  StronglySorted (fun a b => (fst a < fst b)%nat) l ->
  StronglySorted lex_lt (isort l).
Proof.
  induction 1 as [|x t Hs IH Hx]; simpl; [constructor|].
  apply insert_asc_sorted; [exact IH|].
  apply Forall_forall. intros y Hy.
  apply (Permutation_in _ (isort_perm t)) in Hy.
  rewrite Forall_forall in Hx. now apply Hx.
Qed.

Lemma enumerate_from_increasing {A : Type} (l : list A) : forall k,
  StronglySorted (fun a b : nat * A => (fst a < fst b)%nat)
                 (combine (seq k (length l)) l).
Proof.
  induction l as [|x t IH]; intros k; simpl; constructor; [apply IH|].
  apply Forall_forall. intros [p v] Hin. apply in_combine_l in Hin.
  apply in_seq in Hin. simpl. lia.
Qed.

Lemma enumerate_from_nth {A : Type} (d : A) (l : list A) : forall k p v,
  In (p, v) (combine (seq k (length l)) l) ->
  (k <= p < k + length l)%nat /\ nth (p - k) l d = v.
Proof.
  induction l as [|x t IH]; intros k p v Hin; simpl in *; [contradiction|].
  destruct Hin as [Heq | Hin].
  - inversion Heq; subst. rewrite Nat.sub_diag. split; [lia | reflexivity].
  - apply IH in Hin. destruct Hin as [Hr Hn]. split; [lia|].
    replace (p - k)%nat with (S (p - S k)) by lia. exact Hn.
Qed.

Lemma enumerate_nth {A : Type} (d : A) (l : list A) (p : nat) (v : A) :
  In (p, v) (enumerate l) -> (p < length l)%nat /\ nth p l d = v.
Proof.
  intros Hin. apply (enumerate_from_nth d) in Hin.
  rewrite Nat.sub_0_r in Hin. split; [lia | apply Hin].
Qed.

Lemma combine_map_same {A B C : Type} (f : A -> B) (h : A -> C) (l : list A) :
  combine (map f l) (map h l) = map (fun a => (f a, h a)) l.
Proof.
  induction l as [|a t IH]; simpl; [reflexivity | now rewrite IH].
Qed.

Lemma StronglySorted_app {A : Type} (R : A -> A -> Prop) (l1 l2 : list A) :
  StronglySorted R l1 -> StronglySorted R l2 ->
  (forall a b, In a l1 -> In b l2 -> R a b) ->
  StronglySorted R (l1 ++ l2).
Proof.
  induction 1 as [|x t Hs IH Hx]; intros H2 Hc; simpl; [exact H2|].
  constructor.
  - apply IH; [exact H2|]. intros a b Ha Hb. apply Hc; [now right | exact Hb].
  - apply Forall_forall. intros z Hz. apply in_app_or in Hz.
    destruct Hz as [Hz | Hz].
    + rewrite Forall_forall in Hx. now apply Hx.
    + apply Hc; [now left | exact Hz].
Qed.

Lemma StronglySorted_rev {A : Type} (R : A -> A -> Prop) (l : list A) :
  StronglySorted R l -> StronglySorted (fun a b => R b a) (rev l).
Proof.
  induction 1 as [|x t Hs IH Hx]; simpl; [constructor|].
  apply StronglySorted_app; [exact IH | repeat constructor |].
  intros a b Ha [<- | []]. apply in_rev in Ha.
  rewrite Forall_forall in Hx. now apply Hx.
Qed.

Lemma StronglySorted_map_in {A B : Type} (R : A -> A -> Prop)
    (R' : B -> B -> Prop) (g : A -> B) (l : list A) :
  StronglySorted R l ->
  (forall a b, In a l -> In b l -> R a b -> R' (g a) (g b)) ->
  StronglySorted R' (map g l).
Proof.
  induction 1 as [|x t Hs IH Hx]; intros Hg; simpl; constructor.
  - apply IH. intros a b Ha Hb. apply Hg; now right.
  - apply Forall_forall. intros z Hz. apply in_map_iff in Hz.
    destruct Hz as [w [<- Hw]]. rewrite Forall_forall in Hx.
    apply Hg; [now left | now right | now apply Hx].
Qed.

Lemma map_fst_combine {A B : Type} (a : list A) (b : list B) :
  length a = length b -> map fst (combine a b) = a.
Proof.
  revert b. induction a as [|x t IH]; intros [|y b] H; simpl in *;
    try discriminate; [reflexivity|].
  f_equal. apply IH. lia.
Qed.

(** The insertion sort is one of the functions [np.argsort] may be. *)
Lemma sorts_stable : sorts stable_argsort.
Proof.
  intros vals. unfold stable_argsort.
  assert (HL : forall pv, In pv (isort (enumerate vals)) ->
            nth (fst pv) vals 0%Q = snd pv).
  { intros [p v] Hin. apply (Permutation_in _ (isort_perm _)) in Hin.
    now apply enumerate_nth. }
  split.
  - rewrite (Permutation_map fst (isort_perm (enumerate vals))).
    unfold enumerate. rewrite map_fst_combine by apply length_seq.
    reflexivity.
  - apply (StronglySorted_map_in lex_lt).
    + apply isort_sorted, enumerate_from_increasing.
    + intros a b Ha Hb Hab. rewrite (HL a Ha), (HL b Hb).
      now apply lex_lt_le.
Qed.

Lemma combine_nth_seq {A B : Type} (da : A) (db : B) (la : list A) (lb : list B) :
  length la = length lb ->
  map (fun p => (nth p la da, nth p lb db)) (seq 0 (length lb)) = combine la lb.
Proof.
  intros Hlen.
  apply (nth_ext _ _ (nth 0 la da, nth 0 lb db) (da, db)).
  - rewrite length_map, length_seq, length_combine, Hlen. now rewrite Nat.min_id.
  - intros n Hn. rewrite length_map, length_seq in Hn.
    rewrite (map_nth (fun p => (nth p la da, nth p lb db)) (seq 0 (length lb)) 0%nat n).
    rewrite seq_nth by exact Hn. cbn [Nat.add].
    now rewrite combine_nth.
Qed.

(** The ranking computed by the matched branch from the valid target
    indices [idxs] and their overlaps [ovl]. *)
Lemma ranking_spec (argsort : list Q -> list nat) (idxs : list nat)
    (ovl : list Q) :
  sorts argsort ->
  length idxs = length ovl ->
  let perm := rev (argsort ovl) in
  let r := combine (take_at 0%nat idxs perm) (take_at 0%Q ovl perm) in
  Permutation r (combine idxs ovl) /\ StronglySorted overlap_descends r.
Proof.
  intros Hsorts Hlen perm r.
  destruct (Hsorts ovl) as [Hperm Hsorted].
  set (g := fun p : nat => (nth p idxs 0%nat, nth p ovl 0%Q)).
  assert (Hr : r = map g (rev (argsort ovl))).
  { unfold r, perm, take_at. now rewrite combine_map_same. }
  rewrite Hr. split.
  - rewrite <- (Permutation_rev (argsort ovl)).
    rewrite (Permutation_map g Hperm).
    unfold g. now rewrite combine_nth_seq.
  - apply (StronglySorted_map_in
             (fun p q => (nth q ovl 0 <= nth p ovl 0)%Q)).
    + apply (StronglySorted_rev
               (fun p q => (nth p ovl 0 <= nth q ovl 0)%Q)). exact Hsorted.
    + intros a b _ _ Hab. exact Hab.
Qed.

(** A single value has one position. *)
Lemma argsort_single (argsort : list Q -> list nat) (q : Q) :
  sorts argsort -> argsort [q] = [0%nat].
Proof.
  intros Hsorts. destruct (Hsorts [q]) as [Hperm _]. cbn in Hperm.
  apply Permutation_sym, Permutation_length_1_inv in Hperm. exact Hperm.
Qed.

(** *** The loop body and the whole function *)

Lemma where_true_in_range (vrow : list bool) (n : nat) :
  (length vrow <= n)%nat -> Forall (fun j => (j < n)%nat) (where_true vrow).
Proof.
  intros Hn. apply Forall_forall. intros j Hj.
  apply where_from_bounds in Hj. lia.
Qed.

(** C1 (amended): when the loop body runs on a source object with at least
    one valid target, it marks the object as matched and stores on it the
    valid targets with their overlaps, ranked by non-increasing overlap,
    whatever order [np.argsort] gives to equal overlaps. *)
Theorem matched_branch_ranking (argsort : list Q -> list nat)
    (ovl_matrix : list (list Q))
    (ovl_valid : list (list bool)) (i : nat) (s : obj) (st : locals)
    (vrow : list bool) (mrow : list Q) :
  sorts argsort ->
  nth_error ovl_valid i = Some vrow ->
  nth_error ovl_matrix i = Some mrow ->
  length vrow = length mrow ->
  where_true vrow <> [] ->
  let s' := fst (loop_body argsort ovl_matrix ovl_valid i s st) in
  is_matched s' = true /\
  length (obj_match s') = length (match_overlap s') /\
  Permutation (ranked s')
              (map (fun j => (j, nth j mrow 0%Q)) (where_true vrow)) /\
  StronglySorted overlap_descends (ranked s').
Proof.
  intros Hsorts Hv Hm Hlen Hne. unfold loop_body. rewrite Hv.
  destruct (where_true vrow) as [|j0 js] eqn:Hw; [congruence|].
  rewrite Hm, <- Hw.
  rewrite fancy_index_in_range
    by (apply where_true_in_range; rewrite Hlen; apply Nat.le_refl).
  cbn [fst is_matched obj_match match_overlap ranked].
  set (idxs := where_true vrow).
  set (ovl := map (fun j => nth j mrow 0%Q) idxs).
  assert (Hl : length idxs = length ovl) by (unfold ovl; now rewrite length_map).
  destruct (ranking_spec argsort idxs ovl Hsorts Hl) as [Hp Hs].
  repeat split.
  - unfold take_at. now rewrite !length_map.
  - unfold ranked. cbn [obj_match match_overlap].
    rewrite Hp. unfold ovl.
    rewrite <- (map_id idxs) at 1. now rewrite combine_map_same.
  - exact Hs.
Qed.

Lemma matched_branch_ranking_witness :
  let s' := fst (loop_body stable_argsort
                           [[1#2; 0; 1#2; 3#4]] [[true; false; true; true]]
                           0 fresh {| pairs := []; overlaps := OvList [] |}) in
  hd 0%nat (obj_match s') = 3%nat /\
  (is_matched s' = true /\
   length (obj_match s') = length (match_overlap s') /\
   Permutation (ranked s')
               (map (fun j => (j, nth j [1#2; 0; 1#2; 3#4] 0%Q))
                    (where_true [true; false; true; true])) /\
   StronglySorted overlap_descends (ranked s')).
Proof.
  split; [reflexivity|].
  apply (matched_branch_ranking stable_argsort
           [[1#2; 0; 1#2; 3#4]] [[true; false; true; true]]
           0%nat fresh {| pairs := []; overlaps := OvList [] |}
           [true; false; true; true] [1#2; 0; 1#2; 3#4]);
    [exact sorts_stable | reflexivity | reflexivity | reflexivity | discriminate].
Defined.

(** C1, the tie of the specification: two targets both scoring 1/2 against
    one source.  [np.argsort] does not promise an order for equal values; a
    sort that leaves them in their original order is among the sorts it may
    run, and with it the stored ranking is [1; 0], which is not in the order
    the claim words (original target order among equal overlaps), and the call
    ends in [NameError] instead of returning a best-match pair. *)
Lemma tie_break_counterexample :
  sorts stable_argsort /\
  exists s',
    generate_matches stable_argsort [fresh] [fresh; fresh] "" ""
                     [[1#2; 1#2]] [[true; true]]
      = ([s'], Raise (NameError "truth_objs")) /\
    obj_match s' = [1; 0]%nat /\
    ~ StronglySorted stable_ranks_before (ranked s').
Proof.
  split; [exact sorts_stable|].
  eexists. split; [reflexivity|]. split; [reflexivity|].
  intros H. inversion H as [|a l Hs Hf]; subst.
  inversion Hf as [|b l' Hr _]; subst.
  destruct Hr as [Hlt | [_ Hlt]]; simpl in Hlt.
  - apply Qlt_irrefl in Hlt. exact Hlt.
  - lia.
Qed.

(** When no source has a valid target the function returns, for every
    source, the pair [(source, None)] and the overlap [-1]. *)
Lemma loop_all_unmatched (argsort : list Q -> list nat)
    (ovl_matrix : list (list Q)) (todo : list obj) :
  forall (ovl_valid : list (list bool)) (i : nat) (ps : list pair_ref) (os : list Q),
  (forall k, (k < length todo)%nat ->
     exists row, nth_error ovl_valid (i + k) = Some row /\ where_true row = []) ->
  loop argsort ovl_matrix ovl_valid i todo {| pairs := ps; overlaps := OvList os |}
  = (map (fun _ => unmatched) todo,
     Ok {| pairs := ps ++ map (fun k => (k, None)) (seq i (length todo));
           overlaps := OvList (os ++ repeat (-1)%Q (length todo)) |}).
Proof.
  induction todo as [|s rest IH]; intros ovl_valid i ps os Hrows; simpl.
  - now rewrite !app_nil_r.
  - destruct (Hrows 0%nat) as [row [Hrow Hw]]; [simpl; lia|].
    rewrite Nat.add_0_r in Hrow. unfold loop_body. rewrite Hrow, Hw. simpl.
    rewrite IH.
    + now rewrite <- !app_assoc.
    + intros k Hk. destruct (Hrows (S k)) as [row' Hrow']; [simpl; lia|].
      exists row'. now rewrite Nat.add_succ_l, <- Nat.add_succ_r.
Qed.

(** X3: when no source has a valid target, [generate_matches] returns one
    pair [(source, None)] and one overlap [-1] per source, in source order,
    and leaves every source unmatched with empty match lists. *)
Lemma generate_matches_all_unmatched (argsort : list Q -> list nat)
    (source_objs target_objs : list obj)
    (prefix suffix : string) (ovl_matrix : list (list Q))
    (ovl_valid : list (list bool)) :
  length ovl_valid = length source_objs ->
  Forall (fun row => where_true row = []) ovl_valid ->
  generate_matches argsort source_objs target_objs prefix suffix
                   ovl_matrix ovl_valid
  = (map (fun _ => unmatched) source_objs,
     Ok (map (fun k => (k, None)) (seq 0 (length source_objs)),
         OvList (repeat (-1)%Q (length source_objs)))).
Proof.
  intros Hlen Hall. unfold generate_matches.
  rewrite loop_all_unmatched; [reflexivity|].
  intros k Hk. simpl. rewrite <- Hlen in Hk.
  destruct (nth_error ovl_valid k) as [row|] eqn:E.
  - exists row. split; [reflexivity|].
    rewrite Forall_forall in Hall. apply Hall. eapply nth_error_In, E.
  - apply nth_error_None in E. lia.
Qed.

(** The matched branch raises once it has stored the ranking. *)
Lemma matched_branch_raises (argsort : list Q -> list nat)
    (ovl_matrix : list (list Q))
    (ovl_valid : list (list bool)) (i : nat) (s : obj) (st : locals)
    (vrow : list bool) (mrow : list Q) :
  nth_error ovl_valid i = Some vrow ->
  nth_error ovl_matrix i = Some mrow ->
  length vrow = length mrow ->
  where_true vrow <> [] ->
  snd (loop_body argsort ovl_matrix ovl_valid i s st)
  = Raise (NameError "truth_objs").
Proof.
  intros Hv Hm Hlen Hne. unfold loop_body. rewrite Hv.
  destruct (where_true vrow) as [|j0 js] eqn:Hw; [congruence|].
  rewrite Hm, <- Hw.
  rewrite fancy_index_in_range
    by (apply where_true_in_range; rewrite Hlen; apply Nat.le_refl).
  reflexivity.
Qed.

(** The whole function stops at the first source that has a valid target:
    the sources before it are left unmatched, that source carries its
    ranking, the sources after it are not touched, and nothing is returned. *)
Lemma stops_at_first_matched (argsort : list Q -> list nat)
    (ovl_matrix : list (list Q))
    (ovl_valid : list (list bool)) (before : list obj) :
  forall (i : nat) (st : locals) (s : obj) (after : list obj)
         (vrow : list bool) (mrow : list Q),
  (exists l, overlaps st = OvList l) ->
  (forall k, (k < length before)%nat ->
     exists row, nth_error ovl_valid (i + k) = Some row /\ where_true row = []) ->
  nth_error ovl_valid (i + length before) = Some vrow ->
  nth_error ovl_matrix (i + length before) = Some mrow ->
  length vrow = length mrow ->
  where_true vrow <> [] ->
  exists st',
    loop argsort ovl_matrix ovl_valid i (before ++ s :: after) st
    = (map (fun _ => unmatched) before
         ++ fst (loop_body argsort ovl_matrix ovl_valid (i + length before) s st')
         :: after,
       Raise (NameError "truth_objs")).
Proof.
  induction before as [|b rest IH];
    intros i st s after vrow mrow Hst Hrows Hv Hm Hlen Hne.
  - simpl in *. rewrite Nat.add_0_r in *. exists st.
    pose proof (matched_branch_raises argsort ovl_matrix ovl_valid i s st
                  vrow mrow Hv Hm Hlen Hne) as Hr.
    destruct (loop_body argsort ovl_matrix ovl_valid i s st) as [s' r].
    simpl in Hr. subst r. reflexivity.
  - destruct (Hrows 0%nat) as [row [Hrow Hw]]; [simpl; lia|].
    rewrite Nat.add_0_r in Hrow. destruct Hst as [l Hl].
    cbn [app loop]. unfold loop_body at 1. rewrite Hrow, Hw, Hl.
    simpl length in Hv, Hm. rewrite <- Nat.add_succ_comm in Hv, Hm.
    destruct (IH (S i) {| pairs := pairs st ++ [(i, None)];
                          overlaps := OvList (l ++ [(-1)%Q]) |}
                 s after vrow mrow) as [st' Hloop]; auto.
    + now exists (l ++ [(-1)%Q]).
    + intros k Hk. destruct (Hrows (S k)) as [row' Hrow']; [simpl; lia|].
      exists row'. now rewrite Nat.add_succ_l, <- Nat.add_succ_r.
    + rewrite Hloop. exists st'. simpl.
      now rewrite <- Nat.add_succ_comm.
Qed.

(** C2, the defect: a source with a valid target comes before a source with
    none.  The call raises at the first source; the second source is never
    reached, keeps its stale [is_matched = True], and no pair list is
    returned. *)
Lemma unmatched_source_not_reached (argsort : list Q -> list nat) :
  sorts argsort ->
  let stale := {| is_matched := true; obj_match := [7]%nat; match_overlap := [1#3] |} in
  where_true [false] = [] /\
  generate_matches argsort [fresh; stale] [fresh] "" "" [[1#2]; [0]] [[true]; [false]]
  = ([ {| is_matched := true; obj_match := [0]%nat; match_overlap := [1#2] |}; stale ],
     Raise (NameError "truth_objs")).
Proof.
  intros Hsorts stale. split; [reflexivity|].
  unfold generate_matches. cbn [loop loop_body nth_error where_true where_from
                                 fancy_index mapM bind].
  rewrite (argsort_single argsort (1#2) Hsorts). reflexivity.
Qed.

Lemma unmatched_source_not_reached_witness :
  generate_matches stable_argsort
    [fresh; {| is_matched := true; obj_match := [7]%nat; match_overlap := [1#3] |}]
    [fresh] "" "" [[1#2]; [0]] [[true]; [false]]
  = ([ {| is_matched := true; obj_match := [0]%nat; match_overlap := [1#2] |};
       {| is_matched := true; obj_match := [7]%nat; match_overlap := [1#3] |} ],
     Raise (NameError "truth_objs")).
Proof.
  exact (proj2 (unmatched_source_not_reached stable_argsort sorts_stable)).
Defined.

(** * Properties of the driver *)

Import Manager.
Import Samples.

Local Open Scope string_scope.

(** ** The distributed gather of [write] *)




Lemma exact_mean_spec (qs : list Q) :
  (np_mean exact qs == q_sum qs / inject_Z (Z.of_nat (length qs)))%Q.
Proof. cbn [exact np_mean]. apply Qred_correct. Qed.

Lemma exact_sum_spec (qs : list Q) : (np_sum exact qs == q_sum qs)%Q.
Proof. cbn [exact np_sum]. apply Qred_correct. Qed.



(** ** The output normalizer of [step] *)

Lemma to_numpy_all (bs : list batch) :
  mapM element_to_numpy (map VBatch bs)
  = Ok (map (fun b => VBatch (to_numpy_batch b)) bs).
Proof.
  induction bs as [|b t IH]; simpl; [reflexivity|].
  rewrite IH. reflexivity.
Qed.

(** C9: with the cast to numpy enabled, the loop body of [step] rejects an
    empty list with "Cannot cast output <key> to numpy", whatever the filters
    and the rest of the dictionary; the list branch accepts a list only when
    it is non-empty and its first element is a [TensorBatch]; and every
    non-empty list of [TensorBatch] containers is accepted. *)
Theorem empty_list_rejected (c : config) (key : string) (d : Dict.t value) :
  to_numpy c = true ->
  snd (step_body c key (VList []) d)
    = Raise (ValueError ("Cannot cast output " ++ key ++ " to numpy")) /\
  (forall l v, cast_output key (VList l) = Ok v ->
     exists b rest, l = VBatch b :: rest /\ kind b = TensorBatch) /\
  (forall b bs, kind b = TensorBatch ->
     cast_output key (VList (map VBatch (b :: bs)))
     = Ok (VList (map (fun x => VBatch (to_numpy_batch x)) (b :: bs)))).
Proof.
  intros Hnp. split; [|split].
  - unfold step_body. rewrite Hnp. reflexivity.
  - intros l v H. destruct l as [|[q|e|b|a|l'|] rest]; try discriminate.
    simpl in H. destruct (kind b) eqn:Hk; try discriminate.
    now exists b, rest.
  - intros b bs Hk. cbn [map cast_output]. rewrite Hk.
    change (VBatch b :: map VBatch bs) with (map VBatch (b :: bs)).
    rewrite to_numpy_all. reflexivity.
Qed.

Lemma empty_list_rejected_witness :
  snd (step_body coordinator "clusts" (VList [])
         (Dict.of_items [("clusts", VList [])]))
    = Raise (ValueError "Cannot cast output clusts to numpy") /\
  fst (step coordinator (Dict.of_items [("clusts", VList [])]) Dict.empty)
    = Dict.of_items [("clusts", VList [])] /\
  snd (step coordinator (Dict.of_items [("clusts", VList [])]) Dict.empty)
    = Raise (ValueError "Cannot cast output clusts to numpy").
Proof.
  split; [|split; reflexivity].
  exact (proj1 (empty_list_rejected coordinator "clusts"
                  (Dict.of_items [("clusts", VList [])]) eq_refl)).
Defined.

(** ** The run loop *)

Lemma executed_app (a b : list event) :
  executed (a ++ b) = (executed a ++ executed b)%list.
Proof. apply flat_map_app. Qed.

Lemma saved_app (a b : list event) :
  saved (a ++ b) = (saved a ++ saved b)%list.
Proof. apply flat_map_app. Qed.

Lemma isfile_write_same (path : string) (ck : checkpoint) (fs : filesystem) :
  isfile (write_file path ck fs) path = true.
Proof. unfold isfile, write_file. simpl. now rewrite String.eqb_refl. Qed.

Lemma isfile_write_keep (path other : string) (ck : checkpoint) (fs : filesystem) :
  isfile fs other = true -> isfile (write_file path ck fs) other = true.
Proof.
  unfold isfile, write_file. simpl. intros H.
  destruct (String.eqb other path); [reflexivity | exact H].
Qed.

Lemma save_step_default (it : Z) : save_step it (-1) = Ok true.
Proof.
  unfold save_step. change (Z.eqb (-1) 0) with false. cbn iota.
  pose proof (Z.mod_neg_bound (it + 1) (-1)) as Hb.
  replace ((it + 1) mod -1)%Z with 0%Z by lia. reflexivity.
Qed.

Section DefaultCadence.

Variable c : config.
Variable train_step : Z -> mstate -> mstate.
Hypothesis Hcadence : checkpoint_step c = (-1)%Z.
Hypothesis Htrain : train c = true.
Hypothesis Hmain : main_process c = true.
Hypothesis Hprefix : weight_prefix c <> "".

Lemma body_saves (ipe : Q) (st : runstate) :
  all_saved c st ->
  snd (iteration_body c train_step ipe st) = Ok tt /\
  all_saved c (fst (iteration_body c train_step ipe st)).
Proof.
  intros [Hinv Hfiles]. unfold iteration_body.
  rewrite Hcadence, save_step_default, Htrain, Hmain. cbn [andb].
  unfold save_state. rewrite Htrain.
  destruct (String.eqb_spec (weight_prefix c) ""); [contradiction|].
  cbn [negb bind fst snd].
  split; [reflexivity|]. unfold all_saved. cbn [rs_trace rs_files].
  rewrite !saved_app, !executed_app, Hinv.
  destruct (has_writer c); cbn; rewrite ?app_nil_r; (split; [reflexivity|]);
    (apply Forall_app; split;
     [ eapply Forall_impl; [|exact Hfiles]; intros it Hit;
       now apply isfile_write_keep
     | constructor; [apply isfile_write_same | constructor] ]).
Qed.

Lemma iterate_saves (ipe : Q) (n : nat) : forall st,
  all_saved c st ->
  all_saved c (fst (iterate c train_step ipe n st)) /\
  snd (iterate c train_step ipe n st) = Ok tt.
Proof.
  induction n as [|n IH]; intros st Hinv; simpl; [now split|].
  destruct (body_saves ipe st Hinv) as [Hok Hinv'].
  destruct (iteration_body c train_step ipe st) as [st' r].
  simpl in Hok, Hinv'. subst r. now apply IH.
Qed.

Lemma epoch_loop_saves (ipe : Q) (its : pynum) (es : list nat) : forall st,
  all_saved c st ->
  all_saved c (fst (epoch_loop c train_step ipe its es st)).
Proof.
  induction es as [|e rest IH]; intros st Hinv; simpl; [exact Hinv|].
  set (st1 := if distributed c then _ else st).
  assert (H1 : all_saved c st1).
  { unfold st1. destruct (distributed c); [|exact Hinv].
    destruct Hinv as [Hs Hf]. unfold all_saved. cbn [rs_trace rs_files].
    rewrite saved_app, executed_app, Hs. cbn. rewrite app_nil_r.
    split; [reflexivity | exact Hf]. }
  destruct (range_len _) as [n|ex]; [|exact H1].
  destruct (iterate_saves ipe n st1 H1) as [Hinv2 Hok].
  destruct (iterate c train_step ipe n st1) as [st2 r].
  simpl in Hinv2, Hok. subst r. now apply IH.
Qed.

Lemma run_saves (m : mstate) (fs : filesystem) :
  all_saved c (fst (run c train_step m fs)).
Proof.
  assert (H0 : forall it, all_saved c {| rs_state := m; rs_files := fs;
                                         rs_trace := []; rs_iteration := it |})
    by (intros it; split; [reflexivity | constructor]).
  unfold run.
  destruct (iter_per_epoch _ _) as [ipe|]; [|apply H0].
  destruct (iterations c) as [its|]; [|apply H0].
  destruct (epochs c) as [eps|]; [|apply H0].
  destruct (is_zero _); [apply H0|].
  apply epoch_loop_saves, H0.
Qed.

End DefaultCadence.

(** C10: with the default cadence [-1] the save-step test holds at every
    iteration, so a training run of the coordinating process calls
    [save_state] at every iteration it executes and leaves a checkpoint file
    for each of them. *)
Theorem default_cadence_saves_every_iteration (c : config)
    (train_step : Z -> mstate -> mstate) (m : mstate) (fs : filesystem) :
  checkpoint_step c = (-1)%Z ->
  train c = true ->
  main_process c = true ->
  weight_prefix c <> "" ->
  (forall it, save_step it (checkpoint_step c) = Ok true) /\
  saved (rs_trace (fst (run c train_step m fs)))
  = executed (rs_trace (fst (run c train_step m fs))) /\
  forall it, In it (executed (rs_trace (fst (run c train_step m fs)))) ->
    isfile (rs_files (fst (run c train_step m fs)))
           (checkpoint_name (weight_prefix c) it) = true.
Proof.
  intros Hc Ht Hm Hp. split.
  - intros it. rewrite Hc. apply save_step_default.
  - destruct (run_saves c train_step Hc Ht Hm Hp m fs) as [Hs Hf].
    split; [exact Hs|]. now apply Forall_forall.
Qed.

Lemma default_cadence_saves_every_iteration_witness :
  let c := trainer (Some (PInt 3)) (Some (PFloat (3 # 4))) (-1) in
  executed (rs_trace (fst (run c (fun _ m => m) blank no_files)))
    = [0; 1; 2]%Z /\
  ((forall it, save_step it (checkpoint_step c) = Ok true) /\
   saved (rs_trace (fst (run c (fun _ m => m) blank no_files)))
   = executed (rs_trace (fst (run c (fun _ m => m) blank no_files))) /\
   forall it, In it (executed (rs_trace (fst (run c (fun _ m => m) blank no_files)))) ->
     isfile (rs_files (fst (run c (fun _ m => m) blank no_files)))
            (checkpoint_name (weight_prefix c) it) = true).
Proof.
  split; [reflexivity|].
  apply (default_cadence_saves_every_iteration
           (trainer (Some (PInt 3)) (Some (PFloat (3 # 4))) (-1))
           (fun _ m => m) blank no_files);
    [reflexivity | reflexivity | reflexivity | discriminate].
Defined.

Lemma negative_n_iterations (z : Z) (e len : nat) :
  (z < 0)%Z -> range_len (n_iterations (PInt z) e len) = Ok 0%nat.
Proof.
  intros Hneg. unfold n_iterations, py_min.
  set (y := (Z.of_nat e * Z.of_nat len)%Z).
  assert (Hy : (0 <= y)%Z) by (unfold y; lia).
  destruct (Qlt_le_dec _ _) as [Hlt | Hle].
  - exfalso. cbn [to_Q sub_int] in Hlt. rewrite <- Zlt_Qlt in Hlt. lia.
  - cbn [sub_int range_len]. f_equal. lia.
Qed.

Lemma negative_epoch_loop (c : config) (train_step : Z -> mstate -> mstate)
    (ipe : Q) (z : Z) (es : list nat) :
  (z < 0)%Z ->
  forall st, executed (rs_trace st) = [] ->
  snd (epoch_loop c train_step ipe (PInt z) es st) = Ok tt /\
  executed (rs_trace (fst (epoch_loop c train_step ipe (PInt z) es st))) = [].
Proof.
  intros Hneg. induction es as [|e rest IH]; intros st Hinv; simpl; [now split|].
  set (st1 := if distributed c then _ else st).
  assert (H1 : executed (rs_trace st1) = []).
  { unfold st1. destruct (distributed c); [|exact Hinv].
    cbn [rs_trace]. rewrite executed_app, Hinv. reflexivity. }
  rewrite (negative_n_iterations z e (loader_len c) Hneg). simpl.
  now apply IH.
Qed.

Lemma iter_per_epoch_nonzero (len world : nat) :
  len <> 0%nat -> world <> 0%nat ->
  exists ipe, iter_per_epoch len world = Ok ipe /\ is_zero ipe = false.
Proof.
  intros Hl Hw. unfold iter_per_epoch.
  destruct (Nat.eqb_spec world 0); [contradiction|].
  eexists. split; [reflexivity|].
  unfold is_zero. destruct (Qeq_bool _ 0) eqn:E; [|reflexivity].
  exfalso. apply Qeq_bool_eq in E.
  assert (Hwq : ~ (inject_Z (Z.of_nat world) == 0)%Q).
  { change 0%Q with (inject_Z 0). rewrite inject_Z_injective. lia. }
  assert (Hlq : (inject_Z (Z.of_nat len) == 0)%Q).
  { rewrite <- (Qmult_div_r (inject_Z (Z.of_nat len)) _ Hwq), E. ring. }
  change 0%Q with (inject_Z 0) in Hlq. rewrite inject_Z_injective in Hlq. lia.
Qed.

(** C7, as the code has it: a negative [iterations] makes [process_io]
    derive exactly one epoch, and the run loop then completes without
    executing any iteration, because the per-epoch count
    [min(iterations - e*len, len)] is negative; one epoch of a non-empty
    data set has [len / world_size > 0] iterations. *)
Theorem negative_iterations_run_nothing (c : config)
    (train_step : Z -> mstate -> mstate) (m : mstate) (fs : filesystem)
    (z : Z) :
  iterations c = Some (PInt z) ->
  epochs c = None ->
  (z < 0)%Z ->
  world_size c <> 0%nat ->
  loader_len c <> 0%nat ->
  process_io (loader_len c) (world_size c) (iterations c) (epochs c)
    = Ok (PInt z, PInt 1) /\
  snd (configure_and_run c train_step m fs) = Ok tt /\
  executed (rs_trace (fst (configure_and_run c train_step m fs))) = [].
Proof.
  intros Hi He Hneg Hw Hl.
  destruct (iter_per_epoch_nonzero _ _ Hl Hw) as [ipe [Hipe Hnz]].
  assert (Hp : process_io (loader_len c) (world_size c) (iterations c) (epochs c)
               = Ok (PInt z, PInt 1)).
  { unfold process_io. rewrite Hi, Hipe. cbn [bind to_Q].
    destruct (Qlt_le_dec (inject_Z z) 0) as [_ | Hge]; [reflexivity|].
    exfalso. change 0%Q with (inject_Z 0) in Hge. rewrite <- Zle_Qle in Hge. lia. }
  split; [exact Hp|].
  unfold configure_and_run. rewrite Hp. rewrite Hi, He. cbn [check_budget].
  unfold run. cbn [iterations epochs loader_len world_size train].
  rewrite Hipe, Hnz.
  now apply negative_epoch_loop.
Qed.

Lemma negative_iterations_run_nothing_witness :
  let c := trainer (Some (PInt (-1))) None 2 in
  configure_and_run c (fun _ m => m) blank no_files
  = ({| rs_state := blank; rs_files := no_files; rs_trace := [];
        rs_iteration := 0 |}, Ok tt) /\
  iter_per_epoch (loader_len c) (world_size c) = Ok (4 # 1)%Q /\
  (process_io (loader_len c) (world_size c) (iterations c) (epochs c)
     = Ok (PInt (-1), PInt 1) /\
   snd (configure_and_run c (fun _ m => m) blank no_files) = Ok tt /\
   executed (rs_trace (fst (configure_and_run c (fun _ m => m) blank no_files)))
     = []).
Proof.
  split; [reflexivity|]. split; [reflexivity|].
  apply (negative_iterations_run_nothing
           (trainer (Some (PInt (-1))) None 2) (fun _ m => m) blank no_files
           (-1)%Z); [reflexivity | reflexivity | reflexivity | | ]; discriminate.
Defined.

(** ** Weight loading *)

(** C6 (amended): for a weight path that is not an existing file, the load
    fails in training mode; in inference mode the weight set is skipped,
    without error and without touching the model, when the path expands to at
    least one path, and the load fails when it expands to none, which is the
    case of a literal path that does not exist. *)
Theorem missing_weight_file (c : config) (fs : filesystem)
    (module model_path model_name' : string) (m : mstate) :
  isfile fs model_path = false ->
  (train c = true ->
     load_one c fs (module, model_path, model_name') m
     = (m, [], Raise (not_found module model_path))) /\
  (train c = false -> glob fs model_path <> [] ->
     load_one c fs (module, model_path, model_name') m = (m, [], Ok tt)) /\
  (train c = false -> glob fs model_path = [] ->
     load_one c fs (module, model_path, model_name') m
     = (m, [], Raise (not_found module model_path))) /\
  (has_magic model_path = false ->
     Str.mem model_path (directories fs) = false ->
     glob fs model_path = []).
Proof.
  unfold isfile, load_one. intros Hf.
  destruct (read_file model_path (files fs)) eqn:Hr; [discriminate|].
  repeat split.
  - intros ->. reflexivity.
  - intros -> Hg. destruct (glob fs model_path); [congruence | reflexivity].
  - intros -> ->. reflexivity.
  - intros Hm Hd. unfold glob, isfile. now rewrite Hm, Hr, Hd.
Qed.

Lemma missing_weight_file_witness :
  isfile two_snapshots "weights/snapshot-*.ckpt" = false /\
  load_one inference two_snapshots
           ("full_chain", "weights/snapshot-*.ckpt", "") blank
  = (blank, [], Ok tt).
Proof.
  split; [reflexivity|].
  apply (missing_weight_file inference two_snapshots
           "full_chain" "weights/snapshot-*.ckpt" "" blank eq_refl);
    [reflexivity | discriminate].
Defined.

(** C6, as stated: in inference mode a pattern that expands to no file is
    not skipped; the load fails with "Weight file not found". *)
Lemma empty_glob_is_fatal :
  train inference = false /\
  has_magic "weights/snapshot-*.ckpt" = true /\
  isfile no_files "weights/snapshot-*.ckpt" = false /\
  glob no_files "weights/snapshot-*.ckpt" = [] /\
  load_one inference no_files ("full_chain", "weights/snapshot-*.ckpt", "") blank
  = (blank, [],
     Raise (ValueError
       "Weight file not found for module full_chain: weights/snapshot-*.ckpt")).
Proof. repeat split. Qed.

Lemma remap_submodule_missing (module model_name' : string)
    (stored : Dict.t tensor) (names : list string) :
  forall sd missing,
  snd (remap_submodule module model_name' stored names sd missing)
  = (missing ++
     map (fun n => (n, stored_name module model_name' false n))
         (filter (fun n => Str.contains module n &&
                           negb (Dict.mem (stored_name module model_name' false n)
                                          stored))
                 names))%list.
Proof.
  induction names as [|n rest IH]; intros sd missing; simpl.
  - now rewrite app_nil_r.
  - unfold Dict.mem. cbn [stored_name].
    destruct (Str.contains module n); cbn [andb]; [|apply IH].
    destruct (Dict.get _ stored); cbn [negb filter map].
    + apply IH.
    + rewrite IH, <- app_assoc. reflexivity.
Qed.

(** The list [missing_keys] built by [load_weights], in terms of the
    vocabulary of the specification. *)
Lemma computed_missing (c : config) (module model_name' : string)
    (ckpt : checkpoint) (live : Dict.t tensor) :
  let top := String.eqb module (model_name c) in
  let sd0 := if distributed c then state_dict ckpt
             else strip_module (state_dict ckpt) in
  snd (if top then (sd0, missing_top live sd0)
       else remap_submodule module model_name' (state_dict ckpt)
                            (Dict.keys live) Dict.empty [])
  = map (fun n => (n, stored_name module model_name' top n))
        (filter (not_covered c module model_name' ckpt) (Dict.keys live)).
Proof.
  intros top sd0. unfold not_covered, required, stored_keys. fold top.
  destruct top; cbn [fst snd orb andb].
  - unfold missing_top, stored_name, sd0.
    destruct (distributed c); reflexivity.
  - rewrite remap_submodule_missing. reflexivity.
Qed.

(** C3: when some parameter name required from the live model is not
    covered by the (possibly remapped) keys of the checkpoint, loading that
    checkpoint fails, the records logged before the failure name every such
    parameter, and the manager state is the one the load started from. *)
Theorem missing_parameters_atomic (c : config) (fs : filesystem)
    (module model_path model_name' : string) (m : mstate)
    (ckpt : checkpoint) (name : string) :
  read_file model_path (files fs) = Some ckpt ->
  In name (Dict.keys (model_state m)) ->
  not_covered c module model_name' ckpt name = true ->
  exists lg,
    load_one c fs (module, model_path, model_name') m
    = (m, lg, Raise incomplete_weights) /\
    forall n, In n (Dict.keys (model_state m)) ->
      not_covered c module model_name' ckpt n = true ->
      In (missing_message
            (n, stored_name module model_name'
                            (String.eqb module (model_name c)) n)) lg.
Proof.
  intros Hr Hin Hnc. unfold load_one. rewrite Hr.
  pose proof (computed_missing c module model_name' ckpt (model_state m)) as Hm.
  cbv zeta in Hm.
  destruct (if String.eqb module (model_name c) then _ else _) as [sd missing].
  cbn [snd] in Hm. subst missing.
  set (miss := map _ (filter _ _)).
  assert (Hall : forall n, In n (Dict.keys (model_state m)) ->
            not_covered c module model_name' ckpt n = true ->
            In (n, stored_name module model_name'
                               (String.eqb module (model_name c)) n) miss).
  { intros n Hn Hc. unfold miss.
    apply (in_map (fun n0 => (n0, stored_name module model_name'
                                    (String.eqb module (model_name c)) n0))).
    apply filter_In. now split. }
  destruct miss as [|p ps] eqn:Hmiss.
  - destruct (Hall name Hin Hnc).
  - eexists. split; [reflexivity|].
    intros n Hn Hc. apply in_or_app. right. apply in_or_app. right.
    apply in_map. now apply Hall.
Qed.

Lemma missing_parameters_atomic_witness :
  exists lg,
    load_one (trainer (Some (PInt 8)) None 1) ab_checkpoint
             ("full_chain", "weights/ab.ckpt", "") abc_model
    = (abc_model, lg, Raise incomplete_weights) /\
    In (Critical, "Parameter c is missing for c.") lg.
Proof.
  destruct (missing_parameters_atomic (trainer (Some (PInt 8)) None 1)
              ab_checkpoint "full_chain" "weights/ab.ckpt" "" abc_model
              {| global_step := 41;
                 state_dict := Dict.of_items [("a", flat [7 # 1]);
                                              ("b", flat [8 # 1])];
                 optimizer := [] |}
              "c" eq_refl (or_intror (or_intror (or_introl eq_refl))) eq_refl)
    as [lg [Hload Hall]].
  exists lg. split; [exact Hload|].
  apply (Hall "c"); [right; right; left; reflexivity | reflexivity].
Defined.

(** *** Checkpoint round trip *)

Lemma of_list_to_list (s : string) : Str.of_list (Str.to_list s) = s.
Proof. induction s as [|ch t IH]; simpl; [reflexivity | now rewrite IH]. Qed.

Lemma replace_chars_absent (old new : list ascii) (s : list ascii) :
  Str.contains_chars old s = false -> Str.replace_chars old new 0 s = s.
Proof.
  induction s as [|ch t IH]; intros H; [reflexivity|].
  cbn [Str.contains_chars] in H. apply orb_false_iff in H. destruct H as [H1 H2].
  cbn [Str.replace_chars]. rewrite H1, IH by exact H2. reflexivity.
Qed.

Lemma replace_absent (old new s : string) :
  Str.contains old s = false -> Str.replace old new s = s.
Proof.
  unfold Str.contains, Str.replace. intros H.
  rewrite replace_chars_absent by exact H. apply of_list_to_list.
Qed.

Lemma get_set_eq {V : Type} (k : string) (v : V) (d : Dict.t V) :
  Dict.get k (Dict.set k v d) = Some v.
Proof.
  induction d as [|[[k' v']|] r IH]; simpl.
  - now rewrite String.eqb_refl.
  - destruct (String.eqb k k') eqn:E; simpl; rewrite ?String.eqb_refl, ?E; auto.
  - exact IH.
Qed.

Lemma get_set_ne {V : Type} (k k0 : string) (v : V) (d : Dict.t V) :
  k <> k0 -> Dict.get k (Dict.set k0 v d) = Dict.get k d.
Proof.
  intros Hne. induction d as [|[[k' v']|] r IH]; simpl.
  - destruct (String.eqb_spec k k0); [contradiction | reflexivity].
  - destruct (String.eqb_spec k0 k'); simpl.
    + subst k'. destruct (String.eqb_spec k k0); [contradiction | reflexivity].
    + destruct (String.eqb k k'); [reflexivity | exact IH].
  - exact IH.
Qed.

Lemma get_update_notin {V : Type} (k : string) (l : list (string * V)) :
  forall d, ~ In k (map fst l) -> Dict.get k (Dict.update d l) = Dict.get k d.
Proof.
  unfold Dict.update.
  induction l as [|[k0 v0] t IH]; intros d Hn; simpl; [reflexivity|].
  rewrite IH by (intros H; apply Hn; now right).
  apply get_set_ne. intros ->. apply Hn. now left.
Qed.

Lemma get_update_in {V : Type} (k : string) (v : V) (l : list (string * V)) :
  forall d, NoDup (map fst l) -> In (k, v) l ->
  Dict.get k (Dict.update d l) = Some v.
Proof.
  induction l as [|[k0 v0] t IH]; intros d Hnd Hin; [contradiction|].
  simpl in Hnd. inversion Hnd as [|? ? Hk0 Hnd']; subst.
  destruct Hin as [Heq | Hin].
  - inversion Heq; subst. change (Dict.update d ((k, v) :: t))
      with (Dict.update (Dict.set k v d) t).
    rewrite get_update_notin by exact Hk0. apply get_set_eq.
  - change (Dict.update d ((k0, v0) :: t))
      with (Dict.update (Dict.set k0 v0 d) t).
    now apply IH.
Qed.

Lemma get_items {V : Type} (k : string) (v : V) (d : Dict.t V) :
  NoDup (Dict.keys d) -> In (k, v) (Dict.items d) -> Dict.get k d = Some v.
Proof.
  unfold Dict.keys.
  induction d as [|[[k' v']|] r IH]; simpl; intros Hnd Hin; [contradiction| |auto].
  inversion Hnd as [|? ? Hk' Hnd']; subst.
  destruct Hin as [Heq | Hin].
  - inversion Heq; subst. now rewrite String.eqb_refl.
  - destruct (String.eqb_spec k k'); [|auto].
    subst k'. exfalso. apply Hk'.
    change k with (fst (k, v)). now apply in_map.
Qed.

Lemma filter_none {A : Type} (f : A -> bool) (l : list A) :
  (forall x, In x l -> f x = false) -> filter f l = [].
Proof.
  induction l as [|x t IH]; intros H; simpl; [reflexivity|].
  rewrite (H x (or_introl eq_refl)). apply IH. intros y Hy. apply H. now right.
Qed.

Lemma load_state_dict_items (live sd : Dict.t tensor) :
  Dict.items (fst (load_state_dict live sd))
  = map (fun e => (fst e, match Dict.get (fst e) sd with
                          | Some new => if same_size new (snd e) then new
                                        else snd e
                          | None => snd e
                          end)) (Dict.items live).
Proof.
  unfold load_state_dict. cbn [fst].
  induction live as [|[[n old]|] r IH]; simpl; [reflexivity| |exact IH].
  destruct (Dict.get n sd) as [new|]; [destruct (same_size new old)|];
    simpl; now rewrite IH.
Qed.

(** When every stored tensor has the size of the live one, the call
    returns. *)
Lemma load_state_dict_fits (live sd : Dict.t tensor) :
  (forall n old new, In (n, old) (Dict.items live) ->
                     Dict.get n sd = Some new -> size new = size old) ->
  snd (load_state_dict live sd)
  = Ok (filter (fun k => negb (Dict.mem k live)) (Dict.keys sd)).
Proof.
  intros H. unfold load_state_dict, mismatched. cbn [snd].
  rewrite filter_none; [reflexivity|].
  intros [n old] Hin. cbn [fst snd].
  destruct (Dict.get n sd) as [new|] eqn:Hg; [|reflexivity].
  unfold same_size. rewrite (H n old new Hin Hg).
  now destruct (list_eq_dec Nat.eq_dec (size old) (size old)).
Qed.

Lemma relabel_items {V : Type} (f : string * V -> V) (lL lS : list (string * V)) :
  map fst lL = map fst lS ->
  (forall e, In e lL -> In (fst e, f e) lS) ->
  NoDup (map fst lS) ->
  map (fun e => (fst e, f e)) lL = lS.
Proof.
  revert lS. induction lL as [|e t IH]; intros [|s lS] Hk Hf Hnd;
    simpl in *; try discriminate; [reflexivity|].
  inversion Hk as [[Hfst Hrest]]. inversion Hnd as [|? ? Hs Hnd']; subst.
  assert (He : (fst e, f e) = s).
  { destruct (Hf e (or_introl eq_refl)) as [-> | Hin]; [reflexivity|].
    exfalso. apply Hs. rewrite <- Hfst.
    change (fst e) with (fst (fst e, f e)). now apply in_map. }
  rewrite He. f_equal. apply IH; [exact Hrest | | exact Hnd'].
  intros e' He'. destruct (Hf e' (or_intror He')) as [Heq | Hin]; [|exact Hin].
  exfalso. apply Hs. rewrite Heq. simpl. rewrite <- Hrest.
  now apply in_map.
Qed.

Lemma strip_module_absent (sd : Dict.t tensor) :
  (forall n, In n (Dict.keys sd) -> Str.contains "module." n = false) ->
  strip_module sd = Dict.of_items (Dict.items sd).
Proof.
  intros H. unfold strip_module. f_equal.
  rewrite <- (map_id (Dict.items sd)) at 2.
  apply map_ext_in. intros [n v] Hin. simpl.
  rewrite replace_absent; [reflexivity|].
  apply H. unfold Dict.keys. change n with (fst (n, v)). now apply in_map.
Qed.

Lemma in_keys_items {V : Type} (n : string) (d : Dict.t V) :
  In n (Dict.keys d) -> exists v, In (n, v) (Dict.items d).
Proof.
  unfold Dict.keys. intros H. apply in_map_iff in H.
  destruct H as [[n' v] [Heq Hin]]. simpl in Heq. subst n'. now exists v.
Qed.

(** X17: saving at iteration [k] and loading the file again as the
    top-level checkpoint, into a model with the same parameter names and
    sizes and without restoring the optimizer, restores the saved parameters
    and sets [start_iteration] to [k + 1], provided the run is distributed or
    no parameter name contains "module.". *)
Lemma roundtrip_restores (c : config) (fs fs' : filesystem) (m later : mstate)
    (k : Z) :
  save_state c k m fs = Ok fs' ->
  restore_optimizer c = false ->
  (distributed c = true \/
   forall n, In n (Dict.keys (model_state m)) -> Str.contains "module." n = false) ->
  NoDup (Dict.keys (model_state m)) ->
  Dict.keys (model_state later) = Dict.keys (model_state m) ->
  (forall n old new, In (n, old) (Dict.items (model_state later)) ->
                     In (n, new) (Dict.items (model_state m)) ->
                     size new = size old) ->
  exists lg m',
    load_weights c fs' [(model_name c, checkpoint_name (weight_prefix c) k, "")] later
      = (m', lg, Ok tt) /\
    Dict.items (model_state m') = Dict.items (model_state m) /\
    start_iteration m' = (k + 1)%Z.
Proof.
  intros Hsave _ Hnames Hnd Hkeys Hsize.
  unfold save_state in Hsave.
  destruct (String.eqb (weight_prefix c) ""); [discriminate|].
  destruct (negb (train c)); [discriminate|].
  injection Hsave as <-.
  set (sd0 := if distributed c then model_state m
              else strip_module (model_state m)).
  assert (G : forall n v, In (n, v) (Dict.items (model_state m)) ->
                          Dict.get n sd0 = Some v).
  { intros n0 v Hin. unfold sd0. destruct Hnames as [-> | Habs].
    - now apply get_items.
    - destruct (distributed c); [now apply get_items|].
      rewrite strip_module_absent by exact Habs.
      now apply get_update_in. }
  assert (Hmiss : missing_top (model_state later) sd0 = []).
  { unfold missing_top. rewrite filter_none; [reflexivity|].
    intros n0 Hn0. rewrite Hkeys in Hn0.
    destruct (in_keys_items n0 _ Hn0) as [v Hv].
    unfold Dict.mem. now rewrite (G n0 v Hv). }
  assert (Hfit : forall n old new,
            In (n, old) (Dict.items (model_state later)) ->
            Dict.get n sd0 = Some new -> size new = size old).
  { intros n0 old new Hin Hg.
    assert (Hk : In n0 (Dict.keys (model_state m))).
    { rewrite <- Hkeys. unfold Dict.keys.
      change n0 with (fst (n0, old)). now apply in_map. }
    destruct (in_keys_items n0 _ Hk) as [v Hv].
    rewrite (G n0 v Hv) in Hg. injection Hg as <-.
    exact (Hsize n0 old v Hin Hv). }
  unfold load_weights, load_loop, load_one, write_file. cbn [files read_file].
  rewrite !String.eqb_refl. cbn [state_dict model_state global_step].
  fold sd0. rewrite Hmiss.
  pose proof (load_state_dict_fits (model_state later) sd0 Hfit) as Hok.
  destruct (load_state_dict (model_state later) sd0) as [live' r] eqn:Hl.
  cbn [snd] in Hok. subst r.
  do 2 eexists. split; [reflexivity|].
  split; [|reflexivity]. cbn [model_state].
  replace live' with (fst (load_state_dict (model_state later) sd0))
    by now rewrite Hl.
  rewrite load_state_dict_items.
  apply relabel_items
    with (f := fun e : string * tensor =>
                 match Dict.get (fst e) sd0 with
                 | Some new => if same_size new (snd e) then new else snd e
                 | None => snd e
                 end).
  - exact Hkeys.
  - intros [n0 old] Hin. cbn [fst snd].
    assert (Hk : In n0 (Dict.keys (model_state m))).
    { rewrite <- Hkeys. unfold Dict.keys.
      change n0 with (fst (n0, old)). now apply in_map. }
    destruct (in_keys_items n0 _ Hk) as [v Hv].
    rewrite (G n0 v Hv). unfold same_size.
    rewrite (Hsize n0 old v Hin Hv).
    now destruct (list_eq_dec Nat.eq_dec (size old) (size old)).
  - exact Hnd.
Qed.

(** X24: loading a checkpoint for a sub-module leaves [start_iteration]
    as it was, whether the load goes through or not. *)
Lemma submodule_keeps_start_iteration (c : config) (fs : filesystem)
    (module model_path model_name' : string) (m : mstate) :
  module <> model_name c ->
  start_iteration (fst (fst (load_one c fs (module, model_path, model_name') m)))
  = start_iteration m.
Proof.
  intros Hne. unfold load_one.
  destruct (read_file model_path (files fs)) as [ckpt|].
  - destruct (String.eqb_spec module (model_name c)); [contradiction|].
    destruct (remap_submodule _ _ _ _ _ _) as [sd [|p ps]]; [|reflexivity].
    destruct (load_state_dict _ _) as [live' [unexpected|e]]; reflexivity.
  - destruct (_ && _); reflexivity.
Qed.

(** C5, the defect: a model of a single-process run with a parameter named
    [attention_module.weight].  The checkpoint saved at iteration 7 cannot be
    loaded back: the key is rewritten to [attention_weight] before the lookup,
    the parameter is reported missing, and neither the parameters nor
    [start_iteration] are restored. *)
Lemma roundtrip_fails_on_module_names :
  let c := trainer (Some (PInt 8)) None 1 in
  let at_save := named_model (flat [1 # 1]) (flat [2 # 1]) in
  let later := named_model (flat [5 # 1]) (flat [6 # 1]) in
  exists fs,
    save_state c 7 at_save no_files = Ok fs /\
    Dict.keys (strip_module (model_state at_save))
      = ["encoder.weight"; "attention_weight"] /\
    load_weights c fs [(model_name c, "weights/snapshot-7.ckpt", "")] later
    = (later,
       [(Info, "Restoring weights for module full_chain from weights/snapshot-7.ckpt...");
        (Critical, "These necessary parameters could not be found:");
        (Critical, "Parameter attention_module.weight is missing for attention_module.weight.")],
       Raise incomplete_weights).
Proof. eexists. repeat split. Qed.

(** ** Output filtering in [step] *)

(** [process_model] refuses a configuration that gives both filters. *)
Lemma both_filters_rejected (keep_output ignore : option (list string)) :
  truthy keep_output = true -> truthy ignore = true ->
  process_model keep_output ignore
  = Raise (AssertionError
             "Should not specify `keep_output` and `ignore_keys` together.").
Proof. intros H1 H2. unfold process_model. now rewrite H1, H2. Qed.

(** C8, the defect: a forward result with the keys [embeddings] and
    [segmentation], and the allow-list [segmentation].  [step] does not return
    a filtered mapping: the key is popped while the dictionary is being
    iterated, and the loop ends in [RuntimeError].  With the cast to numpy the
    popped key is moreover stored back, so the dictionary still holds
    [embeddings]; the same happens with the deny-list [embeddings]. *)
Lemma filtering_step_raises :
  step (filtering true (Some ["segmentation"]) None) two_outputs Dict.empty
  = ([None; Some ("segmentation", VScalar (2 # 1));
      Some ("embeddings", VScalar (1 # 1))],
     Raise (RuntimeError "dictionary keys changed during iteration")) /\
  step (filtering false (Some ["segmentation"]) None) two_outputs Dict.empty
  = ([None; Some ("segmentation", VScalar (2 # 1))],
     Raise (RuntimeError "dictionary changed size during iteration")) /\
  step (filtering true None (Some ["embeddings"])) two_outputs Dict.empty
  = ([None; Some ("segmentation", VScalar (2 # 1));
      Some ("embeddings", VScalar (1 # 1))],
     Raise (RuntimeError "dictionary keys changed during iteration")) /\
  process_model (Some ["segmentation"]) (Some ["embeddings"])
  = Raise (AssertionError
             "Should not specify `keep_output` and `ignore_keys` together.").
Proof. repeat split. Qed.

(** Without the cast to numpy the loop never stores a key back, and the
    entry table is only ever shrunk: the general form of the defect. *)

Local Close Scope string_scope.

Lemma step_loop_eq (c : config) (remaining used pos : nat) (d : Dict.t value) :
  step_loop c remaining used pos d
  = if negb (Nat.eqb (Dict.len d) used)
    then (d, Raise (RuntimeError "dictionary changed size during iteration"))
    else
      match Dict.next_from pos d with
      | None => (d, Ok tt)
      | Some (pos', (key, v)) =>
        match remaining with
        | O => (d, Raise (RuntimeError "dictionary keys changed during iteration"))
        | S rem =>
          match step_body c key v d with
          | (d', Ok _) => step_loop c rem used pos' d'
          | (d', Raise e) => (d', Raise e)
          end
        end
      end.
Proof. destruct remaining; reflexivity. Qed.

Lemma len_remove {V : Type} (k : string) (d : Dict.t V) :
  In k (Dict.keys d) -> S (Dict.len (Dict.remove k d)) = Dict.len d.
Proof.
  unfold Dict.keys, Dict.len.
  induction d as [|[[k' v']|] r IH]; simpl; intros Hin; [contradiction| |auto].
  destruct (String.eqb_spec k k'); simpl; [reflexivity|].
  destruct Hin as [Heq | Hin]; [congruence|]. f_equal. now apply IH.
Qed.

Lemma items_app {V : Type} (a b : Dict.t V) :
  Dict.items (a ++ b) = (Dict.items a ++ Dict.items b)%list.
Proof.
  induction a as [|[kv|] r IH]; simpl; [reflexivity| |exact IH].
  now rewrite IH.
Qed.

(** [next_from] at the end of a prefix: the first live entry of the rest. *)
Lemma next_from_split {V : Type} (pre suf : Dict.t V) :
  match Dict.next_from (length pre) (pre ++ suf) with
  | None => Dict.items suf = []
  | Some (pos', kv) =>
    exists skipped rest,
      suf = (skipped ++ Some kv :: rest)%list /\
      Dict.items skipped = [] /\
      pos' = length (pre ++ skipped ++ [Some kv])%list
  end.
Proof.
  induction pre as [|e pre IH]; simpl.
  - induction suf as [|[kv|] r IHs]; simpl.
    + reflexivity.
    + exists [], r. repeat split.
    + destruct (Dict.next_from 0 r) as [[n kv]|]; [|exact IHs].
      destruct IHs as [sk [rest [-> [Hsk ->]]]].
      exists (None :: sk), rest. repeat split; assumption.
  - destruct (Dict.next_from (length pre) (pre ++ suf)) as [[n kv]|]; [|exact IH].
    destruct IH as [sk [rest [-> [Hsk ->]]]].
    exists sk, rest. repeat split; assumption.
Qed.

Lemma plain_loop_raises (c : config) (used : nat) :
  to_numpy c = false ->
  forall (remaining : nat) (pre suf : Dict.t value),
  Dict.len (pre ++ suf) = used ->
  (Dict.len suf <= remaining)%nat ->
  (exists key, In key (Dict.keys suf) /\ filtered c key = true) ->
  snd (step_loop c remaining used (length pre) (pre ++ suf))
  = Raise (RuntimeError "dictionary changed size during iteration").
Proof.
  intros Hnp. induction remaining as [|rem IH]; intros pre suf Hused Hlen Hex.
  - exfalso. destruct Hex as [key [Hin _]]. unfold Dict.keys, Dict.len in *.
    destruct (Dict.items suf); [contradiction | simpl in Hlen; lia].
  - rewrite step_loop_eq, Hused, Nat.eqb_refl. cbn [negb].
    pose proof (next_from_split pre suf) as Hn.
    destruct (Dict.next_from (length pre) (pre ++ suf)) as [[pos' [key v]]|].
    + destruct Hn as [sk [rest [-> [Hsk ->]]]].
      unfold step_body. rewrite Hnp.
      destruct (filtered c key) eqn:Hf.
      * rewrite step_loop_eq.
        assert (Hk : In key (Dict.keys (pre ++ sk ++ Some (key, v) :: rest))).
        { unfold Dict.keys. rewrite !items_app, !map_app. simpl.
          apply in_or_app. right. apply in_or_app. right. now left. }
        apply len_remove in Hk. rewrite Hused in Hk.
        destruct (Nat.eqb_spec (Dict.len (Dict.remove key
                     (pre ++ sk ++ Some (key, v) :: rest))) used) as [E|_];
          [lia | reflexivity].
      * replace (pre ++ sk ++ Some (key, v) :: rest)%list
          with ((pre ++ sk ++ [Some (key, v)]) ++ rest)%list
          by (now rewrite <- !app_assoc).
        apply IH.
        -- rewrite <- Hused. now rewrite <- !app_assoc.
        -- unfold Dict.len in *. rewrite items_app, Hsk in Hlen.
           simpl in Hlen. lia.
        -- destruct Hex as [k' [Hin Hk']]. exists k'. split; [|exact Hk'].
           unfold Dict.keys in *. rewrite items_app, Hsk in Hin. simpl in Hin.
           destruct Hin as [<- | Hin]; [congruence | exact Hin].
    + exfalso. destruct Hex as [key [Hin _]]. unfold Dict.keys in Hin.
      now rewrite Hn in Hin.
Qed.

(** X13: whenever a key of the forward result has to be filtered out and
    the cast to numpy is off, [step] raises instead of returning the filtered
    mapping. *)
Lemma plain_step_raises (c : config) (forward_out loss_out : Dict.t value)
    (key : string) :
  to_numpy c = false ->
  has_loss c = false ->
  In key (Dict.keys forward_out) ->
  filtered c key = true ->
  snd (step c forward_out loss_out)
  = Raise (RuntimeError "dictionary changed size during iteration").
Proof.
  intros Hnp Hl Hin Hf. unfold step. rewrite Hl. cbn [andb].
  pose proof (plain_loop_raises c (Dict.len forward_out) Hnp
                (Dict.len forward_out) [] forward_out eq_refl (Nat.le_refl _)
                (ex_intro _ key (conj Hin Hf))) as H.
  cbn [length app] in H.
  destruct (step_loop c _ _ 0 forward_out) as [d r]. cbn [snd] in H.
  subst r. reflexivity.
Qed.

(** * Further properties of the overlap matcher *)

Local Close Scope string_scope.

(** The fields the matched branch assigns, for the valid targets [idxs] of
    a row [mrow] of the overlap matrix. *)
Lemma matched_branch_fields (argsort : list Q -> list nat)
    (ovl_matrix : list (list Q))
    (ovl_valid : list (list bool)) (i : nat) (s : obj) (st : locals)
    (vrow : list bool) (mrow : list Q) :
  nth_error ovl_valid i = Some vrow ->
  nth_error ovl_matrix i = Some mrow ->
  length vrow = length mrow ->
  where_true vrow <> [] ->
  let idxs := where_true vrow in
  let ovl := map (fun j => nth j mrow 0%Q) idxs in
  let perm := rev (argsort ovl) in
  fst (loop_body argsort ovl_matrix ovl_valid i s st)
  = {| is_matched := true;
       obj_match := take_at 0%nat idxs perm;
       match_overlap := take_at 0%Q ovl perm |}.
Proof.
  intros Hv Hm Hlen Hne. unfold loop_body. rewrite Hv.
  destruct (where_true vrow) as [|j0 js] eqn:Hw; [congruence|].
  rewrite Hm, <- Hw.
  rewrite fancy_index_in_range
    by (apply where_true_in_range; rewrite Hlen; apply Nat.le_refl).
  reflexivity.
Qed.

Lemma increasing_NoDup (l : list nat) : StronglySorted lt l -> NoDup l.
Proof.
  induction 1 as [|x t Hs IH Hx]; constructor; [|exact IH].
  intros Hin. rewrite Forall_forall in Hx. specialize (Hx x Hin). lia.
Qed.

(** X1: on a source with at least one valid target the stored match list
    holds every valid target index exactly once, and its first entry is a
    best match: no valid target has a larger overlap than the first stored
    overlap. *)
Theorem best_match_is_maximum (argsort : list Q -> list nat)
    (ovl_matrix : list (list Q))
    (ovl_valid : list (list bool)) (i : nat) (s : obj) (st : locals)
    (vrow : list bool) (mrow : list Q) :
  sorts argsort ->
  nth_error ovl_valid i = Some vrow ->
  nth_error ovl_matrix i = Some mrow ->
  length vrow = length mrow ->
  where_true vrow <> [] ->
  let s' := fst (loop_body argsort ovl_matrix ovl_valid i s st) in
  NoDup (obj_match s') /\
  (forall j, In j (obj_match s') <-> In j (where_true vrow)) /\
  exists best others best_ovl other_ovls,
    obj_match s' = best :: others /\
    match_overlap s' = best_ovl :: other_ovls /\
    best_ovl = nth best mrow 0%Q /\
    forall j, In j (where_true vrow) -> (nth j mrow 0 <= best_ovl)%Q.
Proof.
  intros Hsorts Hv Hm Hlen Hne s'. unfold s'.
  rewrite (matched_branch_fields argsort ovl_matrix ovl_valid i s st vrow mrow
             Hv Hm Hlen Hne).
  cbn [obj_match match_overlap].
  set (idxs := where_true vrow).
  set (ovl := map (fun j => nth j mrow 0%Q) idxs).
  set (perm := rev (argsort ovl)).
  assert (Hl : length idxs = length ovl) by (unfold ovl; now rewrite length_map).
  destruct (ranking_spec argsort idxs ovl Hsorts Hl) as [Hp Hs].
  fold perm in Hp, Hs.
  assert (Hlen2 : length (take_at 0%nat idxs perm) = length (take_at 0%Q ovl perm))
    by (unfold take_at; now rewrite !length_map).
  assert (Hfst : Permutation (take_at 0%nat idxs perm) idxs).
  { pose proof (Permutation_map fst Hp) as Hmap.
    rewrite (map_fst_combine _ _ Hlen2) in Hmap.
    rewrite (map_fst_combine idxs ovl Hl) in Hmap. exact Hmap. }
  assert (Hpairs : combine idxs ovl = map (fun j => (j, nth j mrow 0%Q)) idxs).
  { unfold ovl. rewrite <- (map_id idxs) at 1. apply combine_map_same. }
  split; [|split].
  - apply (Permutation_NoDup (Permutation_sym Hfst)).
    apply increasing_NoDup, where_from_increasing.
  - intros j. split; intros Hj.
    + now apply (Permutation_in _ Hfst).
    + now apply (Permutation_in _ (Permutation_sym Hfst)).
  - destruct (take_at 0%nat idxs perm) as [|best others] eqn:Em.
    { exfalso. apply Permutation_nil in Hfst.
      unfold idxs in Hfst. congruence. }
    destruct (take_at 0%Q ovl perm) as [|bo oo] eqn:Eo; [discriminate|].
    exists best, others, bo, oo. split; [reflexivity|]. split; [reflexivity|].
    cbn [combine] in Hp, Hs.
    assert (Hin : In (best, bo) (map (fun j => (j, nth j mrow 0%Q)) idxs)).
    { rewrite <- Hpairs. apply (Permutation_in _ Hp). now left. }
    apply in_map_iff in Hin. destruct Hin as [j0 [Hj0 _]].
    inversion Hj0; subst. split; [reflexivity|].
    intros j Hj.
    assert (Hjin : In (j, nth j mrow 0%Q) ((best, nth best mrow 0%Q) :: combine others oo)).
    { apply (Permutation_in _ (Permutation_sym Hp)). rewrite Hpairs.
      apply (in_map (fun j1 => (j1, nth j1 mrow 0%Q))). exact Hj. }
    destruct Hjin as [Heq | Hrest].
    + inversion Heq. apply Qle_refl.
    + inversion Hs as [|? ? _ Hall]; subst.
      rewrite Forall_forall in Hall. exact (Hall _ Hrest).
Qed.

Lemma best_match_is_maximum_witness :
  let s' := fst (loop_body stable_argsort
                           [[1#2; 0; 1#2; 3#4]] [[true; false; true; true]]
                           0 fresh {| pairs := []; overlaps := OvList [] |}) in
  NoDup (obj_match s') /\
  (forall j, In j (obj_match s') <-> In j (where_true [true; false; true; true])) /\
  exists best others best_ovl other_ovls,
    obj_match s' = best :: others /\
    match_overlap s' = best_ovl :: other_ovls /\
    best_ovl = nth best [1#2; 0; 1#2; 3#4] 0%Q /\
    forall j, In j (where_true [true; false; true; true]) ->
      (nth j [1#2; 0; 1#2; 3#4] 0 <= best_ovl)%Q.
Proof.
  apply (best_match_is_maximum stable_argsort
           [[1#2; 0; 1#2; 3#4]] [[true; false; true; true]]
           0%nat fresh {| pairs := []; overlaps := OvList [] |}
           [true; false; true; true] [1#2; 0; 1#2; 3#4]);
    [exact sorts_stable | reflexivity | reflexivity | reflexivity | discriminate].
Defined.

(** X2: whichever branch the loop body takes on a source, the bookkeeping
    it leaves is consistent: [match] and [match_overlap] have the same length,
    which is the number of valid targets of the row, and [is_matched] holds
    exactly when [match] is not empty. *)
Theorem bookkeeping_invariant (argsort : list Q -> list nat)
    (ovl_matrix : list (list Q))
    (ovl_valid : list (list bool)) (i : nat) (s : obj) (st : locals)
    (vrow : list bool) (mrow : list Q) :
  sorts argsort ->
  nth_error ovl_valid i = Some vrow ->
  nth_error ovl_matrix i = Some mrow ->
  length vrow = length mrow ->
  let s' := fst (loop_body argsort ovl_matrix ovl_valid i s st) in
  length (obj_match s') = length (where_true vrow) /\
  length (match_overlap s') = length (where_true vrow) /\
  is_matched s' = negb (Nat.eqb (length (obj_match s')) 0).
Proof.
  intros Hsorts Hv Hm Hlen s'.
  destruct (where_true vrow) as [|j0 js] eqn:Hw.
  - unfold s', loop_body. rewrite Hv, Hw.
    destruct (overlaps st); repeat split.
  - assert (Hne : where_true vrow <> []) by (rewrite Hw; discriminate).
    unfold s'.
    rewrite (matched_branch_fields argsort ovl_matrix ovl_valid i s st vrow mrow
               Hv Hm Hlen Hne).
    cbn [obj_match match_overlap is_matched]. unfold take_at.
    rewrite !length_map, !length_rev.
    rewrite (Permutation_length (proj1 (Hsorts _))).
    rewrite length_seq, length_map.
    rewrite Hw. repeat split.
Qed.

Lemma bookkeeping_invariant_witness :
  let s' := fst (loop_body stable_argsort
                           [[1#2; 0]; [0; 0]] [[true; false]; [false; false]]
                           1 fresh {| pairs := []; overlaps := OvList [] |}) in
  length (obj_match s') = length (where_true [false; false]) /\
  length (match_overlap s') = length (where_true [false; false]) /\
  is_matched s' = negb (Nat.eqb (length (obj_match s')) 0).
Proof.
  apply (bookkeeping_invariant stable_argsort
           [[1#2; 0]; [0; 0]] [[true; false]; [false; false]]
           1%nat fresh {| pairs := []; overlaps := OvList [] |}
           [false; false] [0; 0]%Q); [exact sorts_stable | | | ]; reflexivity.
Defined.

Lemma all_unmatched_witness :
  generate_matches stable_argsort [fresh; fresh] [fresh] "" ""
                   [[0]; [0]]%Q [[false]; [false]]
  = ([unmatched; unmatched],
     Ok ([(0%nat, None); (1%nat, None)], OvList [(-1)%Q; (-1)%Q])).
Proof.
  apply (generate_matches_all_unmatched stable_argsort [fresh; fresh] [fresh] "" ""
           [[0]; [0]]%Q [[false]; [false]]);
    [reflexivity | repeat constructor].
Defined.

(** X4: [generate_matches] raises [NameError] at the first source that has
    a valid target: the sources before it are marked unmatched, that source
    is marked matched, the sources after it keep the bookkeeping they had, and
    no pair list is returned. *)
Theorem generate_matches_stops (argsort : list Q -> list nat)
    (before after : list obj) (s : obj)
    (target_objs : list obj) (prefix suffix : string)
    (ovl_matrix : list (list Q)) (ovl_valid : list (list bool))
    (vrow : list bool) (mrow : list Q) :
  (forall k, (k < length before)%nat ->
     exists row, nth_error ovl_valid k = Some row /\ where_true row = []) ->
  nth_error ovl_valid (length before) = Some vrow ->
  nth_error ovl_matrix (length before) = Some mrow ->
  length vrow = length mrow ->
  where_true vrow <> [] ->
  exists s',
    generate_matches argsort (before ++ s :: after) target_objs prefix suffix
                     ovl_matrix ovl_valid
    = (map (fun _ => unmatched) before ++ s' :: after,
       Raise (NameError "truth_objs")) /\
    is_matched s' = true.
Proof.
  intros Hrows Hv Hm Hlen Hne. unfold generate_matches.
  destruct (stops_at_first_matched argsort ovl_matrix ovl_valid before 0%nat
              {| pairs := []; overlaps := OvList [] |} s after vrow mrow)
    as [st' Hloop]; auto.
  - now exists [].
  - rewrite Hloop. simpl.
    eexists. split; [reflexivity|].
    now rewrite (matched_branch_fields argsort ovl_matrix ovl_valid
                   (length before) s st' vrow mrow Hv Hm Hlen Hne).
Qed.

Lemma generate_matches_stops_witness :
  exists s',
    generate_matches stable_argsort ([fresh] ++ fresh :: [fresh; fresh])
                     [fresh] "" ""
                     [[0]; [1#2]; [0]; [1#2]] [[false]; [true]; [false]; [true]]
    = (map (fun _ => unmatched) [fresh] ++ s' :: [fresh; fresh],
       Raise (NameError "truth_objs")) /\
    is_matched s' = true.
Proof.
  apply (generate_matches_stops stable_argsort [fresh] [fresh; fresh] fresh
           [fresh] "" ""
           [[0]; [1#2]; [0]; [1#2]] [[false]; [true]; [false]; [true]]
           [true] [1#2]);
    [ | reflexivity | reflexivity | reflexivity | discriminate].
  intros k Hk. exists [false]. simpl in Hk.
  destruct k; [split; reflexivity | lia].
Defined.

(** * Construction of the matching post-processor *)

Section MatchSetupFacts.

Import MatchSetup.

Lemma make_matcher_raises (k : matcher_cfg) :
  exists e, make_matcher k = Raise e /\
    (Str.mem (match_mode (fields_of k)) match_modes = true ->
     Str.mem (overlap_mode (fields_of k)) overlap_modes = true ->
     e = NameError "weighted") /\
    (Str.mem (match_mode (fields_of k)) match_modes = false ->
     e = invalid_match_mode (fields_of k)) /\
    (Str.mem (match_mode (fields_of k)) match_modes = true ->
     Str.mem (overlap_mode (fields_of k)) overlap_modes = false ->
     e = invalid_overlap_mode (fields_of k)).
Proof.
  unfold make_matcher, post_init.
  destruct (Str.mem (match_mode (fields_of k)) match_modes);
    destruct (Str.mem (overlap_mode (fields_of k)) overlap_modes);
    cbn [negb]; eexists; (split; [reflexivity|]);
    repeat split; intros; congruence.
Qed.

(** X5: [MatchProcessor.__init__] returns for no configuration.  Without
    any block it fails the assertion that asks for one; otherwise the first
    block given decides: an invalid [match_mode] or [overlap_mode] fails its
    assertion, and a block with valid modes (the defaults included) raises
    [NameError] on the undefined name [weighted] of [__post_init__]. *)
Theorem matching_never_constructed
    (fragments particles interactions : option matcher_cfg) :
  exists e, init fragments particles interactions = Raise e /\
    match fragments, particles, interactions with
    | None, None, None => e = no_matcher
    | Some k, _, _ | None, Some k, _ | None, None, Some k =>
      make_matcher k = Raise e /\
      (Str.mem (match_mode (fields_of k)) match_modes = true ->
       Str.mem (overlap_mode (fields_of k)) overlap_modes = true ->
       e = NameError "weighted")
    end.
Proof.
  unfold init, add_matcher.
  destruct fragments as [kf|].
  - destruct (make_matcher_raises kf) as [e [He [Hv _]]].
    exists e. rewrite He. cbn [bind]. auto.
  - destruct particles as [kp|].
    + destruct (make_matcher_raises kp) as [e [He [Hv _]]].
      exists e. cbn [bind]. rewrite He. cbn [bind]. auto.
    + destruct interactions as [ki|].
      * destruct (make_matcher_raises ki) as [e [He [Hv _]]].
        exists e. cbn [bind]. rewrite He. cbn [bind]. auto.
      * exists no_matcher. split; reflexivity.
Qed.

End MatchSetupFacts.

(** * Configuration parsing and batch preparation *)

Section SetupFacts.

Import Manager.
Import Setup.

(** X6: a configuration accepted by [process_main] has a world size of at
    least one, so that the iterations per epoch are always defined; it is
    distributed whenever the world size exceeds one; it casts to numpy
    whenever it unwraps; it sets exactly one of the two budgets; and it has an
    optimizer block whenever it trains.  With [gpus] left at its default
    [None] the call raises [TypeError]. *)
Theorem process_main_settings (gpus : option (list nat)) (distributed' : bool)
    (its eps : option pynum) (train' optimizer_given to_numpy' unwrap' : bool)
    (r : main_settings) :
  process_main gpus distributed' its eps train' optimizer_given
               to_numpy' unwrap' = Ok r ->
  (exists g, gpus = Some g /\ s_world_size r = Nat.max 1 (length g)) /\
  (forall len, exists ipe, iter_per_epoch len (s_world_size r) = Ok ipe) /\
  ((1 < s_world_size r)%nat -> s_distributed r = true) /\
  (distributed' = true -> s_distributed r = true) /\
  (unwrap' = true -> s_to_numpy r = true) /\
  ((its = None /\ eps <> None) \/ (its <> None /\ eps = None)) /\
  (train' = true -> optimizer_given = true).
Proof.
  unfold process_main. destruct gpus as [g|]; [|discriminate].
  destruct (check_budget its eps) as [[]|] eqn:Hb; [|discriminate]. cbn [bind].
  destruct (train' && negb optimizer_given) eqn:Ht; [discriminate|].
  intros H. inversion H; subst; clear H. cbn [s_world_size s_distributed s_to_numpy].
  split; [now exists g|]. split; [|split; [|split; [|split; [|split]]]].
  - intros len. unfold iter_per_epoch.
    destruct (length g); simpl; eexists; reflexivity.
  - intros Hw. apply Nat.ltb_lt in Hw. now rewrite Hw.
  - intros ->. now destruct (Nat.ltb 1 _).
  - intros ->. reflexivity.
  - destruct its, eps; try discriminate; [right | left]; split; congruence.
  - intros ->. destruct optimizer_given; [reflexivity | discriminate].
Qed.

Lemma process_main_settings_witness :
  process_main None false (Some (PInt 10)) None true true true false
    = Raise (TypeError "object of type 'NoneType' has no len()") /\
  exists r,
    process_main (Some [0; 1]%nat) false (Some (PInt 10)) None true true false true
      = Ok r /\
    s_world_size r = 2%nat /\ s_distributed r = true /\ s_to_numpy r = true.
Proof.
  split; [reflexivity|].
  exists {| s_world_size := 2; s_distributed := true; s_to_numpy := true |}.
  split; [reflexivity|].
  destruct (process_main_settings (Some [0; 1]%nat) false (Some (PInt 10)) None
              true true false true
              {| s_world_size := 2; s_distributed := true; s_to_numpy := true |}
              eq_refl) as [_ [_ [Hd [_ [Hn _]]]]].
  split; [reflexivity|]. split; [apply Hd; cbn; lia | now apply Hn].
Defined.

Lemma items_set_new {V : Type} (k : string) (v : V) (d : Dict.t V) :
  ~ In k (Dict.keys d) ->
  Dict.items (Dict.set k v d) = (Dict.items d ++ [(k, v)])%list.
Proof.
  unfold Dict.keys.
  induction d as [|[[k' v']|] r IH]; simpl; intros Hn; [reflexivity| |auto].
  destruct (String.eqb_spec k k') as [->|Hne]; [exfalso; apply Hn; now left|].
  simpl. f_equal. apply IH. intros H. apply Hn. now right.
Qed.

Lemma bind_positional_items (keys inputs : list string) :
  forall d, NoDup keys ->
  (forall k, In k keys -> ~ In k (Dict.keys d)) ->
  (length inputs <= length keys)%nat ->
  exists d', bind_positional keys inputs d = Ok d' /\
    Dict.items d' = (Dict.items d ++ combine keys inputs)%list.
Proof.
  revert keys. induction inputs as [|name rest IH]; intros keys d Hnd Hfresh Hlen.
  - exists d. split; [reflexivity|]. destruct keys; simpl; now rewrite app_nil_r.
  - destruct keys as [|k keys']; [simpl in Hlen; lia|].
    inversion Hnd as [|? ? Hk Hnd']; subst. cbn [bind_positional].
    destruct (IH keys' (Dict.set k name d) Hnd') as [d' [Hb Hi]].
    + intros k0 Hk0 Hin. unfold Dict.keys in Hin.
      rewrite items_set_new in Hin by (apply Hfresh; now left).
      rewrite map_app in Hin. apply in_app_or in Hin.
      destruct Hin as [Hin | [Heq | []]].
      * apply (Hfresh k0); [now right | exact Hin].
      * simpl in Heq. subst k0. contradiction.
    + simpl in Hlen. lia.
    + exists d'. split; [exact Hb|]. rewrite Hi.
      rewrite items_set_new by (apply Hfresh; now left).
      now rewrite <- app_assoc.
Qed.

(** X7: a list given as [network_input] or [loss_input] is bound by
    position: its i-th data product goes to the i-th parameter of the forward
    function, in order, and a list longer than the parameter list raises
    [IndexError]. *)
Theorem positional_inputs (keys inputs : list string) :
  NoDup keys ->
  ((length inputs <= length keys)%nat ->
     exists d, input_mapping keys (AsList inputs) = Ok d /\
               Dict.items d = combine keys inputs) /\
  ((length keys < length inputs)%nat ->
     input_mapping keys (AsList inputs) = Raise IndexError).
Proof.
  intros Hnd. split.
  - intros Hlen.
    destruct (bind_positional_items keys inputs Dict.empty Hnd) as [d [Hb Hi]];
      [intros k _ [] | exact Hlen |].
    exists d. split; [exact Hb | exact Hi].
  - unfold input_mapping. generalize (@Dict.empty string).
    revert keys Hnd. induction inputs as [|name rest IH]; intros keys Hnd d Hlen.
    + simpl in Hlen. lia.
    + destruct keys as [|k keys']; [reflexivity|].
      inversion Hnd; subst. cbn [bind_positional]. apply IH; [assumption|].
      simpl in Hlen. lia.
Qed.

Lemma positional_inputs_witness :
  (exists d, input_mapping ["data"; "coord_label"; "clusts"]%string
                           (AsList ["input_data"; "ppn_label"]%string) = Ok d /\
             Dict.items d = [("data", "input_data"); ("coord_label", "ppn_label")]%string) /\
  input_mapping ["data"]%string (AsList ["input_data"; "ppn_label"]%string)
  = Raise IndexError.
Proof.
  split.
  - apply (proj1 (positional_inputs ["data"; "coord_label"; "clusts"]%string
                    ["input_data"; "ppn_label"]%string
                    ltac:(repeat constructor; simpl; intuition discriminate))).
    simpl. lia.
  - apply (proj2 (positional_inputs ["data"]%string
                    ["input_data"; "ppn_label"]%string
                    ltac:(repeat constructor; simpl; intuition discriminate))).
    simpl. lia.
Defined.

Lemma fetch_all_ok (what : string) (data : Dict.t value)
    (mapping : list (string * string)) :
  forall out,
  (forall p n, In (p, n) mapping -> Dict.mem n data = true) ->
  exists out', fetch_all what data mapping out = Ok out' /\
    (forall p, ~ In p (map fst mapping) -> Dict.get p out' = Dict.get p out) /\
    (NoDup (map fst mapping) ->
     forall p n, In (p, n) mapping ->
       exists v, Dict.get n data = Some v /\ Dict.get p out' = Some (fetch v)).
Proof.
  induction mapping as [|[p0 n0] rest IH]; intros out Hall.
  - exists out. split; [reflexivity|]. split; [reflexivity|]. intros _ p n [].
  - cbn [fetch_all].
    pose proof (Hall p0 n0 (or_introl eq_refl)) as H0. unfold Dict.mem in H0.
    destruct (Dict.get n0 data) as [v0|] eqn:E0; [|discriminate].
    destruct (IH (Dict.set p0 (fetch v0) out)) as [out' [Hf [Hkeep Hget]]].
    { intros p n Hin. apply (Hall p n). now right. }
    exists out'. split; [exact Hf|]. split.
    + intros p Hp. rewrite Hkeep by (intros H; apply Hp; now right).
      apply get_set_ne. intros ->. apply Hp. now left.
    + intros Hnd p n Hin. simpl in Hnd. inversion Hnd as [|? ? Hp0 Hnd']; subst.
      destruct Hin as [Heq | Hin].
      * inversion Heq; subst. exists v0. split; [exact E0|].
        rewrite Hkeep by exact Hp0. apply get_set_eq.
      * now apply Hget.
Qed.

Lemma fetch_all_missing (what : string) (data : Dict.t value)
    (before : list (string * string)) (p n : string)
    (after : list (string * string)) :
  forall out,
  (forall p' n', In (p', n') before -> Dict.mem n' data = true) ->
  Dict.mem n data = false ->
  fetch_all what data (before ++ (p, n) :: after) out
  = Raise (AssertionError ("Must provide " ++ n
             ++ " in the dataloader schema to input into the " ++ what)).
Proof.
  induction before as [|[p0 n0] rest IH]; intros out Hall Hn; cbn [app fetch_all].
  - unfold Dict.mem in Hn. now destruct (Dict.get n data).
  - pose proof (Hall p0 n0 (or_introl eq_refl)) as H0. unfold Dict.mem in H0.
    destruct (Dict.get n0 data); [|discriminate].
    apply IH; [|exact Hn]. intros p' n' Hin. apply (Hall p' n'). now right.
Qed.

(** X8: when the batch holds every configured data product,
    [get_data_minibatch] returns the two input dictionaries, in which every
    configured argument name is bound to the product of the configured name,
    in tensor form when the product is a [TensorBatch]. *)
Theorem minibatch_bindings (input_dict loss_dict : Dict.t string)
    (data : Dict.t value) :
  NoDup (Dict.keys input_dict) ->
  NoDup (Dict.keys loss_dict) ->
  (forall p n, In (p, n) (Dict.items input_dict) -> Dict.mem n data = true) ->
  (forall p n, In (p, n) (Dict.items loss_dict) -> Dict.mem n data = true) ->
  exists inputs labels,
    get_data_minibatch input_dict (Some loss_dict) data = Ok (inputs, labels) /\
    (forall p n, In (p, n) (Dict.items input_dict) ->
       exists v, Dict.get n data = Some v /\ Dict.get p inputs = Some (fetch v)) /\
    (forall p, ~ In p (Dict.keys input_dict) -> Dict.get p inputs = None) /\
    (forall p n, In (p, n) (Dict.items loss_dict) ->
       exists v, Dict.get n data = Some v /\ Dict.get p labels = Some (fetch v)) /\
    (forall p, ~ In p (Dict.keys loss_dict) -> Dict.get p labels = None).
Proof.
  intros Hnd1 Hnd2 Hin1 Hin2. unfold get_data_minibatch.
  destruct (fetch_all_ok "model forward" data (Dict.items input_dict)
              Dict.empty Hin1) as [inputs [Hf1 [Hk1 Hg1]]].
  destruct (fetch_all_ok "loss function" data (Dict.items loss_dict)
              Dict.empty Hin2) as [labels [Hf2 [Hk2 Hg2]]].
  exists inputs, labels. rewrite Hf1. cbn [bind]. rewrite Hf2. cbn [bind].
  split; [reflexivity|]. repeat split.
  - now apply Hg1.
  - intros p Hp. now rewrite Hk1.
  - now apply Hg2.
  - intros p Hp. now rewrite Hk2.
Qed.

Lemma minibatch_bindings_witness :
  let data := Dict.of_items
    [("input_data", VBatch {| kind := TensorBatch; on_numpy := true;
                              payload := [1 # 2]; counts := [1%nat] |});
     ("index", VList [VScalar 7])]%string in
  exists inputs labels,
    get_data_minibatch (Dict.of_items [("data", "input_data")]%string)
                       (Some (Dict.of_items [("ids", "index")]%string)) data
      = Ok (inputs, labels) /\
    Dict.get "data" inputs
      = Some (VBatch {| kind := TensorBatch; on_numpy := false;
                        payload := [1 # 2]; counts := [1%nat] |}) /\
    Dict.get "ids" labels = Some (VList [VScalar 7]).
Proof.
  intros data.
  destruct (minibatch_bindings (Dict.of_items [("data", "input_data")]%string)
              (Dict.of_items [("ids", "index")]%string) data)
    as [inputs [labels [Hr [Hi [_ [Hl _]]]]]].
  - repeat constructor. intros [].
  - repeat constructor. intros [].
  - intros p n [H | []]. inversion H. reflexivity.
  - intros p n [H | []]. inversion H. reflexivity.
  - exists inputs, labels. split; [exact Hr|]. split.
    + destruct (Hi "data"%string "input_data"%string (or_introl eq_refl)) as [v [Hv Hg]].
      vm_compute in Hv. inversion Hv; subst. exact Hg.
    + destruct (Hl "ids"%string "index"%string (or_introl eq_refl)) as [v [Hv Hg]].
      vm_compute in Hv. inversion Hv; subst. exact Hg.
Defined.

(** X9: a configured data product that the batch does not hold makes
    [get_data_minibatch] fail with an assertion error that names the first
    such product: one of the forward inputs first, one of the loss inputs only
    when all forward inputs are there. *)
Theorem minibatch_missing_product (input_dict : Dict.t string)
    (loss_dict : option (Dict.t string)) (data : Dict.t value)
    (before : list (string * string)) (p n : string)
    (after : list (string * string)) :
  (forall p' n', In (p', n') before -> Dict.mem n' data = true) ->
  Dict.mem n data = false ->
  (Dict.items input_dict = (before ++ (p, n) :: after)%list ->
     get_data_minibatch input_dict loss_dict data
     = Raise (AssertionError ("Must provide " ++ n
         ++ " in the dataloader schema to input into the model forward"))) /\
  (forall ld,
     loss_dict = Some ld ->
     (forall p' n', In (p', n') (Dict.items input_dict) -> Dict.mem n' data = true) ->
     Dict.items ld = (before ++ (p, n) :: after)%list ->
     get_data_minibatch input_dict loss_dict data
     = Raise (AssertionError ("Must provide " ++ n
         ++ " in the dataloader schema to input into the loss function"))).
Proof.
  intros Hbefore Hn. split.
  - intros Hitems. unfold get_data_minibatch. rewrite Hitems.
    now rewrite fetch_all_missing.
  - intros ld -> Hall Hitems. unfold get_data_minibatch.
    destruct (fetch_all_ok "model forward" data (Dict.items input_dict)
                Dict.empty Hall) as [inputs [Hf _]].
    rewrite Hf. cbn [bind]. rewrite Hitems.
    now rewrite fetch_all_missing.
Qed.

Lemma minibatch_missing_product_witness :
  get_data_minibatch
    (Dict.of_items [("data", "input_data"); ("clusts", "clusters")]%string)
    None (Dict.of_items [("input_data", VScalar 1)]%string)
  = Raise (AssertionError
      "Must provide clusters in the dataloader schema to input into the model forward").
Proof.
  apply (proj1 (minibatch_missing_product
           (Dict.of_items [("data", "input_data"); ("clusts", "clusters")]%string)
           None (Dict.of_items [("input_data", VScalar 1)]%string)
           [("data", "input_data")]%string "clusts"%string "clusters"%string []
           ltac:(intros p' n' [H | []]; inversion H; reflexivity)
           eq_refl)).
  reflexivity.
Defined.

End SetupFacts.

(** * The batch step *)

Section StepFacts.

Import Manager.
Import StepSpec.
Import Samples.
Import MoreSamples.

Lemma next_from_here {V : Type} (pre rest : Dict.t V) (kv : string * V) :
  Dict.next_from (length pre) (pre ++ Some kv :: rest) = Some (S (length pre), kv).
Proof.
  induction pre as [|e pre IH]; simpl; [reflexivity|]. now rewrite IH.
Qed.

Lemma next_from_skip {V : Type} (pre rest : Dict.t V) :
  Dict.next_from (length pre) (pre ++ None :: rest)
  = Dict.next_from (S (length pre)) (pre ++ None :: rest).
Proof.
  induction pre as [|e pre IH].
  - simpl. destruct rest as [|e r]; simpl; [reflexivity|].
    destruct (Dict.next_from 0 (e :: r)) as [[n kv]|] eqn:E; simpl in E;
      rewrite E; reflexivity.
  - cbn [length app]. cbn [Dict.next_from].
    rewrite IH. reflexivity.
Qed.

Lemma next_from_end {V : Type} (d : Dict.t V) :
  Dict.next_from (length d) d = None.
Proof.
  induction d as [|e d IH]; simpl; [reflexivity|]. now rewrite IH.
Qed.

Lemma step_loop_skip (c : config) (remaining used : nat) (pre rest : Dict.t value) :
  step_loop c remaining used (length pre) (pre ++ None :: rest)
  = step_loop c remaining used (S (length pre)) (pre ++ None :: rest).
Proof. rewrite !step_loop_eq, next_from_skip. reflexivity. Qed.

Lemma keys_app {V : Type} (a b : Dict.t V) :
  Dict.keys (a ++ b) = Dict.keys a ++ Dict.keys b.
Proof. unfold Dict.keys. now rewrite items_app, map_app. Qed.

Lemma set_in_place {V : Type} (k : string) (v v' : V) (pre rest : Dict.t V) :
  ~ In k (Dict.keys pre) ->
  Dict.set k v' (pre ++ Some (k, v) :: rest) = pre ++ Some (k, v') :: rest.
Proof.
  unfold Dict.keys.
  induction pre as [|[[k0 v0]|] pre IH]; simpl; intros Hn.
  - now rewrite String.eqb_refl.
  - destruct (String.eqb_spec k k0) as [->|_]; [exfalso; apply Hn; now left|].
    f_equal. apply IH. intros H. apply Hn. now right.
  - f_equal. now apply IH.
Qed.

Lemma cast_table_keys (d : Dict.t value) : forall d',
  cast_table d = Ok d' -> Dict.keys d' = Dict.keys d /\ length d' = length d.
Proof.
  induction d as [|[[k v]|] r IH]; intros d' H; simpl in H.
  - inversion H. now split.
  - destruct (cast_output k v) as [v'|]; [|discriminate]. cbn [bind] in H.
    destruct (cast_table r) as [r'|]; [|discriminate]. inversion H; subst.
    destruct (IH r' eq_refl) as [Hk Hl]. unfold Dict.keys in *. simpl.
    split; [now rewrite Hk | now rewrite Hl].
  - destruct (cast_table r) as [r'|]; [|discriminate]. inversion H; subst.
    destruct (IH r' eq_refl) as [Hk Hl]. unfold Dict.keys in *. simpl.
    split; [exact Hk | now rewrite Hl].
Qed.

(** The loop over a stretch [good] of the table whose values all cast and
    whose keys are all kept: every value is replaced in place, and the loop
    goes on behind the stretch. *)
Lemma cast_stretch (c : config) (used : nat) (good : Dict.t value) :
  to_numpy c = true ->
  forall good' remaining pre tail,
  cast_table good = Ok good' ->
  all_kept c good ->
  NoDup (Dict.keys (pre ++ good ++ tail)) ->
  Dict.len (pre ++ good ++ tail) = used ->
  (Dict.len good <= remaining)%nat ->
  step_loop c remaining used (length pre) (pre ++ good ++ tail)
  = step_loop c (remaining - Dict.len good) used (length (pre ++ good'))
              (pre ++ good' ++ tail).
Proof.
  intros Hnp. induction good as [|[[k v]|] g IH];
    intros good' remaining pre tail Hc Hkept Hnd Hused Hlen; simpl in Hc.
  - injection Hc as <-. unfold Dict.len. simpl.
    now rewrite Nat.sub_0_r, app_nil_r.
  - destruct (cast_output k v) as [v'|] eqn:Ev; [|discriminate]. cbn [bind] in Hc.
    destruct (cast_table g) as [g'|] eqn:Eg; [|discriminate].
    injection Hc as <-.
    unfold Dict.len in Hlen. simpl in Hlen.
    destruct remaining as [|rem]; [lia|].
    rewrite step_loop_eq, Hused, Nat.eqb_refl. cbn [negb app].
    rewrite next_from_here.
    unfold step_body. rewrite Hnp, (Hkept k) by (unfold Dict.keys; simpl; now left).
    rewrite Ev.
    assert (Hfresh : ~ In k (Dict.keys pre)).
    { rewrite keys_app in Hnd. unfold Dict.keys at 2 in Hnd. simpl in Hnd.
      apply NoDup_remove_2 in Hnd. intros H. apply Hnd.
      apply in_or_app. now left. }
    rewrite set_in_place by exact Hfresh.
    replace (pre ++ Some (k, v') :: g ++ tail)
      with ((pre ++ [Some (k, v')]) ++ g ++ tail) by now rewrite <- app_assoc.
    replace (S (length pre)) with (length (pre ++ [Some (k, v')]))
      by (rewrite length_app; simpl; lia).
    rewrite (IH g' rem (pre ++ [Some (k, v')]) tail eq_refl).
    + unfold Dict.len. simpl. f_equal.
      * now rewrite <- !app_assoc.
      * now rewrite <- !app_assoc.
    + intros k0 Hk0. apply Hkept. unfold Dict.keys in *. simpl. now right.
    + rewrite <- app_assoc. simpl.
      rewrite keys_app in *. unfold Dict.keys in *. simpl in *. exact Hnd.
    + rewrite <- app_assoc. simpl. rewrite <- Hused.
      unfold Dict.len. rewrite !items_app. simpl.
      rewrite ?items_app, !length_app. simpl. rewrite ?length_app. reflexivity.
    + unfold Dict.len. lia.
  - destruct (cast_table g) as [g'|] eqn:Eg; [|discriminate].
    injection Hc as <-. cbn [app].
    rewrite step_loop_skip.
    replace (pre ++ None :: g ++ tail)
      with ((pre ++ [None]) ++ g ++ tail) by now rewrite <- app_assoc.
    replace (S (length pre)) with (length (pre ++ [None]))
      by (rewrite length_app; simpl; lia).
    rewrite (IH g' remaining (pre ++ [None]) tail eq_refl).
    + unfold Dict.len. simpl. f_equal.
      * now rewrite <- !app_assoc.
      * now rewrite <- !app_assoc.
    + intros k0 Hk0. apply Hkept. exact Hk0.
    + rewrite <- app_assoc. simpl.
      rewrite keys_app in *. unfold Dict.keys in *. simpl in *. exact Hnd.
    + rewrite <- app_assoc. simpl. rewrite <- Hused.
      unfold Dict.len. rewrite !items_app. simpl.
      rewrite ?items_app, !length_app. simpl. rewrite ?length_app. reflexivity.
    + exact Hlen.
Qed.

Lemma cast_table_len (d d' : Dict.t value) :
  cast_table d = Ok d' -> Dict.len d' = Dict.len d.
Proof.
  intros H. apply cast_table_keys in H. destruct H as [Hk _].
  unfold Dict.len. unfold Dict.keys in Hk.
  now rewrite <- (length_map fst (Dict.items d')), Hk, length_map.
Qed.

Lemma no_key_error (c : config) (forward_out loss_out : Dict.t value) :
  (has_loss c = true -> train c = true ->
   Dict.mem "loss" (merged_output c forward_out loss_out) = true) ->
  has_loss c && train c &&
    negb (Dict.mem "loss" (merged_output c forward_out loss_out)) = false.
Proof.
  intros H. destruct (has_loss c); [|reflexivity].
  destruct (train c); [|reflexivity]. now rewrite H.
Qed.

(** X10: with the cast to numpy on and no key to filter out, [step] returns
    the outputs of the model and of the loss under their keys, in the order of
    the dictionary, each value replaced by its cast, provided every value has
    one. *)
Theorem step_casts_every_output (c : config)
    (forward_out loss_out d' : Dict.t value) :
  to_numpy c = true ->
  (has_loss c = true -> train c = true ->
   Dict.mem "loss" (merged_output c forward_out loss_out) = true) ->
  all_kept c (merged_output c forward_out loss_out) ->
  NoDup (Dict.keys (merged_output c forward_out loss_out)) ->
  cast_table (merged_output c forward_out loss_out) = Ok d' ->
  step c forward_out loss_out = (d', Ok d').
Proof.
  intros Hnp Hloss Hkept Hnd Hcast. unfold step.
  change (if has_loss c then Dict.update forward_out (Dict.items loss_out)
          else forward_out) with (merged_output c forward_out loss_out).
  rewrite (no_key_error c forward_out loss_out Hloss).
  set (d0 := merged_output c forward_out loss_out) in *.
  pose proof (cast_stretch c (Dict.len d0) d0 Hnp d' (Dict.len d0) [] []) as Hs.
  cbn [app length] in Hs. rewrite !app_nil_r in Hs.
  rewrite Hs by auto. rewrite Nat.sub_diag.
  rewrite step_loop_eq, (cast_table_len d0 d' Hcast), Nat.eqb_refl. cbn [negb].
  now rewrite next_from_end.
Qed.

Lemma step_casts_every_output_witness :
  let b := {| kind := IndexBatch; on_numpy := false; payload := [3 # 1];
              counts := [1%nat] |} in
  step coordinator
       (Dict.of_items [("clusts", VBatch b); ("accuracy", VTensor [9 # 10])]%string)
       (Dict.of_items [("loss", VScalar (1 # 4))]%string)
  = (Dict.of_items [("clusts", VBatch (to_numpy_batch b));
                    ("accuracy", VScalar (9 # 10));
                    ("loss", VScalar (1 # 4))]%string,
     Ok (Dict.of_items [("clusts", VBatch (to_numpy_batch b));
                        ("accuracy", VScalar (9 # 10));
                        ("loss", VScalar (1 # 4))]%string)).
Proof.
  intros b.
  apply (step_casts_every_output coordinator
           (Dict.of_items [("clusts", VBatch b); ("accuracy", VTensor [9 # 10])]%string)
           (Dict.of_items [("loss", VScalar (1 # 4))]%string)).
  - reflexivity.
  - reflexivity.
  - intros k _. reflexivity.
  - vm_compute. repeat constructor; simpl; intuition discriminate.
  - reflexivity.
Defined.

(** X11: with the cast to numpy on, the first output whose value has no
    cast stops [step] with the error of that cast; the outputs before it have
    already been replaced by their casts in the dictionary, the others are as
    they were. *)
Theorem first_uncastable_output (c : config)
    (forward_out loss_out good good' rest : Dict.t value)
    (key : string) (v : value) (e : exn) :
  to_numpy c = true ->
  (has_loss c = true -> train c = true ->
   Dict.mem "loss" (merged_output c forward_out loss_out) = true) ->
  merged_output c forward_out loss_out = good ++ Some (key, v) :: rest ->
  NoDup (Dict.keys (merged_output c forward_out loss_out)) ->
  all_kept c good ->
  filtered c key = false ->
  cast_table good = Ok good' ->
  cast_output key v = Raise e ->
  step c forward_out loss_out = (good' ++ Some (key, v) :: rest, Raise e).
Proof.
  intros Hnp Hloss Hsplit Hnd Hkept Hkey Hcast Hbad. unfold step.
  change (if has_loss c then Dict.update forward_out (Dict.items loss_out)
          else forward_out) with (merged_output c forward_out loss_out).
  rewrite (no_key_error c forward_out loss_out Hloss).
  rewrite Hsplit in *.
  set (tail := Some (key, v) :: rest) in *.
  set (used := Dict.len (good ++ tail)).
  pose proof (cast_stretch c used good Hnp good' used [] tail Hcast Hkept Hnd eq_refl)
    as Hs.
  cbn [app length] in Hs.
  assert (Hu : (used = Dict.len good + S (Dict.len rest))%nat).
  { unfold used, tail, Dict.len. rewrite items_app, length_app. reflexivity. }
  rewrite Hs by lia.
  replace (used - Dict.len good)%nat with (S (Dict.len rest)) by lia.
  rewrite step_loop_eq.
  assert (Hlen' : Dict.len (good' ++ tail) = used).
  { unfold used, Dict.len. rewrite !items_app, !length_app.
    f_equal. apply (cast_table_len good good' Hcast). }
  rewrite Hlen', Nat.eqb_refl. cbn [negb]. unfold tail.
  rewrite next_from_here. unfold step_body.
  now rewrite Hkey, Hnp, Hbad.
Qed.

Lemma first_uncastable_output_witness :
  step coordinator
       (Dict.of_items [("accuracy", VTensor [9 # 10]);
                       ("logits", VTensor [1 # 2; 1 # 3]);
                       ("count", VTensor [4 # 1])]%string)
       Dict.empty
  = (Dict.of_items [("accuracy", VScalar (9 # 10));
                    ("logits", VTensor [1 # 2; 1 # 3]);
                    ("count", VTensor [4 # 1])]%string,
     Raise (ValueError "Cannot cast output logits to numpy")).
Proof.
  apply (first_uncastable_output coordinator
           (Dict.of_items [("accuracy", VTensor [9 # 10]);
                           ("logits", VTensor [1 # 2; 1 # 3]);
                           ("count", VTensor [4 # 1])]%string)
           Dict.empty
           [Some ("accuracy"%string, VTensor [9 # 10])]
           [Some ("accuracy"%string, VScalar (9 # 10))]
           [Some ("count"%string, VTensor [4 # 1])]
           "logits"%string (VTensor [1 # 2; 1 # 3])).
  - reflexivity.
  - intros _ H. discriminate H.
  - reflexivity.
  - vm_compute. repeat constructor; simpl; intuition discriminate.
  - intros k _. reflexivity.
  - reflexivity.
  - reflexivity.
  - reflexivity.
Defined.

Lemma plain_loop_ok (c : config) (used : nat) :
  to_numpy c = false ->
  forall (remaining : nat) (pre suf : Dict.t value),
  Dict.len (pre ++ suf) = used ->
  (Dict.len suf <= remaining)%nat ->
  all_kept c suf ->
  step_loop c remaining used (length pre) (pre ++ suf) = (pre ++ suf, Ok tt).
Proof.
  intros Hnp. induction remaining as [|rem IH]; intros pre suf Hused Hlen Hkept;
    rewrite step_loop_eq, Hused, Nat.eqb_refl; cbn [negb];
    pose proof (next_from_split pre suf) as Hn;
    destruct (Dict.next_from (length pre) (pre ++ suf)) as [[pos' [key v]]|];
    try reflexivity.
  - exfalso. destruct Hn as [sk [rest [-> [Hsk _]]]].
    unfold Dict.len in Hlen. rewrite items_app in Hlen.
    rewrite length_app in Hlen. simpl in Hlen. lia.
  - destruct Hn as [sk [rest [-> [Hsk ->]]]].
    unfold step_body. rewrite Hnp.
    rewrite (Hkept key)
      by (rewrite keys_app; apply in_or_app; right; unfold Dict.keys; simpl; now left).
    replace (pre ++ sk ++ Some (key, v) :: rest)
      with ((pre ++ sk ++ [Some (key, v)]) ++ rest) by (now rewrite <- !app_assoc).
    apply IH.
    + rewrite <- Hused. now rewrite <- !app_assoc.
    + unfold Dict.len in *. rewrite items_app, Hsk in Hlen. simpl in Hlen. lia.
    + intros k Hk. apply Hkept. rewrite keys_app. apply in_or_app. right.
      unfold Dict.keys in *. simpl. now right.
Qed.

Lemma get_in_items {V : Type} (k : string) (v : V) (d : Dict.t V) :
  Dict.get k d = Some v -> In (k, v) (Dict.items d).
Proof.
  induction d as [|[[k' v']|] r IH]; simpl; intros H; [discriminate| |auto].
  destruct (String.eqb_spec k k') as [->|_]; [inversion H; now left | right; auto].
Qed.

Lemma get_none_keys {V : Type} (k : string) (d : Dict.t V) :
  Dict.get k d = None -> ~ In k (Dict.keys d).
Proof.
  unfold Dict.keys.
  induction d as [|[[k' v']|] r IH]; simpl; intros H; [tauto| |auto].
  destruct (String.eqb_spec k k') as [->|Hne]; [discriminate|].
  intros [Heq | Hin]; [congruence | now apply IH].
Qed.

(** X12: with the cast to numpy off and no key to filter out, [step]
    returns the output of the model updated with the output of the loss: a key
    of the loss output carries the value of the loss, every other key the value
    of the model. *)
Theorem plain_step_returns_merged (c : config)
    (forward_out loss_out : Dict.t value) :
  to_numpy c = false ->
  has_loss c = true ->
  (train c = true -> Dict.mem "loss" (merged_output c forward_out loss_out) = true) ->
  all_kept c (merged_output c forward_out loss_out) ->
  NoDup (Dict.keys loss_out) ->
  exists d,
    step c forward_out loss_out = (d, Ok d) /\
    forall k, Dict.get k d = match Dict.get k loss_out with
                             | Some v => Some v
                             | None => Dict.get k forward_out
                             end.
Proof.
  intros Hnp Hl Hloss Hkept Hnd.
  exists (merged_output c forward_out loss_out). split.
  - unfold step.
    change (if has_loss c then Dict.update forward_out (Dict.items loss_out)
            else forward_out) with (merged_output c forward_out loss_out).
    rewrite (no_key_error c forward_out loss_out (fun _ => Hloss)).
    pose proof (plain_loop_ok c (Dict.len (merged_output c forward_out loss_out))
                  Hnp (Dict.len (merged_output c forward_out loss_out)) []
                  (merged_output c forward_out loss_out) eq_refl
                  (Nat.le_refl _) Hkept) as H.
    cbn [app length] in H. now rewrite H.
  - intros k. unfold merged_output. rewrite Hl.
    destruct (Dict.get k loss_out) as [v|] eqn:E.
    + apply get_update_in; [exact Hnd | now apply get_in_items].
    + apply get_update_notin. now apply get_none_keys.
Qed.

Lemma plain_step_returns_merged_witness :
  exists d,
    step plain_trainer
         (Dict.of_items [("loss", VScalar 0); ("accuracy", VScalar (1 # 2))]%string)
         (Dict.of_items [("loss", VScalar (3 # 4))]%string)
    = (d, Ok d) /\
    Dict.get "loss" d = Some (VScalar (3 # 4)) /\
    Dict.get "accuracy" d = Some (VScalar (1 # 2)).
Proof.
  destruct (plain_step_returns_merged plain_trainer
              (Dict.of_items [("loss", VScalar 0); ("accuracy", VScalar (1 # 2))]%string)
              (Dict.of_items [("loss", VScalar (3 # 4))]%string))
    as [d [Hs Hg]].
  - reflexivity.
  - reflexivity.
  - reflexivity.
  - intros k _. reflexivity.
  - repeat constructor. intros [].
  - exists d. split; [exact Hs|]. split; rewrite Hg; reflexivity.
Defined.

Lemma plain_step_raises_witness :
  snd (step (filtering false (Some ["segmentation"%string]) None)
            two_outputs Dict.empty)
  = Raise (RuntimeError "dictionary changed size during iteration").
Proof.
  apply (plain_step_raises (filtering false (Some ["segmentation"%string]) None)
           two_outputs Dict.empty "embeddings"%string);
    [reflexivity | reflexivity | left; reflexivity | reflexivity].
Defined.

End StepFacts.

(** * The run loop *)

Section RunFacts.

Import Manager.
Import RunSpec.
Import Samples.

Variable c : config.
Variable train_step : Z -> mstate -> mstate.
Hypothesis Hcan : can_iterate c.

Lemma body_runs (ipe : Q) (st : runstate) :
  exists st',
    iteration_body c train_step ipe st = (st', Ok tt) /\
    rs_iteration st' = (rs_iteration st + 1)%Z /\
    executed (rs_trace st') = executed (rs_trace st) ++ [rs_iteration st].
Proof.
  destruct Hcan as [Hcad Hpre]. unfold iteration_body, save_step.
  destruct (Z.eqb_spec (checkpoint_step c) 0); [contradiction|].
  destruct (train c && _ && main_process c) eqn:Hdue.
  - unfold save_state.
    destruct (String.eqb_spec (weight_prefix c) ""); [contradiction|].
    assert (Ht : train c = true) by (destruct (train c); [reflexivity | discriminate]).
    rewrite Ht. cbn [negb bind]. eexists. split; [reflexivity|].
    cbn [rs_iteration rs_trace]. split; [reflexivity|].
    rewrite !executed_app. destruct (has_writer c); cbn; now rewrite ?app_nil_r.
  - eexists. split; [reflexivity|].
    cbn [rs_iteration rs_trace]. split; [reflexivity|].
    rewrite !executed_app. destruct (has_writer c); cbn; now rewrite ?app_nil_r.
Qed.

Lemma consecutive_snoc (start : Z) (n : nat) :
  consecutive start (S n) = consecutive start n ++ [(start + Z.of_nat n)%Z].
Proof.
  unfold consecutive. rewrite seq_S, map_app. reflexivity.
Qed.

Lemma consecutive_app (start : Z) (n k : nat) :
  consecutive start (n + k)
  = consecutive start n ++ consecutive (start + Z.of_nat n) k.
Proof.
  induction k as [|k IH].
  - rewrite Nat.add_0_r. unfold consecutive at 3. simpl. now rewrite app_nil_r.
  - rewrite Nat.add_succ_r, !consecutive_snoc, IH, <- app_assoc.
    do 3 f_equal. lia.
Qed.

Lemma iterate_runs (ipe : Q) (n : nat) : forall st,
  exists st',
    iterate c train_step ipe n st = (st', Ok tt) /\
    rs_iteration st' = (rs_iteration st + Z.of_nat n)%Z /\
    executed (rs_trace st')
    = executed (rs_trace st) ++ consecutive (rs_iteration st) n.
Proof.
  induction n as [|n IH]; intros st.
  - exists st. split; [reflexivity|]. split; [lia|].
    unfold consecutive. simpl. now rewrite app_nil_r.
  - destruct (body_runs ipe st) as [st1 [Hb [Hit Hex]]].
    destruct (IH st1) as [st2 [Hi [Hit2 Hex2]]].
    exists st2. cbn [iterate]. rewrite Hb, Hi. split; [reflexivity|].
    split; [lia|]. rewrite Hex2, Hex, Hit, <- app_assoc. f_equal.
    change (S n) with (1 + n)%nat. rewrite consecutive_app. f_equal.
    unfold consecutive. simpl. f_equal. lia.
Qed.

Lemma int_epoch_len (total : Z) (e len : nat) :
  range_len (n_iterations (PInt total) e len) = Ok (epoch_size total len e).
Proof.
  unfold n_iterations, py_min, epoch_size. cbn [sub_int to_Q].
  destruct (Qlt_le_dec _ _) as [Hlt | Hle]; cbn [range_len]; f_equal.
  - rewrite <- Zlt_Qlt in Hlt. lia.
  - rewrite <- Zle_Qle in Hle. lia.
Qed.

Lemma with_epoch_set (st : runstate) (e : nat) :
  let st1 := if distributed c
             then {| rs_state := rs_state st; rs_files := rs_files st;
                     rs_trace := rs_trace st ++ [SetEpoch e];
                     rs_iteration := rs_iteration st |}
             else st in
  rs_iteration st1 = rs_iteration st /\
  executed (rs_trace st1) = executed (rs_trace st).
Proof.
  destruct (distributed c); cbn; [|now split].
  rewrite executed_app. cbn. now rewrite app_nil_r.
Qed.

Lemma epoch_loop_int (ipe : Q) (total : Z) (es : list nat) : forall st,
  exists st',
    epoch_loop c train_step ipe (PInt total) es st = (st', Ok tt) /\
    executed (rs_trace st')
    = executed (rs_trace st)
      ++ consecutive (rs_iteration st)
           (list_sum (map (epoch_size total (loader_len c)) es)).
Proof.
  induction es as [|e rest IH]; intros st.
  - exists st. split; [reflexivity|]. unfold consecutive. simpl.
    now rewrite app_nil_r.
  - cbn [epoch_loop]. destruct (with_epoch_set st e) as [Hit Hex].
    set (st1 := if distributed c then _ else st) in *.
    rewrite int_epoch_len.
    destruct (iterate_runs ipe (epoch_size total (loader_len c) e) st1)
      as [st2 [Hi [Hit2 Hex2]]].
    rewrite Hi. destruct (IH st2) as [st3 [He Hex3]].
    exists st3. split; [exact He|].
    rewrite Hex3, Hex2, Hex, Hit2, Hit, <- app_assoc. f_equal.
    rewrite <- consecutive_app. reflexivity.
Qed.

Lemma sum_epochs (total : Z) (len E : nat) :
  (0 <= total)%Z ->
  list_sum (map (epoch_size total len) (seq 0 E))
  = Z.to_nat (Z.min total (Z.of_nat E * Z.of_nat len)).
Proof.
  intros Hn. induction E as [|E IH].
  - simpl. lia.
  - rewrite seq_S, map_app, list_sum_app, IH. cbn [map list_sum Nat.add].
    unfold epoch_size. rewrite Nat2Z.inj_succ, Z.mul_succ_l.
    set (p := (Z.of_nat E * Z.of_nat len)%Z).
    assert (0 <= p)%Z by (unfold p; lia).
    unfold list_sum. cbn [fold_right]. lia.
Qed.

Lemma iter_per_epoch_bounds (len world : nat) :
  len <> 0%nat -> world <> 0%nat ->
  exists ipe, iter_per_epoch len world = Ok ipe /\ is_zero ipe = false /\
    (0 < ipe)%Q /\ (ipe <= inject_Z (Z.of_nat len))%Q.
Proof.
  intros Hl Hw.
  destruct (iter_per_epoch_nonzero len world Hl Hw) as [ipe [Hipe Hnz]].
  exists ipe. split; [exact Hipe|]. split; [exact Hnz|].
  unfold iter_per_epoch in Hipe.
  destruct (Nat.eqb_spec world 0); [contradiction|]. injection Hipe as <-.
  assert (HL : (0 < inject_Z (Z.of_nat len))%Q)
    by (change 0%Q with (inject_Z 0); rewrite <- Zlt_Qlt; lia).
  assert (HW : (1 <= inject_Z (Z.of_nat world))%Q)
    by (change 1%Q with (inject_Z 1); rewrite <- Zle_Qle; lia).
  assert (HW0 : (0 < inject_Z (Z.of_nat world))%Q) by lra.
  split.
  - apply Qlt_shift_div_l; [exact HW0 | lra].
  - apply Qle_shift_div_r; [exact HW0|]. nra.
Qed.

(** The number [E] of epochs of a run that starts at iteration zero covers
    the budget: [E * len] is at least [x * ipe] for [x] epochs. *)
Lemma ceiling_covers (x ipe : Q) (len : nat) :
  (0 <= x)%Q -> (0 < ipe)%Q -> (ipe <= inject_Z (Z.of_nat len))%Q ->
  let E := Qceiling (x - inject_Z 0 / ipe) in
  (0 <= E)%Z /\ (x * ipe <= inject_Z E * inject_Z (Z.of_nat len))%Q.
Proof.
  intros Hx Hq Hle E.
  assert (Hxe : (x <= inject_Z E)%Q).
  { unfold E. eapply Qle_trans; [|apply Qle_ceiling].
    unfold Qdiv. change (inject_Z 0) with 0%Q. lra. }
  assert (HE : (0 <= E)%Z).
  { rewrite Zle_Qle. change (inject_Z 0) with 0%Q. lra. }
  split; [exact HE|].
  assert (HEq : (0 <= inject_Z E)%Q) by lra.
  nra.
Qed.

Lemma epoch_loop_float (ipe x : Q) (es : list nat) : forall st,
  (exists e, In e es /\
     ~ (inject_Z (Z.of_nat (loader_len c))
        < x - inject_Z (Z.of_nat e * Z.of_nat (loader_len c)))%Q) ->
  snd (epoch_loop c train_step ipe (PFloat x) es st) = Raise float_range.
Proof.
  induction es as [|e0 rest IH]; intros st [e [Hin Hlast]]; [contradiction|].
  cbn [epoch_loop]. set (st1 := if distributed c then _ else st).
  unfold n_iterations, py_min. cbn [sub_int to_Q].
  destruct (Qlt_le_dec _ _) as [Hlt | Hle]; cbn [range_len]; [|reflexivity].
  destruct (iterate_runs ipe (Z.to_nat (Z.of_nat (loader_len c))) st1)
    as [st2 [Hi _]].
  rewrite Hi. apply IH. exists e. split; [|exact Hlast].
  destruct Hin as [<- | Hin]; [contradiction | exact Hin].
Qed.

End RunFacts.

Lemma rebuilt_can_iterate (c : config) (its eps : pynum) :
  RunSpec.can_iterate c ->
  RunSpec.can_iterate
    {| main_process := main_process c; distributed := distributed c;
       world_size := world_size c; train := train c;
       iterations := Some its; epochs := Some eps;
       checkpoint_step := checkpoint_step c;
       weight_prefix := weight_prefix c;
       restore_optimizer := restore_optimizer c;
       to_numpy := to_numpy c; unwrap := unwrap c;
       model_name := model_name c; has_loss := has_loss c;
       output_keys := output_keys c; ignore_keys := ignore_keys c;
       loader_len := loader_len c; has_writer := has_writer c |}.
Proof. intros H. exact H. Qed.

(** X14: a run that starts at iteration zero with an integer budget of
    [total >= 0] iterations completes after executing exactly the iterations
    [0], [1], ..., [total - 1], in this order, whatever the size of the loader
    and of the world. *)
Theorem integer_budget_runs_exactly (c : config)
    (train_step : Z -> mstate -> mstate) (m : mstate) (fs : filesystem)
    (total : Z) :
  RunSpec.can_iterate c ->
  RunSpec.fresh_start c m ->
  iterations c = Some (PInt total) ->
  epochs c = None ->
  (0 <= total)%Z ->
  world_size c <> 0%nat ->
  loader_len c <> 0%nat ->
  snd (configure_and_run c train_step m fs) = Ok tt /\
  executed (rs_trace (fst (configure_and_run c train_step m fs)))
  = RunSpec.consecutive 0 (Z.to_nat total).
Proof.
  intros Hcan Hfresh Hi He Hn Hw Hl.
  destruct (iter_per_epoch_bounds _ _ Hl Hw) as [ipe [Hipe [Hnz [Hpos Hle]]]].
  unfold configure_and_run. rewrite Hi, He. cbn [check_budget].
  unfold process_io. rewrite Hipe. cbn [bind to_Q].
  assert (HnQ : (0 <= inject_Z total)%Q)
    by (change 0%Q with (inject_Z 0); now rewrite <- Zle_Qle).
  destruct (Qlt_le_dec (inject_Z total) 0) as [Hneg | _]; [exfalso; lra|].
  rewrite Hnz.
  unfold run. cbn [iterations epochs loader_len world_size train].
  rewrite Hipe, Hnz.
  assert (Hstart : (if train c then start_iteration m else 0%Z) = 0%Z).
  { unfold RunSpec.fresh_start in Hfresh. destruct (train c); auto. }
  rewrite Hstart. unfold num_epochs. cbn [to_Q].
  assert (Hx : (0 <= inject_Z total / ipe)%Q).
  { apply Qle_shift_div_l; [exact Hpos | lra]. }
  destruct (ceiling_covers (inject_Z total / ipe) ipe (loader_len c) Hx Hpos Hle)
    as [HE Hcov].
  set (E := Qceiling (inject_Z total / ipe - inject_Z 0 / ipe)) in *.
  set (c' := {| main_process := main_process c |}).
  destruct (epoch_loop_int c' train_step (rebuilt_can_iterate c _ _ Hcan)
              ipe total (seq 0 (Z.to_nat E))
              {| rs_state := m; rs_files := fs; rs_trace := [];
                 rs_iteration := 0 |}) as [st' [Hloop Hex]].
  rewrite Hloop. split; [reflexivity|]. cbn [fst]. rewrite Hex.
  cbn [rs_trace rs_iteration executed flat_map app].
  f_equal. unfold c'. cbn [loader_len]. rewrite sum_epochs by exact Hn.
  f_equal. rewrite Z2Nat.id by exact HE.
  assert (Hcov' : (inject_Z total <= inject_Z (E * Z.of_nat (loader_len c)))%Q).
  { rewrite inject_Z_mult. eapply Qle_trans; [|exact Hcov].
    assert (Heq : (inject_Z total / ipe * ipe == inject_Z total)%Q)
      by (field; lra).
    rewrite Heq. apply Qle_refl. }
  rewrite <- Zle_Qle in Hcov'. lia.
Qed.

Lemma integer_budget_runs_exactly_witness :
  snd (configure_and_run (trainer (Some (PInt 6)) None 4) (fun _ m => m)
                         blank no_files) = Ok tt /\
  executed (rs_trace (fst (configure_and_run (trainer (Some (PInt 6)) None 4)
                                             (fun _ m => m) blank no_files)))
  = [0; 1; 2; 3; 4; 5]%Z.
Proof.
  apply (integer_budget_runs_exactly (trainer (Some (PInt 6)) None 4)
           (fun _ m => m) blank no_files 6%Z).
  - split; discriminate.
  - intros _. reflexivity.
  - reflexivity.
  - reflexivity.
  - lia.
  - discriminate.
  - discriminate.
Defined.

(** X15: a run that starts at iteration zero with a budget given in
    epochs (a positive number) never completes: the number of iterations of
    its last epoch, at the latest, is a float, and [range] raises [TypeError]
    on it. *)
Theorem epoch_budget_never_completes (c : config)
    (train_step : Z -> mstate -> mstate) (m : mstate) (fs : filesystem)
    (budget : pynum) :
  RunSpec.can_iterate c ->
  RunSpec.fresh_start c m ->
  iterations c = None ->
  epochs c = Some budget ->
  (0 < to_Q budget)%Q ->
  world_size c <> 0%nat ->
  loader_len c <> 0%nat ->
  snd (configure_and_run c train_step m fs) = Raise RunSpec.float_range.
Proof.
  intros Hcan Hfresh Hi He Hpos Hw Hl.
  destruct (iter_per_epoch_bounds _ _ Hl Hw) as [ipe [Hipe [Hnz [Hq Hle]]]].
  unfold configure_and_run. rewrite Hi, He. cbn [check_budget].
  unfold process_io. rewrite Hipe. cbn [bind].
  unfold run. cbn [iterations epochs loader_len world_size train].
  rewrite Hipe, Hnz.
  assert (Hstart : (if train c then start_iteration m else 0%Z) = 0%Z).
  { unfold RunSpec.fresh_start in Hfresh. destruct (train c); auto. }
  rewrite Hstart. unfold num_epochs.
  destruct (ceiling_covers (to_Q budget) ipe (loader_len c)
              (Qlt_le_weak _ _ Hpos) Hq Hle) as [HE Hcov].
  set (E := Qceiling (to_Q budget - inject_Z 0 / ipe)) in *.
  assert (HE1 : (1 <= E)%Z).
  { assert (Hb : (to_Q budget <= inject_Z E)%Q).
    { unfold E. eapply Qle_trans; [|apply Qle_ceiling].
      unfold Qdiv. change (inject_Z 0) with 0%Q. lra. }
    assert (H0 : (inject_Z 0 < inject_Z E)%Q)
      by (change (inject_Z 0) with 0%Q; lra).
    rewrite <- Zlt_Qlt in H0. lia. }
  set (c' := {| main_process := main_process c |}).
  apply (epoch_loop_float c' train_step (rebuilt_can_iterate c _ _ Hcan)).
  exists (Z.to_nat E - 1)%nat. split.
  - apply in_seq. lia.
  - unfold c'. cbn [loader_len]. intros Hlt.
    assert (Hz : (Z.of_nat (Z.to_nat E - 1) = E - 1)%Z) by lia.
    rewrite inject_Z_mult, Hz in Hlt.
    unfold Z.sub in Hlt. rewrite inject_Z_plus in Hlt.
    change (inject_Z (- (1))) with (- (1))%Q in Hlt.
    set (L := inject_Z (Z.of_nat (loader_len c))) in *.
    nra.
Qed.

Lemma epoch_budget_never_completes_witness :
  snd (configure_and_run (trainer None (Some (PFloat (3 # 2))) 4) (fun _ m => m)
                         blank no_files)
  = Raise (TypeError "'float' object cannot be interpreted as an integer") /\
  executed (rs_trace (fst (configure_and_run (trainer None (Some (PFloat (3 # 2))) 4)
                                             (fun _ m => m) blank no_files)))
  = [0; 1; 2; 3]%Z.
Proof.
  split; [|reflexivity].
  apply (epoch_budget_never_completes (trainer None (Some (PFloat (3 # 2))) 4)
           (fun _ m => m) blank no_files (PFloat (3 # 2))).
  - split; discriminate.
  - intros _. reflexivity.
  - reflexivity.
  - reflexivity.
  - reflexivity.
  - discriminate.
  - discriminate.
Defined.

(** * Checkpoints: saving and loading *)

Section CheckpointFacts.

Import Manager.
Import Samples.

Lemma string_length_append (a b : string) :
  String.length (a ++ b) = (String.length a + String.length b)%nat.
Proof. induction a as [|ch a IH]; simpl; [reflexivity | now rewrite IH]. Qed.

Lemma append_cancel_l (p a b : string) : (p ++ a = p ++ b)%string -> a = b.
Proof.
  induction p as [|ch p IH]; simpl; intros H; [exact H|].
  injection H as H. now apply IH.
Qed.

Lemma append_cancel_r (a b t : string) : (a ++ t = b ++ t)%string -> a = b.
Proof.
  revert b. induction a as [|ch a IH]; intros [|ch' b] H; simpl in H.
  - reflexivity.
  - exfalso. apply (f_equal String.length) in H. simpl in H.
    rewrite string_length_append in H. lia.
  - exfalso. apply (f_equal String.length) in H. simpl in H.
    rewrite string_length_append in H. lia.
  - injection H as -> H. f_equal. now apply IH.
Qed.

Lemma of_int_injective (a b : Z) : Str.of_int a = Str.of_int b -> a = b.
Proof.
  unfold Str.of_int. intros H.
  assert (Hn : forall z, Z.to_int z <> Decimal.Pos Decimal.Nil /\
                         Z.to_int z <> Decimal.Neg Decimal.Nil).
  { intros [|p|p]; simpl; split; try discriminate;
      intros [= Hp]; now apply DecimalPos.Unsigned.to_uint_nonnil in Hp. }
  pose proof (DecimalString.NilZero.isi (Z.to_int a)
                (proj1 (Hn a)) (proj2 (Hn a))) as Ha.
  pose proof (DecimalString.NilZero.isi (Z.to_int b)
                (proj1 (Hn b)) (proj2 (Hn b))) as Hb.
  rewrite H, Hb in Ha. injection Ha as Ha.
  rewrite <- (DecimalZ.of_to a), <- (DecimalZ.of_to b). now rewrite Ha.
Qed.

Lemma checkpoint_name_injective (prefix : string) (a b : Z) :
  checkpoint_name prefix a = checkpoint_name prefix b -> a = b.
Proof.
  unfold checkpoint_name. intros H.
  apply append_cancel_l, append_cancel_l, append_cancel_r in H.
  now apply of_int_injective.
Qed.

(** X16: the checkpoint written by [save_state] at iteration [k] reads
    back as the iteration [k], the state dictionary and the optimizer state at
    the time of the call, and the call leaves the checkpoints of all other
    iterations as they were. *)
Theorem save_state_read_back (c : config) (k : Z) (m : mstate)
    (fs fs' : filesystem) :
  save_state c k m fs = Ok fs' ->
  read_file (checkpoint_name (weight_prefix c) k) (files fs')
  = Some {| global_step := k; state_dict := model_state m;
            optimizer := optimizer_state m |} /\
  forall j, j <> k ->
    read_file (checkpoint_name (weight_prefix c) j) (files fs')
    = read_file (checkpoint_name (weight_prefix c) j) (files fs).
Proof.
  unfold save_state. destruct (String.eqb _ ""); [discriminate|].
  destruct (negb (train c)); [discriminate|].
  intros [= <-]. cbn [write_file files read_file]. split.
  - now rewrite String.eqb_refl.
  - intros j Hj. destruct (String.eqb_spec (checkpoint_name (weight_prefix c) j)
                                           (checkpoint_name (weight_prefix c) k))
      as [Heq|_]; [|reflexivity].
    apply checkpoint_name_injective in Heq. contradiction.
Qed.

Lemma save_state_read_back_witness :
  exists fs1 fs2,
    save_state (trainer (Some (PInt 8)) None 1) 9 blank no_files = Ok fs1 /\
    save_state (trainer (Some (PInt 8)) None 1) 10 abc_model fs1 = Ok fs2 /\
    read_file "weights/snapshot-9.ckpt" (files fs2)
    = Some {| global_step := 9; state_dict := model_state blank;
              optimizer := optimizer_state blank |}.
Proof.
  eexists. eexists. split; [reflexivity|]. split; [reflexivity|].
  rewrite (proj2 (save_state_read_back (trainer (Some (PInt 8)) None 1) 10
                    abc_model _ _ eq_refl) 9%Z ltac:(discriminate)).
  apply (proj1 (save_state_read_back (trainer (Some (PInt 8)) None 1) 9
                  blank no_files _ eq_refl)).
Defined.

End CheckpointFacts.

Section LoadFacts.

Import Manager.
Import Samples.

Lemma roundtrip_restores_witness :
  exists lg m',
    load_weights (trainer (Some (PInt 8)) None 1)
      (write_file "weights/snapshot-9.ckpt"
         {| global_step := 9; state_dict := model_state abc_model;
            optimizer := optimizer_state abc_model |} no_files)
      [("full_chain"%string, "weights/snapshot-9.ckpt"%string, ""%string)]
      MoreSamples.retrained_abc
      = (m', lg, Ok tt) /\
    Dict.items (model_state m') = Dict.items (model_state abc_model) /\
    start_iteration m' = 10%Z.
Proof.
  apply (roundtrip_restores (trainer (Some (PInt 8)) None 1) no_files _
           abc_model MoreSamples.retrained_abc 9 eq_refl eq_refl).
  - right. intros n Hn. cbn in Hn.
    destruct Hn as [<-|[<-|[<-|[]]]]; reflexivity.
  - cbn. repeat constructor; cbn; intuition discriminate.
  - reflexivity.
  - intros n old new Hold Hnew. cbn in Hold, Hnew.
    destruct Hold as [[= <- <-]|[[= <- <-]|[[= <- <-]|[]]]];
      destruct Hnew as [[= <-]|[[= <-]|[[= <-]|[]]]];
      try discriminate; reflexivity.
Defined.

Lemma submodule_keeps_start_iteration_witness :
  start_iteration
    (fst (fst (load_one inference ab_checkpoint
                 ("a"%string, "weights/ab.ckpt"%string, "a"%string)
                 {| model_state := model_state abc_model;
                    optimizer_state := []; start_iteration := 7 |})))
  = 7%Z.
Proof.
  apply (submodule_keeps_start_iteration inference ab_checkpoint
           "a" "weights/ab.ckpt" "a").
  discriminate.
Defined.

(** The two failures that come before any parameter is written, a weight
    file that is not found and a set of weights that is not complete, leave
    the manager as it was. *)
Lemma load_one_early_failure (c : config) (fs : filesystem)
    (entry : string * string * string) (m m' : mstate) (lg : list logrec)
    (e : exn) :
  load_one c fs entry m = (m', lg, Raise e) ->
  (e = incomplete_weights \/ exists module path, e = not_found module path) ->
  m' = m.
Proof.
  destruct entry as [[module model_path] model_name'].
  unfold load_one. intros H He.
  destruct (read_file model_path (files fs)) as [ckpt|].
  - destruct (if String.eqb module (model_name c) then _ else _)
      as [sd [|p ps]].
    + unfold load_state_dict in H.
      destruct (mismatched (model_state m) sd) as [|n ns]; [discriminate|].
      injection H as _ _ <-. exfalso.
      destruct He as [He|[mo [pa He]]]; discriminate He.
    + now injection H as <- _ _.
  - destruct (_ && _); [discriminate | now injection H as <- _ _].
Qed.

Lemma load_loop_app (c : config) (fs : filesystem)
    (first rest : list (string * string * string)) :
  forall (m m1 : mstate) (lg1 : list logrec),
  load_loop c fs first m = (m1, lg1, Ok tt) ->
  load_loop c fs (first ++ rest)%list m
  = let '(m2, lg2, r) := load_loop c fs rest m1 in (m2, (lg1 ++ lg2)%list, r).
Proof.
  induction first as [|entry first IH]; intros m m1 lg1 H.
  - cbn in H. injection H as <- <-. cbn.
    now destruct (load_loop c fs rest m) as [[m2 lg2] r].
  - cbn in H |- *.
    destruct (load_one c fs entry m) as [[m' lg] [[]|e]]; [|discriminate].
    destruct (load_loop c fs first m') as [[m'' lg'] r] eqn:Hl.
    injection H as <- <- ->.
    rewrite (IH m' m'' lg' Hl).
    destruct (load_loop c fs rest m'') as [[m2 lg2] r2].
    now rewrite app_assoc.
Qed.

(** X18: the weight sets are loaded in the order of the list and the
    first one that fails ends the call with its exception: the manager is
    left as that set left it, and the sets after it are never read.  When the
    failure is a weight file that is not found or a set of weights that is not
    complete, the failing set has changed nothing and the manager is as the
    sets before it left it. *)
Theorem load_stops_at_first_failure (c : config) (fs : filesystem)
    (good rest : list (string * string * string))
    (bad : string * string * string)
    (m m1 m2 : mstate) (lg1 lg2 : list logrec) (e : exn) :
  load_loop c fs good m = (m1, lg1, Ok tt) ->
  load_one c fs bad m1 = (m2, lg2, Raise e) ->
  load_loop c fs (good ++ bad :: rest)%list m = (m2, (lg1 ++ lg2)%list, Raise e) /\
  ((e = incomplete_weights \/ exists module path, e = not_found module path) ->
   m2 = m1).
Proof.
  intros Hgood Hbad. split.
  - rewrite (load_loop_app c fs good (bad :: rest) m m1 lg1 Hgood).
    cbn [load_loop]. now rewrite Hbad.
  - exact (load_one_early_failure c fs bad m1 m2 lg2 e Hbad).
Qed.

Lemma load_stops_at_first_failure_witness :
  exists m1 lg,
    load_loop inference ab_checkpoint
      [("a"%string, "weights/ab.ckpt"%string, "a"%string);
       ("c"%string, "weights/ab.ckpt"%string, "c"%string);
       ("b"%string, "weights/ab.ckpt"%string, "b"%string)] abc_model
    = (m1, lg, Raise incomplete_weights) /\
    Dict.items (model_state m1)
    = [("a"%string, flat [7 # 1]); ("b"%string, flat [2 # 1]);
       ("c"%string, flat [3 # 1])].
Proof.
  eexists. eexists. split.
  - eapply (proj1 (load_stops_at_first_failure inference ab_checkpoint
                     [("a"%string, "weights/ab.ckpt"%string, "a"%string)]
                     [("b"%string, "weights/ab.ckpt"%string, "b"%string)]
                     ("c"%string, "weights/ab.ckpt"%string, "c"%string)
                     abc_model _ _ _ _ _ eq_refl eq_refl)).
  - reflexivity.
Defined.










End LoadFacts.

(** * The module blocks of the model configuration *)

Section BlockFacts.

Import Manager.
Import Blocks.
Import MoreSamples.

Lemma pop_nil {A : Type} (l : list A) : pop l = None -> l = [].
Proof.
  unfold pop. destruct (rev l) as [|x r] eqn:H; [|discriminate].
  intros _. apply (f_equal (@rev A)) in H. now rewrite rev_involutive in H.
Qed.

Lemma pop_last {A : Type} (l rest : list A) (x : A) :
  pop l = Some (rest, x) -> l = (rest ++ [x])%list.
Proof.
  unfold pop. destruct (rev l) as [|y r] eqn:H; [discriminate|].
  intros [= <- <-]. apply (f_equal (@rev A)) in H.
  now rewrite rev_involutive in H.
Qed.

Lemma below_dict (module : string) (d : cfgdict) :
  below module (CDict d) = (module, d) :: reached d.
Proof.
  assert (H : forall l : cfgdict,
             (fix inner (l : cfgdict) : list (string * cfgdict) :=
                match l with
                | [] => []
                | (k, v') :: r => (inner r ++ below k v')%list
                end) l = reached l).
  { induction l as [|[k v] r IH]; [reflexivity|].
    cbn [reached]. now rewrite <- IH. }
  simpl. now rewrite H.
Qed.

Lemma reached_app (a b : cfgdict) :
  reached (a ++ b) = (reached b ++ reached a)%list.
Proof.
  induction a as [|[k v] a IH]; cbn [app reached].
  - now rewrite app_nil_r.
  - now rewrite IH, app_assoc.
Qed.

Lemma reached_nested (d : cfgdict) : reached (nested d) = reached d.
Proof.
  unfold nested. induction d as [|[k v] r IH]; [reflexivity|].
  cbn [filter snd]. destruct v; cbn [is_dict reached];
    rewrite IH; try reflexivity; cbn [below]; now rewrite app_nil_r.
Qed.

Lemma nested_blocks (d : cfgdict) : all_blocks (nested d).
Proof.
  unfold all_blocks, nested. apply Forall_forall.
  intros kv H. now apply filter_In in H.
Qed.

(** The loop, when it is not cut short, makes the visits of [reached] in
    a row. *)
Lemma walk_reached {St : Type}
    (visit : string -> cfgdict -> St -> St * result unit) (fuel : nat) :
  forall (module_items : list block) (s : St) (out : St * result unit),
  all_blocks module_items ->
  walk visit fuel module_items s = Some out ->
  out = visit_all visit (reached module_items) s.
Proof.
  induction fuel as [|fuel IH]; intros items s out Hall H; [discriminate|].
  cbn [walk] in H.
  destruct (pop items) as [[rest [module config]]|] eqn:Hpop.
  - apply pop_last in Hpop. subst items.
    apply Forall_app in Hall. destruct Hall as [Hrest Hlast].
    inversion Hlast as [|? ? Hd _]; subst. cbn [snd] in Hd.
    destruct config as [| | | | |d]; try discriminate.
    rewrite reached_app. cbn [reached app]. rewrite below_dict.
    cbn [app visit_all].
    destruct (visit module d s) as [s' [[]|e]].
    + apply IH in H.
      * now rewrite reached_app, reached_nested in H.
      * apply Forall_app. split; [exact Hrest | apply nested_blocks].
    + now injection H as <-.
  - apply pop_nil in Hpop. subst items. now injection H as <-.
Qed.

(** The loop ends: one iteration for each block and one for the exit. *)
Lemma walk_ends {St : Type}
    (visit : string -> cfgdict -> St -> St * result unit) (fuel : nat) :
  forall (module_items : list block) (s : St),
  all_blocks module_items ->
  (length (reached module_items) < fuel)%nat ->
  walk visit fuel module_items s
  = Some (visit_all visit (reached module_items) s).
Proof.
  induction fuel as [|fuel IH]; intros items s Hall Hlen; [lia|].
  cbn [walk].
  destruct (pop items) as [[rest [module config]]|] eqn:Hpop.
  - apply pop_last in Hpop. subst items.
    apply Forall_app in Hall. destruct Hall as [Hrest Hlast].
    inversion Hlast as [|? ? Hd _]; subst. cbn [snd] in Hd.
    destruct config as [| | | | |d]; try discriminate.
    rewrite reached_app in Hlen |- *. cbn [reached app] in Hlen |- *.
    rewrite below_dict in Hlen |- *. cbn [app visit_all length] in Hlen |- *.
    destruct (visit module d s) as [s' [[]|e]]; [|reflexivity].
    rewrite IH.
    + now rewrite reached_app, reached_nested.
    + apply Forall_app. split; [exact Hrest | apply nested_blocks].
    + rewrite reached_app, reached_nested. exact (proj2 (Nat.succ_lt_mono _ _) Hlen).
  - apply pop_nil in Hpop. now subst items.
Qed.

Lemma visit_all_note_path (blocks : list (string * cfgdict)) :
  forall acc : list path_entry,
  visit_all note_path blocks acc
  = ((acc ++ flat_map (fun b => path_of (fst b) (snd b)) blocks)%list, Ok tt).
Proof.
  induction blocks as [|[module d] rest IH]; intros acc; cbn [visit_all flat_map].
  - now rewrite app_nil_r.
  - unfold note_path at 1. rewrite IH. cbn [fst snd]. now rewrite app_assoc.
Qed.

(** X20: the search for weight files ends and lists the full model
    first, then one entry for every block of the configuration, at any
    depth, that has a [model_path] other than the empty string; the blocks
    come in the order of the stack: the last block of a dictionary first and
    the blocks nested in a block right after it. *)
Theorem model_paths_order (c : config) (full_model_path : option string)
    (model_cfg : cfgdict) (fuel : nat) :
  all_blocks model_cfg ->
  (length (reached model_cfg) < fuel)%nat ->
  find_model_paths c full_model_path model_cfg fuel
  = Some ((match full_model_path with
           | Some p => if String.eqb p "" then []
                       else [(model_name c, CStr p, CStr "")]
           | None => []
           end
           ++ flat_map (fun b => path_of (fst b) (snd b)) (reached model_cfg))%list,
          Ok tt).
Proof.
  intros Hall Hlen. unfold find_model_paths.
  rewrite (walk_ends note_path fuel model_cfg _ Hall Hlen).
  now rewrite visit_all_note_path.
Qed.

Lemma model_paths_order_witness :
  find_model_paths Samples.inference (Some "weights/full.ckpt"%string) chain_cfg 4
  = Some ([("full_chain"%string, CStr "weights/full.ckpt", CStr "");
           ("grappa_shower"%string, CStr "weights/shower.ckpt",
            CStr "grappa_shower");
           ("gnn_model"%string, CStr "weights/gnn.ckpt", CStr "gnn")],
          Ok tt).
Proof.
  apply (model_paths_order Samples.inference (Some "weights/full.ckpt"%string)
           chain_cfg 4).
  - repeat constructor.
  - cbn. lia.
Defined.

(** *** Freezing *)

Lemma replace_chars_skip (old new : list ascii) (k : nat) (s : list ascii) :
  Str.replace_chars old new k s = Str.replace_chars old new 0 (skipn k s).
Proof.
  revert k. induction s as [|ch t IH]; intros [|k]; try reflexivity.
  cbn [Str.replace_chars skipn]. apply IH.
Qed.

Lemma starts_with_split (old s : list ascii) :
  Str.starts_with old s = true -> s = (old ++ skipn (length old) s)%list.
Proof.
  revert s. induction old as [|a old IH]; intros s H; [reflexivity|].
  destruct s as [|b s]; [discriminate|]. cbn [Str.starts_with] in H.
  apply andb_true_iff in H. destruct H as [Hab H].
  apply Ascii.eqb_eq in Hab. subst b.
  cbn [length skipn app]. f_equal. now apply IH.
Qed.

Lemma replace_chars_same (old : list ascii) (n : nat) :
  old <> [] ->
  forall s, (length s <= n)%nat -> Str.replace_chars old old 0 s = s.
Proof.
  intros Hold. induction n as [|n IH]; intros s Hlen.
  - destruct s; [reflexivity | cbn in Hlen; lia].
  - destruct s as [|ch t]; [reflexivity|]. cbn [Str.replace_chars].
    destruct (Str.starts_with old (ch :: t)) eqn:Hs.
    + rewrite replace_chars_skip, IH.
      * pose proof (starts_with_split old (ch :: t) Hs) as Hsplit.
        destruct old as [|a old]; [contradiction|].
        cbn [length Nat.pred]. cbn [length skipn] in Hsplit.
        now rewrite <- Hsplit.
      * cbn [length] in Hlen.
        pose proof (length_skipn (Nat.pred (length old)) t). lia.
    + f_equal. apply IH. cbn [length] in Hlen. lia.
Qed.

Lemma replace_same (old s : string) :
  old <> EmptyString -> Str.replace old old s = s.
Proof.
  intros Hold. unfold Str.replace.
  rewrite (replace_chars_same (Str.to_list old) (length (Str.to_list s))).
  - apply of_list_to_list.
  - destruct old; [contradiction | discriminate].
  - apply Nat.le_refl.
Qed.

Lemma str_mem_in (k : string) (l : list string) :
  Str.mem k l = true <-> In k l.
Proof.
  unfold Str.mem. rewrite existsb_exists. split.
  - intros [x [Hin Heq]]. apply String.eqb_eq in Heq. now subst x.
  - intros Hin. exists k. split; [exact Hin | apply String.eqb_refl].
Qed.

Lemma more_frozen_refl (net : network) : more_frozen net net.
Proof.
  unfold more_frozen. repeat split; try reflexivity.
  - apply incl_refl.
  - exists (fun _ => true). rewrite <- (map_id (parameters net)) at 1.
    apply map_ext. intros [n g]. cbn. now rewrite andb_true_r.
Qed.

Lemma more_frozen_trans (a b c : network) :
  more_frozen a b -> more_frozen b c -> more_frozen a c.
Proof.
  intros (H1 & H2 & H3 & H4 & k1 & H5) (G1 & G2 & G3 & G4 & k2 & G5).
  unfold more_frozen. repeat split; try congruence.
  - eapply incl_tran; eassumption.
  - exists (fun n => k1 n && k2 n). rewrite G5, H5, map_map.
    apply map_ext. intros [n g]. cbn. now rewrite andb_assoc.
Qed.

Lemma freeze_block_more_frozen (module : string) (d : cfgdict)
    (s : network * list logrec) :
  more_frozen (fst s) (fst (fst (freeze_block module d s))).
Proof.
  destruct s as [net lg]. unfold freeze_block. cbn [fst].
  assert (Heval : more_frozen net
            {| class_name := class_name net; attributes := attributes net;
               evaluating := (evaluating net ++ [module])%list;
               parameters := parameters net;
               state_keys := state_keys net |}).
  { unfold more_frozen. cbn. repeat split.
    - apply incl_appl, incl_refl.
    - exists (fun _ => true). rewrite <- (map_id (parameters net)) at 1.
      apply map_ext. intros [n g]. cbn. now rewrite andb_true_r. }
  destruct (cfg_truthy _); [|apply more_frozen_refl].
  destruct (Str.mem module (attributes net)); [|apply more_frozen_refl].
  destruct (format_value _) as [stored|].
  - assert (Hfrz : more_frozen net
              {| class_name := class_name net; attributes := attributes net;
                 evaluating := (evaluating net ++ [module])%list;
                 parameters :=
                   map (fun p => (fst p,
                                  if to_freeze module stored (state_keys net) (fst p)
                                  then false else snd p))
                       (parameters net);
                 state_keys := state_keys net |}).
    { unfold more_frozen. cbn. repeat split.
      - apply incl_appl, incl_refl.
      - exists (fun n => negb (to_freeze module stored (state_keys net) n)).
        apply map_ext. intros [n g]. cbn.
        destruct (to_freeze _ _ _ _); cbn;
          [now rewrite andb_false_r | now rewrite andb_true_r]. }
    destruct (Nat.eqb _ 0); exact Hfrz.
  - destruct (existsb _ _); exact Heval.
Qed.

Lemma walk_freeze_more_frozen (fuel : nat) :
  forall (module_items : list block) (s out : network * list logrec)
         (r : result unit),
  walk freeze_block fuel module_items s = Some (out, r) ->
  more_frozen (fst s) (fst out).
Proof.
  induction fuel as [|fuel IH]; intros items s out r H; [discriminate|].
  cbn [walk] in H.
  destruct (pop items) as [[rest [module config]]|].
  - destruct config as [| | | | |d];
      try (injection H as <- _; apply more_frozen_refl).
    pose proof (freeze_block_more_frozen module d s) as Hb.
    destruct (freeze_block module d s) as [s' [[]|e]]; cbn [fst] in Hb.
    + eapply more_frozen_trans; [exact Hb|]. eapply IH. exact H.
    + now injection H as <- _.
  - injection H as <- _. apply more_frozen_refl.
Qed.

(** X21: whatever the configuration and however the call ends,
    [freeze_weights] keeps the parameters of the model in place and never
    makes a frozen parameter trainable again; the keys of the state
    dictionary and the sub-modules are as before. *)
Theorem freeze_never_unfreezes (model_cfg : cfgdict) (fuel : nat)
    (net net' : network) (lg : list logrec) (r : result unit) :
  freeze_weights model_cfg fuel net = Some ((net', lg), r) ->
  map fst (parameters net') = map fst (parameters net) /\
  (forall i n, nth_error (parameters net') i = Some (n, true) ->
               nth_error (parameters net) i = Some (n, true)) /\
  state_keys net' = state_keys net /\
  attributes net' = attributes net.
Proof.
  unfold freeze_weights. intros H.
  apply walk_freeze_more_frozen in H. cbn [fst] in H.
  destruct H as (_ & Hattr & Hkeys & _ & keep & Hpar).
  split; [|split; [|split; assumption]].
  - rewrite Hpar, map_map. reflexivity.
  - intros i n Hi. rewrite Hpar, nth_error_map in Hi.
    destruct (nth_error (parameters net) i) as [[n0 g]|]; [|discriminate].
    cbn in Hi. injection Hi as -> Hg.
    apply andb_true_iff in Hg. now rewrite (proj1 Hg).
Qed.

Lemma freeze_never_unfreezes_witness :
  exists net' lg,
    freeze_weights chain_cfg 4 half_frozen_net = Some ((net', lg), Ok tt) /\
    map fst (parameters net')
    = ["uresnet.conv.weight"%string; "grappa_shower.gnn_model.weight"%string].
Proof.
  eexists. eexists. split; [vm_compute; reflexivity|].
  exact (proj1 (freeze_never_unfreezes chain_cfg 4 half_frozen_net _ _ _ eq_refl)).
Defined.

Lemma more_frozen_stays (a b : network) (n : string) :
  more_frozen a b -> In (n, false) (parameters a) -> In (n, false) (parameters b).
Proof.
  intros (_ & _ & _ & _ & keep & Hpar) Hin. rewrite Hpar.
  apply in_map_iff. exists (n, false). split; [reflexivity | exact Hin].
Qed.

Lemma more_frozen_named (a b : network) (n : string) (g : bool) :
  more_frozen a b -> In (n, g) (parameters a) ->
  exists g', In (n, g') (parameters b).
Proof.
  intros (_ & _ & _ & _ & keep & Hpar) Hin. rewrite Hpar.
  exists (g && keep n). apply in_map_iff. now exists (n, g).
Qed.

Lemma visit_all_more_frozen (blocks : list (string * cfgdict)) :
  forall (s out : network * list logrec) (r : result unit),
  visit_all freeze_block blocks s = (out, r) ->
  more_frozen (fst s) (fst out).
Proof.
  induction blocks as [|[module d] rest IH]; intros s out r H; cbn [visit_all] in H.
  - injection H as <- _. apply more_frozen_refl.
  - pose proof (freeze_block_more_frozen module d s) as Hb.
    destruct (freeze_block module d s) as [s' [[]|e]]; cbn [fst] in Hb.
    + eapply more_frozen_trans; [exact Hb | eapply IH; exact H].
    + now injection H as <- _.
Qed.

Lemma freeze_block_ok (module : string) (d : cfgdict)
    (s s1 : network * list logrec) :
  freeze_block module d s = (s1, Ok tt) ->
  frozen d = true ->
  block_frozen module d (fst s) (fst s1).
Proof.
  destruct s as [net lg]. unfold freeze_block, frozen. intros H Hf.
  rewrite Hf in H. cbn [fst].
  destruct (Str.mem module (attributes net)) eqn:Hattr; [|discriminate].
  destruct (format_value (get_default "model_name" (CStr module) d))
    as [stored|] eqn:Hfmt.
  2:{ destruct (existsb _ _); discriminate. }
  destruct (Nat.eqb _ 0) eqn:Hcount; [discriminate|].
  injection H as <-. cbn [fst parameters evaluating].
  unfold block_frozen. cbn [parameters evaluating attributes state_keys].
  split; [now apply str_mem_in|]. split; [apply in_or_app; right; now left|].
  split.
  - apply Nat.eqb_neq in Hcount.
    destruct (filter _ _) as [|n ns] eqn:Hfil; [contradiction|].
    assert (Hn : In n (filter (to_freeze module stored (state_keys net))
                              (map fst (parameters net))))
      by (rewrite Hfil; now left).
    apply filter_In in Hn. destruct Hn as [Hin Hhit].
    apply in_map_iff in Hin. destruct Hin as [[n0 g] [Heq Hin]].
    cbn in Heq. subst n0. exists n. split.
    + apply in_map_iff. exists (n, g). cbn [fst snd]. now rewrite Hhit.
    + unfold to_freeze in Hhit. now apply andb_true_iff in Hhit.
  - intros Hdef n g Hin Hcont Hkey.
    unfold get_default in Hfmt. rewrite Hdef in Hfmt. cbn in Hfmt.
    injection Hfmt as <-.
    apply in_map_iff. exists (n, g). cbn [fst snd]. split; [|exact Hin].
    unfold to_freeze. rewrite Hcont, replace_same by discriminate.
    now rewrite (proj2 (str_mem_in n (state_keys net)) Hkey).
Qed.

Lemma visit_all_frozen (blocks : list (string * cfgdict)) :
  forall (s out : network * list logrec),
  visit_all freeze_block blocks s = (out, Ok tt) ->
  forall module d, In (module, d) blocks -> frozen d = true ->
  block_frozen module d (fst s) (fst out).
Proof.
  induction blocks as [|[m0 d0] rest IH]; intros s out H module d Hin Hf;
    [contradiction|].
  cbn [visit_all] in H.
  pose proof (freeze_block_more_frozen m0 d0 s) as Hb.
  destruct (freeze_block m0 d0 s) as [s1 [[]|e]] eqn:Hfb; [|discriminate].
  cbn [fst] in Hb.
  pose proof (visit_all_more_frozen rest s1 out (Ok tt) H) as Hrest.
  destruct Hin as [[= -> ->]|Hin].
  - destruct (freeze_block_ok module d s s1 Hfb Hf) as (A & B & (n & C1 & C2) & D).
    split; [exact A|]. split.
    { destruct Hrest as (_ & _ & _ & Hincl & _). now apply Hincl. }
    split.
    { exists n. split; [|exact C2]. eapply more_frozen_stays; eassumption. }
    intros Hdef n' g Hn' Hc Hk.
    eapply more_frozen_stays; [exact Hrest|]. eapply D; eassumption.
  - destruct (IH s1 out H module d Hin Hf) as (A & B & C & D).
    destruct Hb as (_ & Hattr & Hkeys & _ & keep & Hpar).
    split; [now rewrite <- Hattr|]. split; [exact B|]. split; [exact C|].
    intros Hdef n' g Hn' Hc Hk.
    apply (D Hdef n' (g && keep n')); [|exact Hc|now rewrite Hkeys].
    rewrite Hpar. apply in_map_iff. now exists (n', g).
Qed.

(** X22: when [freeze_weights] returns, every block of the
    configuration that asks for it, at any depth, names a sub-module of the
    model that is now in evaluation mode and has at least one parameter
    frozen; when the block gives no [model_name], every parameter of the state
    dictionary whose name contains the name of the block is frozen, also a
    parameter of another module whose name merely contains it. *)
Theorem frozen_blocks_effect (model_cfg : cfgdict) (fuel : nat)
    (net net' : network) (lg : list logrec) :
  all_blocks model_cfg ->
  freeze_weights model_cfg fuel net = Some ((net', lg), Ok tt) ->
  forall module d,
    In (module, d) (reached model_cfg) ->
    frozen d = true ->
    In module (attributes net) /\
    In module (evaluating net') /\
    (exists n, In (n, false) (parameters net') /\ Str.contains module n = true) /\
    (lookup "model_name" d = None ->
     forall n g, In (n, g) (parameters net) ->
                 Str.contains module n = true ->
                 In n (state_keys net) ->
                 In (n, false) (parameters net')).
Proof.
  unfold freeze_weights. intros Hall H module d Hin Hf.
  apply (walk_reached freeze_block fuel model_cfg _ _ Hall) in H.
  symmetry in H.
  exact (visit_all_frozen (reached model_cfg) (net, []) (net', lg) H
           module d Hin Hf).
Qed.

Lemma frozen_blocks_effect_witness :
  exists net' lg,
    freeze_weights chain_cfg 4 chain_net = Some ((net', lg), Ok tt) /\
    In ("grappa_shower_extra.bias"%string, false) (parameters net').
Proof.
  eexists. eexists. split; [vm_compute; reflexivity|].
  refine (proj2 (proj2 (proj2
            (frozen_blocks_effect chain_cfg 4 chain_net _ _ _ eq_refl
               "grappa_shower"
               [("freeze_weights"%string, CBool true);
                ("model_path"%string, CStr "weights/shower.ckpt");
                ("gnn_model"%string,
                 CDict [("model_path"%string, CStr "weights/gnn.ckpt");
                        ("model_name"%string, CStr "gnn")])]
               _ eq_refl)))
            eq_refl "grappa_shower_extra.bias"%string true _ eq_refl _).
  - repeat constructor.
  - cbn. now left.
  - cbn. tauto.
  - cbn. tauto.
Defined.

(** X23: a block that asks for its weights to be frozen while no
    parameter of the model has a name that contains the name of the block
    makes [freeze_weights] raise: the call never returns having frozen
    nothing for such a block. *)
Theorem freeze_without_weights_raises (model_cfg : cfgdict) (fuel : nat)
    (net : network) (module : string) (d : cfgdict) :
  all_blocks model_cfg ->
  (length (reached model_cfg) < fuel)%nat ->
  In (module, d) (reached model_cfg) ->
  frozen d = true ->
  (forall n g, In (n, g) (parameters net) -> Str.contains module n = false) ->
  exists out e, freeze_weights model_cfg fuel net = Some (out, Raise e).
Proof.
  intros Hall Hlen Hin Hf Hnone. unfold freeze_weights.
  rewrite (walk_ends freeze_block fuel model_cfg _ Hall Hlen).
  destruct (visit_all freeze_block (reached model_cfg) (net, []))
    as [[net' lg] [[]|e]] eqn:Hv.
  - exfalso.
    destruct (visit_all_frozen _ _ _ Hv module d Hin Hf)
      as (_ & _ & (n & Hn & Hc) & _).
    pose proof (visit_all_more_frozen _ _ _ _ Hv) as (_ & _ & _ & _ & keep & Hpar).
    cbn [fst] in Hn, Hpar. rewrite Hpar in Hn.
    apply in_map_iff in Hn. destruct Hn as [[n0 g] [Heq Hin0]].
    injection Heq as -> _. now rewrite (Hnone n g Hin0) in Hc.
  - now exists (net', lg), e.
Qed.

Lemma freeze_without_weights_raises_witness :
  exists out e,
    freeze_weights chain_cfg 4 encoder_only_net = Some (out, Raise e).
Proof.
  apply (freeze_without_weights_raises chain_cfg 4 encoder_only_net "grappa_shower"
           [("freeze_weights"%string, CBool true);
            ("model_path"%string, CStr "weights/shower.ckpt");
            ("gnn_model"%string,
             CDict [("model_path"%string, CStr "weights/gnn.ckpt");
                    ("model_name"%string, CStr "gnn")])]).
  - repeat constructor.
  - cbn. lia.
  - cbn. now left.
  - reflexivity.
  - intros n g [[= <- <-]|[]]. reflexivity.
Defined.

End BlockFacts.

(** * The gather of a distributed run *)

Section WriteFacts.

Import Manager.
Import Samples.

Lemma fetch_every_rank (k : string) (ranks : list (Dict.t value)) :
  (forall r, In r ranks -> Dict.mem k r = true) ->
  exists vs,
    mapM (fun r => match Dict.get k r with
                   | Some v => Ok v
                   | None => Raise (KeyError k)
                   end) ranks = Ok vs /\
    length vs = length ranks.
Proof.
  induction ranks as [|r ranks IH]; intros H.
  - now exists [].
  - destruct IH as [vs [Hvs Hlen]]; [intros r' Hr'; apply H; now right|].
    pose proof (H r (or_introl eq_refl)) as Hr. unfold Dict.mem in Hr.
    destruct (Dict.get k r) as [v|] eqn:Hg; [|discriminate].
    exists (v :: vs). cbn [mapM]. rewrite Hg. cbn [bind]. rewrite Hvs.
    cbn [bind length]. now rewrite Hlen.
Qed.

Lemma aggregate_on_worker (np : numpy) (ranks : list (Dict.t value))
    (keys : list string) (d : Dict.t value) :
  ranks <> [] ->
  (forall k r, In k keys -> In r ranks -> Dict.mem k r = true) ->
  aggregate np false ranks keys d = Ok d.
Proof.
  intros Hne. induction keys as [|k keys IH]; intros H; [reflexivity|].
  cbn [aggregate].
  destruct (fetch_every_rank k ranks) as [vs [Hvs Hlen]].
  { intros r Hr. apply H; [now left | exact Hr]. }
  rewrite Hvs. cbn [bind]. unfold gather_object.
  destruct vs as [|v vs].
  - destruct ranks; [contradiction | discriminate].
  - cbn [map merge_key bind]. apply IH.
    intros k' r Hk' Hr. apply H; [now right | exact Hr].
Qed.

(** X25: in a distributed run, a process that is not the coordinating
    one gathers nothing: whatever the processes hold under the stored keys,
    [write] hands two empty dictionaries to the writer. *)
Theorem write_on_worker (np : numpy) (c : config) (rank : nat)
    (ranks_data ranks_result : list (Dict.t value))
    (data_keys result_keys : list string) :
  distributed c = true ->
  main_process c = false ->
  ranks_data <> [] ->
  ranks_result <> [] ->
  (forall k r, In k data_keys -> In r ranks_data -> Dict.mem k r = true) ->
  (forall k r, In k result_keys -> In r ranks_result -> Dict.mem k r = true) ->
  write np c rank ranks_data ranks_result data_keys result_keys
  = Ok (Dict.empty, Dict.empty).
Proof.
  intros Hd Hm Hnd Hnr Hdata Hres. unfold write. rewrite Hd, Hm. cbn [negb].
  rewrite (aggregate_on_worker np ranks_data data_keys Dict.empty Hnd Hdata).
  cbn [bind].
  rewrite (aggregate_on_worker np ranks_result result_keys Dict.empty Hnr Hres).
  reflexivity.
Qed.

Lemma write_on_worker_witness :
  write exact MoreSamples.worker 1
    [Dict.empty; Dict.empty]
    [Dict.of_items [("loss"%string, VScalar 1)];
     Dict.of_items [("loss"%string, VScalar 3)]]
    [] ["loss"%string]
  = Ok (Dict.empty, Dict.empty).
Proof.
  apply (write_on_worker exact MoreSamples.worker 1); try reflexivity;
    try discriminate.
  - intros k r [].
  - intros k r [<-|[]] [<-|[<-|[]]]; reflexivity.
Defined.

End WriteFacts.

(** * The launcher *)

Section MainFacts.

Import Manager.
Import Main.

Lemma insert_sorted_perm (x : string) (l : list string) :
  Permutation (insert_sorted x l) (x :: l).
Proof.
  induction l as [|y r IH]; cbn [insert_sorted]; [reflexivity|].
  destruct (String.leb x y); [reflexivity|].
  rewrite IH. apply perm_swap.
Qed.

Lemma sorted_perm (l : list string) : Permutation (sorted l) l.
Proof.
  induction l as [|x l IH]; cbn; [reflexivity|].
  fold (sorted l). rewrite insert_sorted_perm. now constructor.
Qed.

Lemma insert_sorted_ascending (x : string) (l : list string) :
  Sorted (fun a b => String.leb a b = true) l ->
  Sorted (fun a b => String.leb a b = true) (insert_sorted x l).
Proof.
  induction l as [|y r IH]; intros H; cbn [insert_sorted].
  - repeat constructor.
  - destruct (String.leb x y) eqn:Hxy.
    + constructor; [exact H | now constructor].
    + inversion H as [|? ? Hr Hhd]; subst. constructor; [now apply IH|].
      assert (Hyx : String.leb y x = true).
      { destruct (String.leb_total x y) as [Hc|Hc]; [congruence | exact Hc]. }
      destruct r as [|z r]; cbn [insert_sorted]; [now constructor|].
      destruct (String.leb x z); constructor; [exact Hyx|].
      now inversion Hhd.
Qed.

Lemma sorted_ascending (l : list string) :
  Sorted (fun a b => String.leb a b = true) (sorted l).
Proof.
  induction l as [|x l IH]; cbn; [constructor|].
  fold (sorted l). now apply insert_sorted_ascending.
Qed.

(** X26: when the weight path of an inference run is not itself a
    file, the launcher loads every file the path expands to exactly once, in
    ascending order of name, and runs the driver right after each load; when
    the path expands to nothing, the driver runs once with no load. *)
Theorem inference_loads_each_match (fs : filesystem) (path : string) :
  isfile fs path = false ->
  exists ws,
    Permutation ws (glob fs path) /\
    Sorted (fun a b => String.leb a b = true) ws /\
    loaded (inference_single fs (Some path)) = ws /\
    runs (inference_single fs (Some path)) = Nat.max 1 (length ws) /\
    (ws = [] -> inference_single fs (Some path) = [DriverRun]) /\
    (ws <> [] ->
     exists msg,
       inference_single fs (Some path)
       = LogInfo msg
         :: flat_map (fun w => [LoadWeights w; InitializeLog; DriverRun]) ws).
Proof.
  intros Hfile. exists (sorted (glob fs path)).
  split; [apply sorted_perm|]. split; [apply sorted_ascending|].
  unfold inference_single. rewrite Hfile. cbn [negb andb].
  destruct (sorted (glob fs path)) as [|w ws] eqn:Hs.
  - cbn. repeat split; congruence.
  - cbn [length Nat.eqb negb app].
    assert (Hflat : forall l,
              flat_map (fun weight : option string =>
                          match weight with
                          | Some w0 => [LoadWeights w0; InitializeLog; DriverRun]
                          | None => [DriverRun]
                          end) (map Some l)
              = flat_map (fun w0 => [LoadWeights w0; InitializeLog; DriverRun]) l).
    { induction l as [|a l IH]; cbn; [reflexivity | now rewrite IH]. }
    rewrite Hflat.
    assert (Hloaded : forall l,
              loaded (flat_map (fun w0 => [LoadWeights w0; InitializeLog; DriverRun]) l)
              = l).
    { induction l as [|a l IH]; [reflexivity|].
      cbn [flat_map app]. unfold loaded in *. cbn [flat_map app].
      now rewrite IH. }
    assert (Hruns : forall l,
              runs (flat_map (fun w0 => [LoadWeights w0; InitializeLog; DriverRun]) l)
              = length l).
    { induction l as [|a l IH]; [reflexivity|].
      cbn [flat_map app]. unfold runs in *. cbn [filter length].
      now rewrite IH. }
    split; [|split; [|split; [discriminate|]]].
    + exact (Hloaded (w :: ws)).
    + transitivity (length (w :: ws)); [exact (Hruns (w :: ws))|].
      cbn [length]. lia.
    + intros _. eexists. reflexivity.
Qed.

Lemma inference_loads_each_match_witness :
  exists ws,
    Permutation ws ["weights/snapshot-9.ckpt"%string;
                    "weights/snapshot-19.ckpt"%string] /\
    loaded (inference_single MoreSamples.two_matches
                             (Some "weights/snapshot-*.ckpt"%string)) = ws /\
    runs (inference_single MoreSamples.two_matches
                           (Some "weights/snapshot-*.ckpt"%string))
    = Nat.max 1 (length ws).
Proof.
  destruct (inference_loads_each_match MoreSamples.two_matches
              "weights/snapshot-*.ckpt" eq_refl)
    as [ws [Hp [_ [Hl [Hr _]]]]].
  exists ws. split; [exact Hp|]. split; [exact Hl | exact Hr].
Defined.

(** X27: what [run] launches when it returns: without a [train] block it
    is the inference of a single process, and then fewer than two devices
    were asked for; with one it is either one training process or exactly one
    training process for each rank below the world size, which is then at
    most the number of visible devices. *)
Theorem run_launches (set_level : string -> result unit) (fs : filesystem)
    (base : base_cfg) (weight_path : option string) (visible_devices : Z)
    (calls : list launch) :
  run set_level fs base weight_path visible_devices = Ok calls ->
  let world_size := match base_world_size base with
                    | Some w => w
                    | None => 0%Z
                    end in
  (base_train base = false ->
   (world_size < 2)%Z /\ calls = inference_single fs weight_path) /\
  (base_train base = true ->
   ((world_size < 2)%Z /\ calls = [TrainSingle None false None]) \/
   ((world_size <= visible_devices)%Z /\
    calls = map (fun rank => TrainSingle (Some rank) true (Some world_size))
                (seq 0 (Z.to_nat world_size)))).
Proof.
  unfold run, process_world. intros H.
  destruct (set_level _) as [[]|e]; [|discriminate]. cbn [bind] in H.
  set (ws := match base_world_size base with Some w => w | None => 0%Z end) in *.
  cbv zeta.
  destruct (base_distributed base) as [[|]|].
  - rewrite orb_true_r in H. cbn [bind negb] in H.
    destruct (base_train base); cbn [negb] in H; [|discriminate].
    destruct (Z.leb_spec ws visible_devices); [|discriminate].
    injection H as <-. split; [discriminate|]. intros _. right. now split.
  - rewrite orb_false_r in H.
    destruct (Z.ltb_spec ws 2); [|discriminate]. cbn [bind negb] in H.
    injection H as <-. unfold run_single.
    destruct (base_train base); split; try discriminate; intros _.
    + left. now split.
    + now split.
  - destruct (Z.ltb_spec ws 2) as [Hlt|Hge].
    + cbn [orb bind] in H.
      destruct (Z.ltb_spec 1 ws); [lia|]. cbn [negb] in H.
      injection H as <-. unfold run_single.
      destruct (base_train base); split; try discriminate; intros _.
      * left. now split.
      * now split.
    + cbn [orb] in H. destruct (Z.ltb_spec 1 ws); [|lia]. cbn [bind negb] in H.
      destruct (base_train base); cbn [negb] in H; [|discriminate].
      destruct (Z.leb_spec ws visible_devices); [|discriminate].
      injection H as <-. split; [discriminate|]. intros _. right. now split.
Qed.

Lemma run_launches_witness :
  run (fun _ => Ok tt) Samples.no_files
      {| verbosity := None; base_world_size := Some 2%Z;
         base_distributed := None; base_train := true |} None 4
  = Ok [TrainSingle (Some 0%nat) true (Some 2%Z);
        TrainSingle (Some 1%nat) true (Some 2%Z)].
Proof.
  destruct (proj2 (run_launches (fun _ => Ok tt) Samples.no_files
                     {| verbosity := None; base_world_size := Some 2%Z;
                        base_distributed := None; base_train := true |}
                     None 4 _ eq_refl) eq_refl) as [[H _]|[_ H]].
  - cbn in H. lia.
  - reflexivity.
Defined.

End MainFacts.
